(** * OcaTokenManager: a model of the Oracle Code Assist token lifecycle

    The development embeds [OcaTokenManager] (token cache, silent refresh,
    discovery with back-off, interactive login over a local callback
    listener) as executable functions over an explicit world state, and
    proves properties of that embedding.

    Layout:
    - JavaScript values, errors and [formatOcaError];
    - the world (static fields, secret storage, clock, event trace) and a
      state-and-exception monad for [async] code run to completion;
    - [discoveryWithRetry], [isValid], [tryRefresh], [getValid];
    - the callback listener as an event-driven machine, [attemptOnPort] and
      [runInteractiveLogin];
    - the promise-level model of [loginWithoutAutoOpen] and [logout];
    - theorems. *)

From Stdlib Require Import ZArith QArith Qround Qpower List String Ascii Bool Lia Lqa.
Import ListNotations.
Local Open Scope Z_scope.

Set Implicit Arguments.

(* ================================================================== *)
(** * JavaScript values and errors *)
(* ================================================================== *)

(** A property read through [anyErr?.x]: absent (or any falsy value), a
    string, or some other truthy value. *)
Inductive JsVal : Type :=
| JUndefined
| JString (s : string)
| JTruthy.

(** JavaScript truthiness: the empty string is falsy. *)
Definition truthy (v : JsVal) : bool :=
  match v with
  | JUndefined => false
  | JString s => negb (String.eqb s EmptyString)
  | JTruthy => true
  end.

(** [a || b] *)
Definition js_or (a b : JsVal) : JsVal := if truthy a then a else b.

(** A thrown value, seen through the properties the code reads. *)
Record JsError : Type := mkJsError {
  code : option string;
  error_description : JsVal;
  message : JsVal;
  to_String : string;          (* String(err) *)
  instanceof_Error : bool      (* err instanceof Error *)
}.

(** [new Error(msg)] *)
Definition new_Error (msg : string) : JsError :=
  {| code := None;
     error_description := JUndefined;
     message := JString msg;
     to_String := if String.eqb msg EmptyString then "Error"%string
                  else ("Error: " ++ msg)%string;
     instanceof_Error := true |}.

(** [(e as any).code = c] *)
Definition set_code (e : JsError) (c : string) : JsError :=
  {| code := Some c;
     error_description := error_description e;
     message := message e;
     to_String := to_String e;
     instanceof_Error := instanceof_Error e |}.

(** [err?.code === "EADDRINUSE"] *)
Definition code_is (e : JsError) (c : string) : bool :=
  match code e with
  | Some c' => String.eqb c' c
  | None => false
  end.

(* ------------------------------------------------------------------ *)
(** ** Strings: [toLowerCase] and [includes] *)

Definition lower_ascii (c : ascii) : ascii :=
  let n := nat_of_ascii c in
  if (Nat.leb 65 n && Nat.leb n 90)%bool then ascii_of_nat (n + 32) else c.

(** [s.toLowerCase()], for text in the ASCII range: the letters A-Z are
    mapped, every other character is kept. *)
Fixpoint toLowerCase (s : string) : string :=
  match s with
  | EmptyString => EmptyString
  | String c s' => String (lower_ascii c) (toLowerCase s')
  end.

Fixpoint includes (needle hay : string) : bool :=
  if String.prefix needle hay then true
  else match hay with
       | EmptyString => false
       | String _ hay' => includes needle hay'
       end.

Definition msg_port_in_use : string :=
  "Login failed: local callback port is in use. Close other sign-in attempts or try again.".
Definition msg_cannot_reach : string :=
  "Cannot reach Oracle IDCS. Check Proxy/Internet/VPN connectivity, follow OCA troubleshooting gudlines and try again.".
Definition msg_discover_failed : string :=
  "Failed to discover identity configuration. Verify the IDCS URL and network connectivity.".
Definition msg_auth_failed : string :=
  "Authentication failed. Please try again.".
Definition msg_no_port : string :=
  "Failed to start local callback server on any configured port".
Definition msg_proxy : string :=
  "Only environment variable based proxy settings is supported. PAC/WPAD files (Ex: http://wpad/wpad.dat) are not supported in kilocode. Remove if any WPAD/PAC reference from your IDE proxy settings, restart the IDE, and try again. (Refer OCA Kilo troubleshooting guide.)".

(** [formatOcaError(err)] *)
Definition formatOcaError (err : JsError) : string :=
  let raw := js_or (error_description err)
                   (js_or (message err) (JString (to_String err))) in
  let msg := match raw with
             | JString s => s
             | _ => msg_auth_failed
             end in
  let lower := toLowerCase msg in
  if code_is err "EADDRINUSE" then msg_port_in_use
  else if (includes "getaddrinfo" lower
           || includes "econnrefused" lower
           || includes "network" lower
           || includes "fetch failed" lower
           || includes "dns" lower)%bool then msg_cannot_reach
  else if (includes "openid-configuration" lower
           || includes "well-known" lower)%bool then msg_discover_failed
  else msg.

(* ================================================================== *)
(** * Data model *)
(* ================================================================== *)

(** [TokenRecord]: every field is optional; numbers are epoch seconds. *)
Record TokenRecord : Type := mkToken {
  access_token : option string;
  refresh_token : option string;
  id_token : option string;
  token_type : option string;
  scope : option string;
  expires_in : option Z;
  expires_at : option Z
}.

(** [TokenEndpointResponse] of openid-client: the members the manager
    reads, and whatever else the provider put in the response body. *)
Record TokenEndpointResponse : Type := mkResponse {
  res_access_token : option string;
  res_refresh_token : option string;
  res_id_token : option string;
  res_token_type : option string;
  res_scope : option string;
  res_expires_in : option Z;      (* [Some n] iff typeof expires_in === "number" *)
  res_other : list (string * Z)   (* further members of the body *)
}.

(** The metadata document resolved by [discovery]. *)
Record OidcDiscoveryConfig : Type := mkConfig {
  issuer : string;
  authorization_endpoint : string;
  token_endpoint : string
}.

Definition RENEW_TOKEN_BUFFER_SEC : Z := 180.

(** What the secret storage holds under [SECRET_STORAGE_KEY]. *)
Inductive SecretValue : Type :=
| JsonOf (t : TokenRecord)   (* JSON.stringify(t) *)
| JsonNull                   (* the text null *)
| EmptyText                  (* the empty string *)
| NotJson.                   (* text that JSON.parse rejects *)

(* ================================================================== *)
(** * World, trace and the monad *)
(* ================================================================== *)

Inductive Event : Type :=
| EvSecretsGet
| EvSecretsStore (t : TokenRecord)
| EvSecretsDelete
| EvDiscovery
| EvRefreshGrant (rt : option string)
| EvCodeGrant (port : Z)
| EvRandom
| EvSleep (ms : Z)
| EvConsoleError (what : string) (e : JsError)
| EvListen (port : Z)
| EvServerClose (port : Z)
| EvPostAuthUrl (port : Z)
| EvOpenExternal (port : Z)
| EvRespond (port : Z) (status : Z).

(** Calls that reach the identity provider. *)
Definition is_network (ev : Event) : bool :=
  match ev with
  | EvDiscovery | EvRefreshGrant _ | EvCodeGrant _ => true
  | _ => false
  end.

Definition is_discovery (ev : Event) : bool :=
  match ev with EvDiscovery => true | _ => false end.
Definition is_random (ev : Event) : bool :=
  match ev with EvRandom => true | _ => false end.
Definition is_refresh (ev : Event) : bool :=
  match ev with EvRefreshGrant _ => true | _ => false end.
Definition is_secrets_get (ev : Event) : bool :=
  match ev with EvSecretsGet => true | _ => false end.
Definition is_secrets_store (ev : Event) : bool :=
  match ev with EvSecretsStore _ => true | _ => false end.
Definition is_secrets_delete (ev : Event) : bool :=
  match ev with EvSecretsDelete => true | _ => false end.
Definition is_listen (ev : Event) : bool :=
  match ev with EvListen _ => true | _ => false end.

(** The trace lists events in the order they completed, each stamped with
    the clock (milliseconds since the epoch) at completion. *)
Definition Trace : Type := list (Z * Event).

Definition calls (k : Event -> bool) (tr : Trace) : nat :=
  List.length (List.filter (fun te => k (snd te)) tr).

Record World : Type := mkWorld {
  cached : option TokenRecord;      (* OcaTokenManager.cached *)
  secret : option SecretValue;      (* the value under SECRET_STORAGE_KEY *)
  clock_ms : Z;                     (* Date.now() *)
  trace : Trace
}.

(** How an awaited computation ends. *)
Inductive Completion (A : Type) : Type :=
| Return (a : A)
| Throw (e : JsError)
| Hang.                             (* the awaited promise never settles *)
Arguments Throw {A} e.
Arguments Hang {A}.

Definition M (A : Type) : Type := World -> Completion A * World.

Definition ret {A} (a : A) : M A := fun w => (Return a, w).
Definition throw {A} (e : JsError) : M A := fun w => (Throw e, w).
Definition bind {A B} (m : M A) (k : A -> M B) : M B :=
  fun w => match m w with
           | (Return a, w') => k a w'
           | (Throw e, w') => (Throw e, w')
           | (Hang, w') => (Hang, w')
           end.
(** [try { m } catch (err) { h err }] *)
Definition try_catch {A} (m : M A) (h : JsError -> M A) : M A :=
  fun w => match m w with
           | (Throw e, w') => h e w'
           | r => r
           end.

Declare Scope js_scope.
Delimit Scope js_scope with js.
Notation "x <- m ;; k" := (bind m (fun x => k))
  (at level 61, m at next level, right associativity) : js_scope.
Notation "m ;; k" := (bind m (fun _ => k))
  (at level 61, right associativity) : js_scope.
Local Open Scope js_scope.

(** What can happen to one callback listener, in the order it happens. *)
Inductive ListenerInput : Type :=
| InListening                          (* the listen callback: bind succeeded *)
| InError (e : JsError)                (* the server's "error" event *)
| InRequest (pathname : option string) (* an inbound request; None: no req.url *)
| InExchangeDone (req : nat) (r : JsError + TokenEndpointResponse).
                                       (* authorizationCodeGrant of request req settles *)

(** Behaviour of everything outside the manager. Each oracle is indexed
    by how many calls of its kind the trace already holds. *)
Record Env : Type := mkEnv {
  discovery_outcome : nat -> JsError + OidcDiscoveryConfig;
  random_outcome : nat -> Q;                         (* Math.random() *)
  refresh_outcome : nat -> OidcDiscoveryConfig -> option string
                    -> JsError + TokenEndpointResponse;
  secrets_get_error : nat -> option JsError;
  secrets_store_error : nat -> option JsError;
  secrets_delete_error : nat -> option JsError;
  listener_inputs : nat -> Z -> list ListenerInput;  (* n-th listener, its port *)
  elapsed_ms : nat -> nat                            (* duration of the n-th event *)
}.

Section Manager.

Variable env : Env.

(** The world after an event that took [dt] milliseconds. *)
Definition push (dt : Z) (ev : Event) (w : World) : World :=
  {| cached := cached w; secret := secret w; clock_ms := clock_ms w + dt;
     trace := trace w ++ [(clock_ms w + dt, ev)] |}.

Definition emit (dt : Z) (ev : Event) : M unit :=
  fun w => (Return tt, push dt ev w).

(** Duration of the next external call. *)
Definition lag (w : World) : Z := Z.of_nat (elapsed_ms env (List.length (trace w))).

Definition get_world : M World := fun w => (Return w, w).
Definition with_cached (c : option TokenRecord) (w : World) : World :=
  {| cached := c; secret := secret w; clock_ms := clock_ms w; trace := trace w |}.
Definition with_secret (s : option SecretValue) (w : World) : World :=
  {| cached := cached w; secret := s; clock_ms := clock_ms w; trace := trace w |}.

(** [this.cached = c] *)
Definition set_cached (c : option TokenRecord) : M unit :=
  fun w => (Return tt, with_cached c w).
Definition set_secret (s : option SecretValue) : M unit :=
  fun w => (Return tt, with_secret s w).

Definition of_sum {A} (r : JsError + A) : M A :=
  match r with
  | inl e => throw e
  | inr a => ret a
  end.

(** [Math.floor(Date.now() / 1000)] *)
Definition now_sec (w : World) : Z := clock_ms w / 1000.

Definition console_error (what : string) (e : JsError) : M unit :=
  emit 0 (EvConsoleError what e).

(** [discovery(discoveryUrl, DEFAULT_INTERNAL_IDCS_CLIENT_ID)] *)
Definition discovery : M OidcDiscoveryConfig :=
  w <- get_world ;;
  emit (lag w) EvDiscovery ;;
  of_sum (discovery_outcome env (calls is_discovery (trace w))).

Definition Math_random : M Q :=
  w <- get_world ;;
  emit 0 EvRandom ;;
  ret (random_outcome env (calls is_random (trace w))).

(** [this.sleep(ms)] *)
Definition sleep (ms : Z) : M unit := emit (Z.max 0 ms) (EvSleep ms).

(** [Math.round] *)
Definition Math_round (x : Q) : Z := Qfloor (x + (1 # 2))%Q.

(** [Math.min(maxDelayMs, baseDelayMs * Math.pow(2, attempt))] *)
Definition backoff (baseDelayMs maxDelayMs : Z) (attempt : nat) : Z :=
  Z.min maxDelayMs (baseDelayMs * 2 ^ Z.of_nat attempt).

(** The integer part of the binary logarithm of a positive rational. *)
Definition ilog2 (x : Q) : Z :=
  let k := Z.log2 (Qnum x) - Z.log2 (Zpos (Qden x)) in
  if Qle_bool (2 ^ k) x then k else k - 1.

(** The nearest integer, the even one of two that are equally near. *)
Definition round_half_even (x : Q) : Z :=
  let f := Qfloor x in
  match (x - inject_Z f ?= 1 # 2)%Q with
  | Lt => f
  | Gt => f + 1
  | Eq => if Z.even f then f else f + 1
  end.

(** A JavaScript number is a binary64: the result of [+] and [*] is the
    exact result rounded to the nearest number with a significand of 53
    bits, ties to even. Overflow and subnormal numbers are left out; the
    retrier computes with magnitudes between 1/2 and 3/2 of its bounds. *)
Definition binary64 (x : Q) : Q :=
  match Qnum x with
  | Z0 => 0%Q
  | Zpos _ =>
      let e := ilog2 x - 52 in
      (inject_Z (round_half_even (x / 2 ^ e)) * 2 ^ e)%Q
  | Zneg _ =>
      let e := ilog2 (- x) - 52 in
      (- (inject_Z (round_half_even (- x / 2 ^ e)) * 2 ^ e))%Q
  end.

(** A rational that a binary64 holds exactly (exponent range aside). *)
Definition representable (a : Q) : Prop :=
  exists m k : Z, Z.abs m < 2 ^ 53 /\ (a == inject_Z m * 2 ^ k)%Q.

(** [0.5 + Math.random()] *)
Definition jitter_of (r : Q) : Q := binary64 ((1 # 2) + r)%Q.

(** [Math.round(backoff * jitter)] *)
Definition delay_of (baseDelayMs maxDelayMs : Z) (attempt : nat) (r : Q) : Z :=
  Math_round (binary64 (inject_Z (backoff baseDelayMs maxDelayMs attempt) * jitter_of r)%Q).

(** The code after the [for] loop of [discoveryWithRetry]. *)
Definition discovery_failed (lastErr : JsError) : M OidcDiscoveryConfig :=
  console_error "OCA: OIDC discovery failed:" lastErr ;;
  throw (new_Error msg_proxy).

(** The [for] loop of [discoveryWithRetry], from iteration [attempt] on;
    [left = retries - attempt], so [attempt === retries] is [left = 0]. *)
Fixpoint discovery_loop (baseDelayMs maxDelayMs : Z) (left attempt : nat)
  : M OidcDiscoveryConfig :=
  try_catch discovery
    (fun err =>
       match left with
       | O => discovery_failed err
       | S left' =>
           r <- Math_random ;;
           sleep (delay_of baseDelayMs maxDelayMs attempt r) ;;
           discovery_loop baseDelayMs maxDelayMs left' (S attempt)
       end).

Definition discoveryWithRetry_with (retries : nat) (baseDelayMs maxDelayMs : Z)
  : M OidcDiscoveryConfig :=
  discovery_loop baseDelayMs maxDelayMs retries 0.

(** Default options: [retries = 3, baseDelayMs = 500, maxDelayMs = 2000]. *)
Definition discoveryWithRetry : M OidcDiscoveryConfig :=
  discoveryWithRetry_with 3 500 2000.


(* ------------------------------------------------------------------ *)
(** ** Secret storage: [save] and [load] *)

Definition save (t : TokenRecord) : M unit :=
  w <- get_world ;;
  emit (lag w) (EvSecretsStore t) ;;
  match secrets_store_error env (calls is_secrets_store (trace w)) with
  | Some e => throw e
  | None => set_secret (Some (JsonOf t))
  end.

Definition secrets_get : M (option SecretValue) :=
  w <- get_world ;;
  emit (lag w) EvSecretsGet ;;
  match secrets_get_error env (calls is_secrets_get (trace w)) with
  | Some e => throw e
  | None => ret (secret w)
  end.

Definition load : M (option TokenRecord) :=
  try_catch
    (json <- secrets_get ;;
     match json with
     | Some (JsonOf t) => ret (Some t)
     | Some JsonNull => ret None
     | Some NotJson => throw (new_Error "Unexpected token")
     | Some EmptyText => ret None
     | None => ret None
     end)
    (fun _ => ret None).

(* ------------------------------------------------------------------ *)
(** ** [isValid], [tryRefresh], [getValid] *)

(** [!!t.expires_at && now < t.expires_at - RENEW_TOKEN_BUFFER_SEC] *)
Definition isValid_at (now : Z) (t : TokenRecord) : bool :=
  match expires_at t with
  | Some e => negb (e =? 0) && (now <? e - RENEW_TOKEN_BUFFER_SEC)
  | None => false
  end.

Definition isValid (t : TokenRecord) : M bool :=
  w <- get_world ;;
  ret (isValid_at (now_sec w) t).

(** [refreshTokenGrant(config, token.refresh_token!)] *)
Definition refreshTokenGrant (config : OidcDiscoveryConfig) (rt : option string)
  : M TokenEndpointResponse :=
  w <- get_world ;;
  emit (lag w) (EvRefreshGrant rt) ;;
  of_sum (refresh_outcome env (calls is_refresh (trace w)) config rt).

(** [a ?? b] on an optional member *)
Definition nullish_or {A} (a b : option A) : option A :=
  match a with
  | Some x => Some x
  | None => b
  end.

(** The record [tryRefresh] builds from the response. *)
Definition refreshed_record (nowSec : Z) (res : TokenEndpointResponse)
  (token : TokenRecord) : TokenRecord :=
  {| access_token := res_access_token res;
     refresh_token := nullish_or (res_refresh_token res) (refresh_token token);
     id_token := res_id_token res;
     token_type := res_token_type res;
     scope := res_scope res;
     expires_in := res_expires_in res;
     expires_at := match res_expires_in res with
                   | Some n => Some (nowSec + n)
                   | None => expires_at token
                   end |}.

Definition tryRefresh (token : TokenRecord) : M (option TokenRecord) :=
  try_catch
    (config <- discoveryWithRetry ;;
     res <- refreshTokenGrant config (refresh_token token) ;;
     w <- get_world ;;
     let next := refreshed_record (now_sec w) res token in
     save next ;;
     set_cached (Some next) ;;
     ret (Some next))
    (fun err =>
       console_error "OCA: refreshTokenGrant failed:" err ;;
       ret None).

(** Truthiness of an optional string member. *)
Definition truthy_str (s : option string) : bool :=
  match s with
  | Some s' => negb (String.eqb s' EmptyString)
  | None => false
  end.

Definition getValid : M (option TokenRecord) :=
  w <- get_world ;;
  token <- match cached w with
           | Some t => ret (Some t)
           | None =>
               loaded <- load ;;
               match loaded with
               | Some t => set_cached (Some t) ;; ret (Some t)
               | None => ret None
               end
           end ;;
  match token with
  | Some t =>
      valid <- isValid t ;;
      if valid then ret (Some t)
      else if truthy_str (refresh_token t) then
        refreshed <- tryRefresh t ;;
        match refreshed with
        | Some r => ret (Some r)
        | None => ret None
        end
      else ret None
  | None => ret None
  end.

(** [logout]: the static fields and the durable record. The in-flight
    reference it also clears lives in [Manager] below. *)
Definition logout : M unit :=
  set_cached None ;;
  try_catch
    (w <- get_world ;;
     emit (lag w) EvSecretsDelete ;;
     match secrets_delete_error env (calls is_secrets_delete (trace w)) with
     | Some e => throw e
     | None => set_secret None
     end)
    (fun _ => ret tt).

End Manager.

(* ================================================================== *)
(** * The callback listener of [attemptOnPort] *)
(* ================================================================== *)

Module CallbackListener.

Inductive ServerState : Type :=
| Created              (* http.createServer returned, listen not yet done *)
| Listening
| Draining             (* close() after a bind: the port is free, no connection
                          is accepted, connections accepted earlier stay open *)
| Closed.              (* close() on a server that never listened *)

(** [close()] has been called: the server holds no port and takes none. *)
Definition released (s : ServerState) : bool :=
  match s with
  | Draining | Closed => true
  | Created | Listening => false
  end.

(** A request can still reach the handler: the server listens, or it
    listened and a connection it accepted is still open. *)
Definition dispatching (s : ServerState) : bool :=
  match s with
  | Listening | Draining => true
  | Created | Closed => false
  end.

(** The promise [attemptOnPort] returns. *)
Inductive Attempt : Type :=
| Unsettled
| Resolved (t : TokenEndpointResponse)
| Rejected (e : JsError).

Record Listener : Type := mkListener {
  port : Z;
  server : ServerState;
  attempt : Attempt;
  honored : option nat;      (* the request whose exchange settled [attempt] *)
  exchanging : list nat;     (* requests awaiting authorizationCodeGrant *)
  arrived : nat;             (* /callback requests the handler took up *)
  events : list Event        (* what the listener did, oldest first *)
}.

(** [http.createServer(...)], [server.on("error", ...)], [server.listen(port, ...)] *)
Definition create (p : Z) : Listener :=
  {| port := p; server := Created; attempt := Unsettled; honored := None;
     exchanging := []; arrived := 0%nat; events := [EvListen p] |}.

Definition log (evs : list Event) (l : Listener) : Listener :=
  {| port := port l; server := server l; attempt := attempt l;
     honored := honored l; exchanging := exchanging l; arrived := arrived l;
     events := events l ++ evs |}.

Definition set_server (s : ServerState) (l : Listener) : Listener :=
  {| port := port l; server := s; attempt := attempt l;
     honored := honored l; exchanging := exchanging l; arrived := arrived l;
     events := events l |}.

(** [server.close()]: the server stops listening; it does not end the
    connections it has accepted. *)
Definition server_close (l : Listener) : Listener :=
  log [EvServerClose (port l)]
      (set_server (if dispatching (server l) then Draining else Closed) l).

(** [resolve(t)] / [reject(err)]: a settled promise ignores both. *)
Definition settle (by_request : option nat) (a : Attempt) (l : Listener) : Listener :=
  match attempt l with
  | Unsettled =>
      {| port := port l; server := server l; attempt := a;
         honored := by_request; exchanging := exchanging l;
         arrived := arrived l; events := events l |}
  | _ => l
  end.

(** The handler reached [await authorizationCodeGrant(...)]. *)
Definition begin_exchange (l : Listener) : Listener :=
  {| port := port l; server := server l; attempt := attempt l;
     honored := honored l; exchanging := exchanging l ++ [arrived l];
     arrived := S (arrived l);
     events := events l ++ [EvCodeGrant (port l)] |}.

Definition end_exchange (req : nat) (l : Listener) : Listener :=
  {| port := port l; server := server l; attempt := attempt l;
     honored := honored l;
     exchanging := List.filter (fun r => negb (Nat.eqb r req)) (exchanging l);
     arrived := arrived l; events := events l |}.

Definition port_in_use : JsError := set_code (new_Error "Port in use") "EADDRINUSE".

(** The listener's reaction to one input: the listen callback, the
    "error" handler, the request handler up to its [await], and the
    handler's continuation once the code exchange has settled. Node's
    [http.Server] is taken at its documented behaviour: [close()] stops
    the server from accepting connections and keeps the connections it
    has, so a request on one of those still reaches the handler, which
    has no guard of its own. *)
Definition step (l : Listener) (i : ListenerInput) : Listener :=
  match i with
  | InListening =>
      match server l with
      | Created =>
          log [EvPostAuthUrl (port l); EvOpenExternal (port l)]
              (set_server Listening l)
      | _ => l
      end
  | InError e =>
      if code_is e "EADDRINUSE"
      then settle None (Rejected port_in_use) (server_close l)
      else settle None (Rejected e) l
  | InRequest url =>
      if dispatching (server l) then
        match url with
        | None => l
        | Some pathname =>
            if String.eqb pathname "/callback" then begin_exchange l else l
        end
      else l   (* a server that never listened has no connection *)
  | InExchangeDone req r =>
      if List.existsb (Nat.eqb req) (exchanging l) then
        match r with
        | inr t =>
            settle (Some req) (Resolved t)
              (server_close (log [EvRespond (port l) 200] (end_exchange req l)))
        | inl e =>
            settle (Some req) (Rejected e)
              (server_close (log [EvRespond (port l) 400] (end_exchange req l)))
        end
      else l
  end.

Definition run (l : Listener) (ins : list ListenerInput) : Listener :=
  List.fold_left step ins l.

(** The listener up to the moment its promise settles: that is where the
    awaiting [runInteractiveLogin] resumes. *)
Fixpoint run_until_settled (l : Listener) (ins : list ListenerInput) : Listener :=
  match ins with
  | [] => l
  | i :: rest =>
      match attempt l with
      | Unsettled => run_until_settled (step l i) rest
      | _ => l
      end
  end.

End CallbackListener.

(* ================================================================== *)
(** * [runInteractiveLogin] *)
(* ================================================================== *)

Section Login.

Variable env : Env.

(** [DEFAULT_INTERNAL_IDCS_PORT_CANDIDATES] comes from the constants
    module; the login is stated for any ordered list. *)
Variable PORT_CANDIDATES : list Z.

Fixpoint emit_all (evs : list Event) : M unit :=
  match evs with
  | [] => ret tt
  | ev :: rest =>
      w <- get_world ;;
      emit (lag env w) ev ;;
      emit_all rest
  end.

Definition hang {A} : M A := fun w => (Hang, w).

(** [await attemptOnPort(port)] *)
Definition attemptOnPort (p : Z) : M TokenEndpointResponse :=
  w <- get_world ;;
  let l := CallbackListener.run_until_settled (CallbackListener.create p)
             (listener_inputs env (calls is_listen (trace w)) p) in
  emit_all (CallbackListener.events l) ;;
  match CallbackListener.attempt l with
  | CallbackListener.Resolved t => ret t
  | CallbackListener.Rejected e => throw e
  | CallbackListener.Unsettled => hang
  end.

(** [lastError ?? new Error("Failed to start ...")] *)
Definition last_or_default (lastError : option JsError) : JsError :=
  match lastError with
  | Some e => e
  | None => new_Error msg_no_port
  end.

(** The [for (const p of ...)] loop and the [if (!tokens)] after it. *)
Fixpoint try_ports (ports : list Z) (lastError : option JsError)
  : M TokenEndpointResponse :=
  match ports with
  | [] => throw (new_Error (formatOcaError (last_or_default lastError)))
  | p :: rest =>
      try_catch (attemptOnPort p)
        (fun err =>
           if code_is err "EADDRINUSE" then try_ports rest (Some err)
           else throw (new_Error (formatOcaError err)))
  end.

(** The record [runInteractiveLogin] builds from the response. *)
Definition login_record (nowSec : Z) (tokens : TokenEndpointResponse) : TokenRecord :=
  {| access_token := res_access_token tokens;
     refresh_token := res_refresh_token tokens;
     id_token := res_id_token tokens;
     token_type := res_token_type tokens;
     scope := res_scope tokens;
     expires_in := res_expires_in tokens;
     expires_at := match res_expires_in tokens with
                   | Some n => Some (nowSec + n)
                   | None => None
                   end |}.

(** The PKCE pair only feeds the authorization URL and the code exchange,
    whose outcomes are the environment's; it leaves no mark on the world. *)
Definition runInteractiveLogin : M TokenRecord :=
  _config <- try_catch (discoveryWithRetry env)
               (fun e =>
                  if instanceof_Error e then throw e
                  else throw (new_Error (formatOcaError e))) ;;
  tokens <- try_ports PORT_CANDIDATES None ;;
  w <- get_world ;;
  let tokenSet := login_record (now_sec w) tokens in
  save env tokenSet ;;
  set_cached (Some tokenSet) ;;
  ret tokenSet.

End Login.

(* ================================================================== *)
(** * [loginWithoutAutoOpen]: the single-flight guard *)
(* ================================================================== *)

Module SingleFlight.

(** How [runInteractiveLogin] ended. *)
Inductive Outcome : Type :=
| Fulfilled (t : TokenRecord)
| Failed (e : JsError).

(** An interactive flow, i.e. one call of [runInteractiveLogin]. *)
Inductive Flow : Type :=
| Running
| Settled (o : Outcome).

(** [inflightLogin] holds the promise [runInteractiveLogin(...).finally(...)]
    of a flow, named by the flow's number; [flows] lists every flow started
    so far. *)
Record Manager : Type := mkManager {
  inflightLogin : option nat;
  flows : list Flow
}.

(** What a caller of [loginWithoutAutoOpen] gets: a record at once, or the
    promise of a flow. *)
Inductive CallResult : Type :=
| Immediately (t : TokenRecord)
| Awaiting (flow : nat).

Definition initial : Manager := {| inflightLogin := None; flows := [] |}.

(** The body of [loginWithoutAutoOpen] after [await this.getValid()]
    produced [existing]; it runs without suspension. *)
Definition loginWithoutAutoOpen (existing : option TokenRecord) (m : Manager)
  : CallResult * Manager :=
  match existing with
  | Some t => (Immediately t, m)
  | None =>
      match inflightLogin m with
      | Some f => (Awaiting f, m)
      | None =>
          let f := List.length (flows m) in
          (Awaiting f, {| inflightLogin := Some f; flows := flows m ++ [Running] |})
      end
  end.

Fixpoint replace_at (f : nat) (x : Flow) (l : list Flow) : list Flow :=
  match l, f with
  | [], _ => []
  | _ :: rest, O => x :: rest
  | y :: rest, S f' => y :: replace_at f' x rest
  end.

(** Flow [f] settles with [o]; its [finally] callback runs. *)
Definition settles (f : nat) (o : Outcome) (m : Manager) : Manager :=
  match List.nth_error (flows m) f with
  | Some Running => {| inflightLogin := None; flows := replace_at f (Settled o) (flows m) |}
  | _ => m
  end.

(** [logout]: [this.inflightLogin = null]. *)
Definition logout (m : Manager) : Manager :=
  {| inflightLogin := None; flows := flows m |}.

Inductive Action : Type :=
| CallLogin (existing : option TokenRecord)
| FlowSettles (f : nat) (o : Outcome)
| CallLogout.

Definition act (m : Manager) (a : Action) : Manager :=
  match a with
  | CallLogin existing => snd (loginWithoutAutoOpen existing m)
  | FlowSettles f o => settles f o m
  | CallLogout => logout m
  end.

Definition run (m : Manager) (acts : list Action) : Manager :=
  List.fold_left act acts m.

Definition is_logout (a : Action) : bool :=
  match a with CallLogout => true | _ => false end.

Definition running (m : Manager) (f : nat) : Prop :=
  List.nth_error (flows m) f = Some Running.


(** No interactive flow is running. *)
Definition idle (m : Manager) : bool :=
  List.forallb (fun fl => match fl with Running => false | Settled _ => true end)
               (flows m).

(** Every [logout] of [acts], run from [m], happens while no interactive
    flow is running. *)
Fixpoint logouts_idle (m : Manager) (acts : list Action) : bool :=
  match acts with
  | [] => true
  | a :: rest =>
      (if is_logout a then idle m else true) && logouts_idle (act m a) rest
  end.

(** The guard's invariant: the in-flight reference names exactly the
    running flow. *)
Definition guarded (m : Manager) : Prop :=
  forall f, running m f <-> inflightLogin m = Some f.

End SingleFlight.

(* ================================================================== *)
(** * Observations on traces *)
(* ================================================================== *)

(** The delays slept, in order. *)
Fixpoint sleeps (tr : Trace) : list Z :=
  match tr with
  | [] => []
  | (_, EvSleep ms) :: rest => ms :: sleeps rest
  | _ :: rest => sleeps rest
  end.

(** The ports on which a listener was started, in order. *)
Fixpoint listens (tr : Trace) : list Z :=
  match tr with
  | [] => []
  | (_, EvListen p) :: rest => p :: listens rest
  | _ :: rest => listens rest
  end.

(** The ports whose server handle was closed, in order. *)
Fixpoint closes (tr : Trace) : list Z :=
  match tr with
  | [] => []
  | (_, EvServerClose p) :: rest => p :: closes rest
  | _ :: rest => closes rest
  end.

(** The records written to the secret storage, in order. *)
Fixpoint stores (tr : Trace) : list TokenRecord :=
  match tr with
  | [] => []
  | (_, EvSecretsStore t) :: rest => t :: stores rest
  | _ :: rest => stores rest
  end.

(** The world after a failed attempt that is followed by a retry. *)
Definition after_retry env (baseDelayMs maxDelayMs : Z) (attempt : nat) (w : World) : World :=
  let d := delay_of baseDelayMs maxDelayMs attempt
             (random_outcome env (calls is_random (trace w))) in
  push (Z.max 0 d) (EvSleep d) (push 0 EvRandom (push (lag env w) EvDiscovery w)).

(** The world after a failed last attempt. *)
Definition after_last_failure env (lastErr : JsError) (w : World) : World :=
  push 0 (EvConsoleError "OCA: OIDC discovery failed:" lastErr)
    (push (lag env w) EvDiscovery w).

(** The delays of [f] consecutive failed attempts, the first being
    iteration [attempt] and drawing the [k]-th random number. *)
Fixpoint expected_delays env (baseDelayMs maxDelayMs : Z) (k attempt f : nat) : list Z :=
  match f with
  | O => []
  | S f' =>
      delay_of baseDelayMs maxDelayMs attempt (random_outcome env k)
      :: expected_delays env baseDelayMs maxDelayMs (S k) (S attempt) f'
  end.



(* ================================================================== *)
(** * Sample environments, for concrete runs *)
(* ================================================================== *)

Definition sample_error : JsError := new_Error "getaddrinfo ENOTFOUND idcs.example".

Definition sample_config : OidcDiscoveryConfig :=
  {| issuer := "https://idcs.example";
     authorization_endpoint := "https://idcs.example/oauth2/v1/authorize";
     token_endpoint := "https://idcs.example/oauth2/v1/token" |}.

Definition sample_response : TokenEndpointResponse :=
  {| res_access_token := Some "at-2"%string;
     res_refresh_token := None;
     res_id_token := None;
     res_token_type := Some "Bearer"%string;
     res_scope := Some "openid"%string;
     res_expires_in := Some 3600;
     res_other := [("expires_at"%string, 99)] |}.

(** An environment with a reliable secret storage and instantaneous calls. *)
Definition env_with
  (disc : nat -> JsError + OidcDiscoveryConfig)
  (refresh : nat -> OidcDiscoveryConfig -> option string -> JsError + TokenEndpointResponse)
  (inputs : nat -> Z -> list ListenerInput) : Env :=
  {| discovery_outcome := disc;
     random_outcome := fun _ => (1 # 3)%Q;
     refresh_outcome := refresh;
     secrets_get_error := fun _ => None;
     secrets_store_error := fun _ => None;
     secrets_delete_error := fun _ => None;
     listener_inputs := inputs;
     elapsed_ms := fun _ => 0%nat |}.

(** Discovery fails on its first [f] calls and succeeds afterwards. *)
Definition env_failing_first (f : nat) : Env :=
  env_with (fun n => if Nat.ltb n f then inl sample_error else inr sample_config)
           (fun _ _ _ => inr sample_response)
           (fun _ _ => []).


(** Two ports are taken; the third cannot be bound for lack of permission. *)
Definition env_ports_busy : Env :=
  env_with (fun _ => inr sample_config)
           (fun _ _ _ => inr sample_response)
           (fun n _ =>
              if Nat.ltb n 2
              then [InError (set_code (new_Error "listen EADDRINUSE") "EADDRINUSE")]
              else [InError (set_code (new_Error "listen EACCES") "EACCES")]).

(** The first port is taken; the second one binds and the redirect is
    exchanged for [sample_response]. *)
Definition env_second_port : Env :=
  env_with (fun _ => inr sample_config)
           (fun _ _ _ => inr sample_response)
           (fun n _ =>
              if Nat.ltb n 1
              then [InError (set_code (new_Error "listen EADDRINUSE") "EADDRINUSE")]
              else [InListening; InRequest (Some "/callback"%string);
                    InExchangeDone 0 (inr sample_response)]).

(** The provider answers every refresh with a short-lived token. *)
Definition short_lived_response : TokenEndpointResponse :=
  {| res_access_token := Some "at-short"%string;
     res_refresh_token := Some "rt-next"%string;
     res_id_token := None;
     res_token_type := Some "Bearer"%string;
     res_scope := None;
     res_expires_in := Some 60;
     res_other := [] |}.

Definition env_short_lived : Env :=
  env_with (fun _ => inr sample_config)
           (fun _ _ _ => inr short_lived_response)
           (fun _ _ => []).

(** The provider answers every refresh with an access token and nothing else. *)
Definition bare_response : TokenEndpointResponse :=
  {| res_access_token := Some "at-bare"%string;
     res_refresh_token := None;
     res_id_token := None;
     res_token_type := None;
     res_scope := None;
     res_expires_in := None;
     res_other := [] |}.

Definition env_bare : Env :=
  env_with (fun _ => inr sample_config)
           (fun _ _ _ => inr bare_response)
           (fun _ _ => []).

Definition expired_token : TokenRecord :=
  {| access_token := Some "at-1"%string;
     refresh_token := Some "rt-1"%string;
     id_token := None;
     token_type := Some "Bearer"%string;
     scope := None;
     expires_in := Some 3600;
     expires_at := Some 900 |}.

Definition world_at (c : option TokenRecord) (s : option SecretValue) (now_ms : Z) : World :=
  {| cached := c; secret := s; clock_ms := now_ms; trace := [] |}.

(** The world at the moment the refresh-grant response arrives. *)
Definition on_refresh_response env (rt : option string) (w : World) : World :=
  push (lag env w) (EvRefreshGrant rt) w.

(** The world after [save] and [this.cached = t] succeeded. *)
Definition after_persist env (t : TokenRecord) (w : World) : World :=
  with_cached (Some t)
    (with_secret (Some (JsonOf t)) (push (lag env w) (EvSecretsStore t) w)).

(** The token [getValid] examines, and the world in which it does so: the
    in-process copy, or else what [load] produced (then cached). *)
Definition examined env (w : World) : option TokenRecord * World :=
  match cached w with
  | Some t => (Some t, w)
  | None =>
      match load env w with
      | (Return (Some t), w1) => (Some t, with_cached (Some t) w1)
      | (_, w1) => (None, w1)
      end
  end.

(** The durable copy cannot be read or parsed. *)
Definition unreadable env (w : World) : Prop :=
  secrets_get_error env (calls is_secrets_get (trace w)) <> None
  \/ secret w = Some NotJson.

(** Something inside the refresh of [t] fails: discovery (after its
    retries), the refresh grant, or the write to the secret storage. *)
Definition refresh_fails env (t : TokenRecord) (w : World) : Prop :=
  match discoveryWithRetry env w with
  | (Return c, w1) =>
      match refresh_outcome env (calls is_refresh (trace w1)) c (refresh_token t) with
      | inl _ => True
      | inr _ =>
          secrets_store_error env
            (calls is_secrets_store
               (trace (on_refresh_response env (refresh_token t) w1))) <> None
      end
  | _ => True
  end.

(** The world after the listener's events were replayed into the trace. *)
Definition emitted env (evs : list Event) (w : World) : World :=
  snd (emit_all env evs w).

Definition listens_ev (evs : list Event) : list Z :=
  listens (List.map (fun ev => (0, ev)) evs).
Definition closes_ev (evs : list Event) : list Z :=
  closes (List.map (fun ev => (0, ev)) evs).

(** The first thing that happens to the listener started on [p] as the
    [n]-th one is an "error" event carrying [e]: the bind failed. *)
Definition bind_fails env (n : nat) (p : Z) (e : JsError) : Prop :=
  exists later, listener_inputs env n p = InError e :: later.

(** Every port of [ports], tried in order from the [n]-th listener on,
    fails to bind with code EADDRINUSE. *)
Fixpoint all_in_use env (n : nat) (ports : list Z) : Prop :=
  match ports with
  | [] => True
  | p :: rest =>
      (exists e, bind_fails env n p e /\ code_is e "EADDRINUSE" = true)
      /\ all_in_use env (S n) rest
  end.

(** [lastError] after the ports of [busy] were all found in use. *)
Definition last_after (busy : list Z) (lastError : option JsError) : option JsError :=
  match busy with
  | [] => lastError
  | _ :: _ => Some CallbackListener.port_in_use
  end.

(** The listener on [p] binds, receives the redirect and the code
    exchange answers [r]. *)
Definition callback_arrives env (n : nat) (p : Z) (r : JsError + TokenEndpointResponse) : Prop :=
  exists later,
    listener_inputs env n p =
    InListening :: InRequest (Some "/callback"%string) :: InExchangeDone 0 r :: later.

(** What a listener that served one callback leaves in the trace. *)
Definition served_events (p : Z) (status : Z) : list Event :=
  [EvListen p; EvPostAuthUrl p; EvOpenExternal p; EvCodeGrant p;
   EvRespond p status; EvServerClose p].

(** A computation only ever appends to the trace. *)
Definition appends {A} (m : M A) : Prop :=
  forall w, exists suffix, trace (snd (m w)) = trace w ++ suffix.

(** A computation always settles. *)
Definition settles {A} (m : M A) : Prop :=
  forall w, fst (m w) <> Hang.

(* ================================================================== *)
(** * Measures of effort and of what is left untouched *)
(* ================================================================== *)

Definition total_ms (delays : list Z) : Z := List.fold_right Z.add 0 delays.

Definition is_code_grant (ev : Event) : bool :=
  match ev with EvCodeGrant _ => true | _ => false end.
Definition is_post_auth (ev : Event) : bool :=
  match ev with EvPostAuthUrl _ => true | _ => false end.
Definition is_open_external (ev : Event) : bool :=
  match ev with EvOpenExternal _ => true | _ => false end.
Definition is_respond (ev : Event) : bool :=
  match ev with EvRespond _ _ => true | _ => false end.

(** The kind of an event: its constructor, without the data. *)
Inductive Kind : Type :=
| KSecretsGet | KSecretsStore | KSecretsDelete | KDiscovery | KRefreshGrant
| KCodeGrant | KRandom | KSleep | KConsoleError | KListen | KServerClose
| KPostAuthUrl | KOpenExternal | KRespond.

Definition kind_of (ev : Event) : Kind :=
  match ev with
  | EvSecretsGet => KSecretsGet
  | EvSecretsStore _ => KSecretsStore
  | EvSecretsDelete => KSecretsDelete
  | EvDiscovery => KDiscovery
  | EvRefreshGrant _ => KRefreshGrant
  | EvCodeGrant _ => KCodeGrant
  | EvRandom => KRandom
  | EvSleep _ => KSleep
  | EvConsoleError _ _ => KConsoleError
  | EvListen _ => KListen
  | EvServerClose _ => KServerClose
  | EvPostAuthUrl _ => KPostAuthUrl
  | EvOpenExternal _ => KOpenExternal
  | EvRespond _ _ => KRespond
  end.

Definition Kind_eqb (a b : Kind) : bool :=
  match a, b with
  | KSecretsGet, KSecretsGet | KSecretsStore, KSecretsStore
  | KSecretsDelete, KSecretsDelete | KDiscovery, KDiscovery
  | KRefreshGrant, KRefreshGrant | KCodeGrant, KCodeGrant | KRandom, KRandom
  | KSleep, KSleep | KConsoleError, KConsoleError | KListen, KListen
  | KServerClose, KServerClose | KPostAuthUrl, KPostAuthUrl
  | KOpenExternal, KOpenExternal | KRespond, KRespond => true
  | _, _ => false
  end.

Definition is_kind (K : Kind) (ev : Event) : bool := Kind_eqb (kind_of ev) K.

(** One if an event of kind [K'] counts as one of kind [K], else zero. *)
Definition unit_of (K K' : Kind) : nat := if Kind_eqb K' K then 1 else 0.

(** The secret storage refuses every deletion. *)
Definition env_delete_fails : Env :=
  {| discovery_outcome := fun _ => inr sample_config;
     random_outcome := fun _ => (1 # 3)%Q;
     refresh_outcome := fun _ _ _ => inr sample_response;
     secrets_get_error := fun _ => None;
     secrets_store_error := fun _ => None;
     secrets_delete_error := fun _ => Some (new_Error "secret storage is locked");
     listener_inputs := fun _ _ => [];
     elapsed_ms := fun _ => 0%nat |}.

Definition fresh_token : TokenRecord :=
  {| access_token := Some "at-1"%string;
     refresh_token := Some "rt-1"%string;
     id_token := None;
     token_type := Some "Bearer"%string;
     scope := None;
     expires_in := Some 3600;
     expires_at := Some 2000 |}.

(** The events one [tryRefresh] can add, by kind: four discovery calls,
    three random draws and sleeps, two console messages, one refresh
    grant, one write to the secret storage. *)
Definition tryRefresh_budget (K : Kind) : nat :=
  (4 * unit_of K KDiscovery + 3 * (unit_of K KRandom + unit_of K KSleep)
   + 2 * unit_of K KConsoleError + unit_of K KRefreshGrant
   + unit_of K KSecretsStore)%nat.


(** How many events of a kind a listener has produced. *)
Definition count_ev (k : Event -> bool) (evs : list Event) : nat :=
  List.length (List.filter k evs).

(** The authorization URL has been shown at most once, each time
    followed by the opening of the browser, and not before the bind. *)
Definition shown_once (l : CallbackListener.Listener) : Prop :=
  (count_ev is_post_auth (CallbackListener.events l) <= 1)%nat /\
  count_ev is_open_external (CallbackListener.events l)
    = count_ev is_post_auth (CallbackListener.events l) /\
  (CallbackListener.server l = CallbackListener.Created ->
   count_ev is_post_auth (CallbackListener.events l) = 0%nat).

(** Every /callback request the handler took up has been handed to the
    code exchange once, and is either still being exchanged or has been
    answered once. *)
Definition accounted (l : CallbackListener.Listener) : Prop :=
  List.NoDup (CallbackListener.exchanging l) /\
  (forall r, List.In r (CallbackListener.exchanging l) ->
             (r < CallbackListener.arrived l)%nat) /\
  count_ev is_code_grant (CallbackListener.events l) = CallbackListener.arrived l /\
  (count_ev is_respond (CallbackListener.events l)
   + List.length (CallbackListener.exchanging l))%nat = CallbackListener.arrived l.

(** A computation adds at most [n] events of kind [k] to the trace. *)
Definition at_most {A} (k : Event -> bool) (n : nat) (m : M A) : Prop :=
  forall w, (calls k (trace (snd (m w))) <= calls k (trace w) + n)%nat.

(** A computation leaves a component of the world as it found it. *)
Definition keeps {A B} (component : World -> B) (m : M A) : Prop :=
  forall w, component (snd (m w)) = component w.

(* ================================================================== *)
(** * The issuer URL and the discovery URL *)
(* ================================================================== *)

Definition is_slash (c : ascii) : bool := Ascii.eqb c "/"%char.

(** [s.replace(/\/+$/, "")]: drop the slashes the string ends with. *)
Fixpoint strip_trailing_slashes (s : string) : string :=
  match s with
  | EmptyString => EmptyString
  | String c s' =>
      match strip_trailing_slashes s' with
      | EmptyString => if is_slash c then EmptyString else String c EmptyString
      | r => String c r
      end
  end.

Fixpoint slashes (k : nat) : string :=
  match k with
  | O => EmptyString
  | S k' => String "/"%char (slashes k')
  end.

(** [IDCS_URL], given the configured [DEFAULT_INTERNAL_IDCS_URL]. *)
Definition IDCS_URL (DEFAULT_INTERNAL_IDCS_URL : string) : string :=
  strip_trailing_slashes DEFAULT_INTERNAL_IDCS_URL.

(** The text handed to [new URL] in [tryRefresh] and [runInteractiveLogin]. *)
Definition discoveryUrl (DEFAULT_INTERNAL_IDCS_URL : string) : string :=
  (IDCS_URL DEFAULT_INTERNAL_IDCS_URL ++ "/.well-known/openid-configuration")%string.

(** The needles by which [formatOcaError] recognises a network failure. *)
Definition network_needles : list string :=
  ["getaddrinfo"; "econnrefused"; "network"; "fetch failed"; "dns"]%string.

(* ================================================================== *)
(** * The chat handler: [OcaHandler] *)
(* ================================================================== *)

Module OcaHandler.

(** An object whose values are strings: its own properties, in insertion
    order, each key once. *)
Definition Headers : Type := list (string * string).

(** [h[k] = v] *)
Fixpoint set_header (k v : string) (h : Headers) : Headers :=
  match h with
  | [] => [(k, v)]
  | (k', v') :: rest =>
      if String.eqb k' k then (k', v) :: rest
      else (k', v') :: set_header k v rest
  end.

(** [h[k]] *)
Fixpoint get_header (k : string) (h : Headers) : option string :=
  match h with
  | [] => None
  | (k', v') :: rest => if String.eqb k' k then Some v' else get_header k rest
  end.

(** [{...a, ...b}] *)
Definition spread (a b : Headers) : Headers :=
  List.fold_left (fun acc kv => set_header (fst kv) (snd kv) acc) b a.

(** What the handler reads from its host: the package, the wrapper
    properties (or the error thrown while reading them), the editor. *)
Record Host : Type := mkHost {
  Package_name : string;
  Package_version : string;
  wrapper_properties : JsError + (option string * option string);
  appName : string;
  vscode_version : string;
  BASE_HEADERS : Headers
}.

Record ClientInfo : Type := mkClientInfo {
  client : string;
  clientVersion : string;
  clientIde : string;
  clientIdeVersion : string
}.

(** [a || b] for an optional string [a] *)
Definition or_string (a : option string) (b : string) : string :=
  match a with
  | Some s => if String.eqb s EmptyString then b else s
  | None => b
  end.

(** [getOcaClientInfo()]; the console warning of the [catch] is not
    recorded. *)
Definition getOcaClientInfo (h : Host) : ClientInfo :=
  match wrapper_properties h with
  | inr (kiloCodeWrapperTitle, kiloCodeWrapperVersion) =>
      {| client := Package_name h;
         clientVersion := Package_version h;
         clientIde := or_string kiloCodeWrapperTitle (appName h);
         clientIdeVersion := or_string kiloCodeWrapperVersion (vscode_version h) |}
  | inl _ =>
      {| client := Package_name h;
         clientVersion := Package_version h;
         clientIde := EmptyString;
         clientIdeVersion := EmptyString |}
  end.

(** The module constant [DEFAULT_HEADERS]. *)
Definition DEFAULT_HEADERS (h : Host) : Headers :=
  set_header "Content-Type" "application/json"
    (set_header "Accept" "application/json" (spread [] (BASE_HEADERS h))).

(** The options handed to [new OpenAI(...)]. *)
Record ClientOptions : Type := mkClientOptions {
  apiKey : string;
  baseURL : string;
  defaultHeaders : Headers
}.

Definition msg_sign_in : string :=
  "Please sign in with Oracle SSO at Settings > Providers > Oracle Code Assist.".

Definition client_headers (h : Host) : Headers :=
  let info := getOcaClientInfo h in
  set_header "client-ide-version" (clientIdeVersion info)
    (set_header "client-ide" (clientIde info)
       (set_header "client-version" (clientVersion info)
          (set_header "client" (client info)
             (spread [] (DEFAULT_HEADERS h))))).

(** [getClientWithBase(baseURL)] *)
Definition getClientWithBase env (h : Host) (url : string) : M ClientOptions :=
  token <- getValid env ;;
  match token with
  | Some t =>
      match access_token t with
      | Some a =>
          if String.eqb a EmptyString then throw (new_Error msg_sign_in)
          else ret {| apiKey := a; baseURL := url; defaultHeaders := client_headers h |}
      | None => throw (new_Error msg_sign_in)
      end
  | None => throw (new_Error msg_sign_in)
  end.

(* ------------------------------------------------------------------ *)
(** ** The completion stream of [createMessage] *)

Record Delta : Type := mkDelta {
  content : option string;            (* None: null or absent *)
  reasoning_content : option string   (* Some s iff present and a string *)
}.

Record Choice : Type := mkChoice {
  delta : option Delta
}.

Record Usage : Type := mkUsage {
  prompt_tokens : option Z;
  completion_tokens : option Z
}.

Record Chunk : Type := mkChunk {
  choices : list Choice;
  usage : option Usage
}.

(** What the generator yields. *)
Inductive ApiStreamChunk : Type :=
| TextChunk (text : string)
| ReasoningChunk (text : string)
| UsageChunk (inputTokens outputTokens : Z).

(** [chunk.choices[0]?.delta] *)
Definition first_delta (c : Chunk) : option Delta :=
  match choices c with
  | [] => None
  | ch :: _ => delta ch
  end.

(** [n || 0] *)
Definition or_zero (n : option Z) : Z :=
  match n with
  | Some z => z
  | None => 0
  end.

(** The body of the [for await] loop. *)
Definition yields_of (c : Chunk) : list ApiStreamChunk :=
  let d := first_delta c in
  (match d with
   | Some {| content := Some s |} =>
       if String.eqb s EmptyString then [] else [TextChunk s]
   | _ => []
   end)
  ++ (match d with
      | Some {| reasoning_content := Some s |} => [ReasoningChunk s]
      | _ => []
      end)
  ++ (match usage c with
      | Some u => [UsageChunk (or_zero (prompt_tokens u)) (or_zero (completion_tokens u))]
      | None => []
      end).

(** Everything the generator yields for a stream of chunks. *)
Definition createMessage_yields (stream : list Chunk) : list ApiStreamChunk :=
  List.flat_map yields_of stream.

(** The text, and the reasoning, a consumer accumulates. *)
Fixpoint accumulated_text (ys : list ApiStreamChunk) : string :=
  match ys with
  | [] => EmptyString
  | TextChunk s :: rest => (s ++ accumulated_text rest)%string
  | _ :: rest => accumulated_text rest
  end.

Fixpoint accumulated_reasoning (ys : list ApiStreamChunk) : string :=
  match ys with
  | [] => EmptyString
  | ReasoningChunk s :: rest => (s ++ accumulated_reasoning rest)%string
  | _ :: rest => accumulated_reasoning rest
  end.

(** The text, and the reasoning, the provider sent. *)
Fixpoint sent_text (stream : list Chunk) : string :=
  match stream with
  | [] => EmptyString
  | c :: rest =>
      (match first_delta c with
       | Some {| content := Some s |} => s
       | _ => EmptyString
       end ++ sent_text rest)%string
  end.

Fixpoint sent_reasoning (stream : list Chunk) : string :=
  match stream with
  | [] => EmptyString
  | c :: rest =>
      (match first_delta c with
       | Some {| reasoning_content := Some s |} => s
       | _ => EmptyString
       end ++ sent_reasoning rest)%string
  end.

Definition is_usage_chunk (y : ApiStreamChunk) : bool :=
  match y with UsageChunk _ _ => true | _ => false end.

Definition has_usage (c : Chunk) : bool :=
  match usage c with Some _ => true | None => false end.

End OcaHandler.

(* ================================================================== *)
(** * The webview side: messages, the model service, the selector *)
(* ================================================================== *)

Module Webview.

(** A JavaScript value as the webview receives it. Numbers are integers;
    an object lists its own properties, each key once. *)
#[warnings="-register-all"]
Inductive JValue : Type :=
| JVUndefined
| JVNull
| JVBool (b : bool)
| JVNumber (n : Z)
| JVString (s : string)
| JVObject (props : list (string * JValue))
| JVFunction.

(** [!val] is false *)
Definition is_truthy (v : JValue) : bool :=
  match v with
  | JVUndefined | JVNull => false
  | JVBool b => b
  | JVNumber n => negb (n =? 0)
  | JVString s => negb (String.eqb s EmptyString)
  | JVObject _ | JVFunction => true
  end.

Inductive TypeOf : Type :=
| TUndefined | TObject | TBoolean | TNumber | TString | TFunction.

(** [typeof v] *)
Definition typeof (v : JValue) : TypeOf :=
  match v with
  | JVUndefined => TUndefined
  | JVNull | JVObject _ => TObject
  | JVBool _ => TBoolean
  | JVNumber _ => TNumber
  | JVString _ => TString
  | JVFunction => TFunction
  end.

Fixpoint lookup_prop (k : string) (props : list (string * JValue)) : JValue :=
  match props with
  | [] => JVUndefined
  | (k', v) :: rest => if String.eqb k' k then v else lookup_prop k rest
  end.

(** [(val as any).k] for a non-nullish [val] *)
Definition prop (v : JValue) (k : string) : JValue :=
  match v with
  | JVObject props => lookup_prop k props
  | _ => JVUndefined
  end.

Definition SHOW_AUTH_URL : string := "oca/show-auth-url".
Definition LOGIN_SUCCESS : string := "oca/login-success".
Definition LOGIN_ERROR : string := "oca/login-error".
Definition LOGOUT_SUCCESS : string := "oca/logout-success".
Definition STATUS : string := "oca/status".

Definition is_type (t : TypeOf) (v : JValue) : bool :=
  match typeof v, t with
  | TUndefined, TUndefined | TObject, TObject | TBoolean, TBoolean
  | TNumber, TNumber | TString, TString | TFunction, TFunction => true
  | _, _ => false
  end.

(** [isOcaMessage(val)] *)
Definition isOcaMessage (val : JValue) : bool :=
  if negb (is_truthy val) || negb (is_type TObject val) then false
  else
    match prop val "type" with
    | JVString t =>
        if String.eqb t SHOW_AUTH_URL then is_type TString (prop val "url")
        else if String.eqb t LOGIN_SUCCESS then true
        else if String.eqb t LOGIN_ERROR then
          is_type TString (prop val "error") || is_type TUndefined (prop val "error")
        else if String.eqb t LOGOUT_SUCCESS then true
        else if String.eqb t STATUS then
          is_type TBoolean (prop val "authenticated")
          || is_type TUndefined (prop val "authenticated")
        else false
    | _ => false
    end.

(** The union type [OcaWebviewMessage]. *)
Inductive OcaWebviewMessage : Type :=
| OcaShowAuthUrl (url : string)
| OcaLoginSuccess
| OcaLoginError (error : option string)
| OcaLogoutSuccess
| OcaStatus (authenticated : option bool).

(** A value carries the message [m]: it is an object whose [type] and
    payload member are those of [m]. Further members are allowed. *)
Definition carries (val : JValue) (m : OcaWebviewMessage) : Prop :=
  (exists props, val = JVObject props) /\
  match m with
  | OcaShowAuthUrl url =>
      prop val "type" = JVString SHOW_AUTH_URL /\ prop val "url" = JVString url
  | OcaLoginSuccess => prop val "type" = JVString LOGIN_SUCCESS
  | OcaLoginError error =>
      prop val "type" = JVString LOGIN_ERROR /\
      prop val "error" = match error with
                         | Some e => JVString e
                         | None => JVUndefined
                         end
  | OcaLogoutSuccess => prop val "type" = JVString LOGOUT_SUCCESS
  | OcaStatus authenticated =>
      prop val "type" = JVString STATUS /\
      prop val "authenticated" = match authenticated with
                                 | Some b => JVBool b
                                 | None => JVUndefined
                                 end
  end.

(* ------------------------------------------------------------------ *)
(** ** [OCAModelService] over the webview state *)

Section ModelService.

(** [ModelInfo] comes from the shared types; the service only stores it. *)
Variable ModelInfo : Type.

Definition Models : Type := list (string * ModelInfo).

Record OcaCache : Type := mkOcaCache {
  models : option Models;
  selectedModelId : option string
}.

Record ModelServiceState : Type := mkModelServiceState {
  oca : option OcaCache
}.

(** The webview state: the [modelService] member and every other member. *)
Record StateShape : Type := mkStateShape {
  modelService : option ModelServiceState;
  other_members : list (string * JValue)
}.

(** What [vscode.getState()] returns: a state, or nothing yet. *)
Definition WebState : Type := option StateShape.

Definition empty_cache : OcaCache := {| models := None; selectedModelId := None |}.

(** [readState()] *)
Definition readState (st : WebState) : StateShape :=
  let raw := match st with
             | Some s => s
             | None => {| modelService := None; other_members := [] |}
             end in
  let raw1 := match modelService raw with
              | Some _ => raw
              | None => {| modelService := Some {| oca := Some empty_cache |};
                           other_members := other_members raw |}
              end in
  match modelService raw1 with
  | Some {| oca := Some _ |} => raw1
  | _ => {| modelService := Some {| oca := Some empty_cache |};
            other_members := other_members raw1 |}
  end.

(** [state[STATE_KEY]!.oca!] *)
Definition the_oca (s : StateShape) : OcaCache :=
  match modelService s with
  | Some {| oca := Some c |} => c
  | _ => empty_cache
  end.

Definition with_oca (c : OcaCache) (s : StateShape) : StateShape :=
  {| modelService := Some {| oca := Some c |}; other_members := other_members s |}.

(** [writeState(next)] *)
Definition writeState (next : StateShape) : WebState := Some next.

Definition setOcaModels (ms : Models) (st : WebState) : WebState :=
  let state := readState st in
  writeState (with_oca {| models := Some ms;
                          selectedModelId := selectedModelId (the_oca state) |} state).

Definition getOcaModels (st : WebState) : Models :=
  match models (the_oca (readState st)) with
  | Some ms => ms
  | None => []
  end.

(** [Object.keys(models)[0] || ""] *)
Definition getOcaFirstModelId (st : WebState) : string :=
  match getOcaModels st with
  | [] => EmptyString
  | (k, _) :: _ => k
  end.

Definition setOcaSelectedModelId (modelId : string) (st : WebState) : WebState :=
  let state := readState st in
  writeState (with_oca {| models := models (the_oca state);
                          selectedModelId := Some modelId |} state).

Definition getOcaSelectedModelId (st : WebState) : option string :=
  selectedModelId (the_oca (readState st)).

Definition clearOcaSelection (st : WebState) : WebState :=
  let state := readState st in
  writeState (with_oca {| models := models (the_oca state);
                          selectedModelId := None |} state).

(** The members of the state other than [modelService]. *)
Definition others (st : WebState) : list (string * JValue) :=
  match st with
  | Some s => other_members s
  | None => []
  end.

End ModelService.

(* ------------------------------------------------------------------ *)
(** ** The option list of [ModelSelector] *)

(** [modelsIds.indexOf(selectedModelId) >= 0] *)
Definition listed (selectedModelId : string) (modelsIds : list string) : bool :=
  List.existsb (String.eqb selectedModelId) modelsIds.

(** The [value]s of [options], in order. *)
Definition option_values (selectedModelId : string) (modelsIds : list string)
  : list string :=
  (if listed selectedModelId modelsIds then [] else [selectedModelId]) ++ modelsIds.

End Webview.

(* ================================================================== *)
(** * The model list: [getOCAModels] *)
(* ================================================================== *)

Module ModelFetcher.

(** A value of a JSON response body, or [undefined]. *)
#[warnings="-register-all"]
Inductive Json : Type :=
| JUndef
| JNull
| JBool (b : bool)
| JNum (n : Z)
| JStr (s : string)
| JArr (items : list Json)
| JObj (members : list (string * Json)).

Fixpoint member (k : string) (members : list (string * Json)) : Json :=
  match members with
  | [] => JUndef
  | (k', v) :: rest => if String.eqb k' k then v else member k rest
  end.

(** [v?.k] *)
Definition get (v : Json) (k : string) : Json :=
  match v with
  | JObj members => member k members
  | _ => JUndef
  end.

(** [!!v] *)
Definition truthy_json (v : Json) : bool :=
  match v with
  | JUndef | JNull => false
  | JBool b => b
  | JNum n => negb (n =? 0)
  | JStr s => negb (String.eqb s EmptyString)
  | JArr _ | JObj _ => true
  end.

Definition is_space (c : ascii) : bool :=
  let n := nat_of_ascii c in
  Nat.eqb n 32 || (Nat.leb 9 n && Nat.leb n 13).

(** [s.trim().length === 0], for the white space of the ASCII range *)
Fixpoint is_blank (s : string) : bool :=
  match s with
  | EmptyString => true
  | String c s' => is_space c && is_blank s'
  end.

(** A parsed URL: what precedes the path, the path, what follows it,
    and whether the path is opaque (as in mailto:x), in which case the
    setter of [pathname] leaves the URL as it is. *)
Record Url : Type := mkUrl {
  before_path : string;
  pathname : string;
  after_path : string;
  opaque_path : bool
}.

(** [url.toString()] *)
Definition url_toString (u : Url) : string :=
  (before_path u ++ pathname u ++ after_path u)%string.

(** The body of [resolveOcaModelInfoUrl] once [new URL(baseUrl)] gave [u]. *)
Definition with_model_info_path (u : Url) : Url :=
  if opaque_path u then u
  else
    {| before_path := before_path u;
       pathname := (strip_trailing_slashes (pathname u) ++ "/v1/model/info")%string;
       after_path := after_path u;
       opaque_path := false |}.

(** What an HTTP failure carries. *)
Record ErrResponse : Type := mkErrResponse {
  status : option Z;
  statusText : option string;
  headers : list (string * string)
}.

Record HttpError : Type := mkHttpError {
  response : option ErrResponse;
  request : bool;                       (* error?.request is truthy *)
  error_message : option string
}.

Section Fetch.

(** Numbers with fractions are not computed with: a price stays the
    pair of the raw member and the factor one million. *)
Variable Num : Type.
Variable parseFloat_times_1000000 : Json -> Num.
(** Decimal text of a status code. *)
Variable show_status : Z -> string.
(** [new URL(baseUrl)] *)
Variable new_URL : string -> JsError + Url.
(** [httpClient.get(url, { headers, ... })] *)
Variable http_get : string -> OcaHandler.Headers -> HttpError + Json.
Variable host : OcaHandler.Host.

Record ModelInfo : Type := mkModelInfo {
  maxTokens : Z;
  contextWindow : Z;
  supportsImages : bool;
  supportsPromptCache : bool;
  inputPrice : option Num;
  outputPrice : option Num;
  cacheWritesPrice : option Num;
  cacheReadsPrice : option Num;
  description : Json;
  banner : Json
}.

(** [ModelRecord]: an object from model ids to model information, as
    the list of its own members. *)
Definition ModelRecord : Type := list (string * ModelInfo).

Fixpoint set_model (k : string) (v : ModelInfo) (models : ModelRecord) : ModelRecord :=
  match models with
  | [] => [(k, v)]
  | (k', v') :: rest =>
      if String.eqb k' k then (k', v) :: rest
      else (k', v') :: set_model k v rest
  end.

(** [models[k] = v] for [models] made by an object literal: the key
    __proto__ names the inherited accessor, so the assignment replaces
    the prototype and adds no member. *)
Definition assign_model (k : string) (v : ModelInfo) (models : ModelRecord)
  : ModelRecord :=
  if String.eqb k "__proto__" then models else set_model k v models.

(** The member [k] of the record. *)
Fixpoint get_model (k : string) (models : ModelRecord) : option ModelInfo :=
  match models with
  | [] => None
  | (k', v') :: rest => if String.eqb k' k then Some v' else get_model k rest
  end.

(** [parsePrice(price)] *)
Definition parsePrice (price : Json) : option Num :=
  match price with
  | JUndef | JNull => None
  | _ => Some (parseFloat_times_1000000 price)
  end.

(** [model?.litellm_params?.model], when it is a non-empty string. *)
Definition model_id (model : Json) : option string :=
  match get (get model "litellm_params") "model" with
  | JStr s => if String.eqb s EmptyString then None else Some s
  | _ => None
  end.

(** The [baseInfo] built for one entry of the response. *)
Definition base_info (model : Json) : ModelInfo :=
  let info := if truthy_json (get model "model_info") then get model "model_info"
              else JObj [] in
  {| maxTokens := match get (get model "litellm_params") "max_tokens" with
                  | JNum n => n
                  | _ => -1
                  end;
     contextWindow := match get info "context_window" with
                      | JNum n => if 0 <? n then n else 0
                      | _ => 0
                      end;
     supportsImages := truthy_json (get info "supports_vision");
     supportsPromptCache := truthy_json (get info "supports_caching");
     inputPrice := parsePrice (get info "input_price");
     outputPrice := parsePrice (get info "output_price");
     cacheWritesPrice := parsePrice (get info "caching_price");
     cacheReadsPrice := parsePrice (get info "cached_price");
     description := get info "description";
     banner := get info "banner" |}.

(** One turn of the [for (const model of dataArray)] loop. *)
Definition add_model (models : ModelRecord) (model : Json) : ModelRecord :=
  match model_id model with
  | Some modelId => assign_model modelId (base_info model) models
  | None => models
  end.

Definition build_models (dataArray : list Json) : ModelRecord :=
  List.fold_left add_model dataArray [].

(** [Array.isArray(response?.data?.data) ? response.data.data : []] *)
Definition data_array (resp : Json) : list Json :=
  match get (get resp "data") "data" with
  | JArr items => items
  | _ => []
  end.

(** [buildOcaHeaders(accessToken)] *)
Definition buildOcaHeaders (accessToken : option string) : OcaHandler.Headers :=
  let info := OcaHandler.getOcaClientInfo host in
  let headers :=
    [("Content-Type", "application/json");
     ("client", OcaHandler.client info);
     ("client-version", OcaHandler.clientVersion info);
     ("client-ide", OcaHandler.clientIde info);
     ("client-ide-version", OcaHandler.clientIdeVersion info)]%string in
  match accessToken with
  | Some a =>
      if String.eqb a EmptyString then headers
      else OcaHandler.set_header "Authorization" ("Bearer " ++ a) headers
  | None => headers
  end.

Definition msg_proxy_models : string :=
  "Only environment variable based proxy settings is supported. PAC/WPAD files(Ex: http://wpad/wpad.dat) are not supported in kilocode. Remove if any WPAD/PAC reference from your IDE proxy settings, restart the IDE, and try again. (Refer OCA Kilo troubleshooting guide.)".

Definition or_text (a : option string) (b : string) : string :=
  match a with
  | Some s => s
  | None => b
  end.

(** The message the [catch] block builds. *)
Definition failure_message (error : HttpError) : string :=
  let userMsg :=
    match response error with
    | Some resp =>
        ("Did you set up your OCA access through entitlements? OCA service returned "
         ++ match status resp with
            | Some n => show_status n
            | None => "unknown"
            end
         ++ " " ++ or_text (statusText resp) "Unknown Status" ++ ".")%string
    | None =>
        if request error then msg_proxy_models
        else OcaHandler.or_string (error_message error)
               "Error occurred while fetching OCA models."
    end in
  let opcRequestId :=
    match response error with
    | Some resp => OcaHandler.get_header "opc-request-id" (headers resp)
    | None => None
    end in
  let suffix :=
    match opcRequestId with
    | Some id => if String.eqb id EmptyString then EmptyString
                 else (" opc-request-id: " ++ id)%string
    | None => EmptyString
    end in
  ("Error refreshing OCA models. " ++ userMsg ++ suffix)%string.

(** [getOCAModels(baseUrl, accessToken, httpClient)]: its outcome and the
    requests it sent, each with its headers. *)
Definition getOCAModels (baseUrl : string) (accessToken : option string)
  : (JsError + ModelRecord) * list (string * OcaHandler.Headers) :=
  if is_blank baseUrl then (inr [], [])
  else
    match new_URL baseUrl with
    | inl e => (inl e, [])
    | inr u =>
        let url := url_toString (with_model_info_path u) in
        let hs := buildOcaHeaders accessToken in
        match http_get url hs with
        | inr resp => (inr (build_models (data_array resp)), [(url, hs)])
        | inl error => (inl (new_Error (failure_message error)), [(url, hs)])
        end
    end.

(** The last entry of the response that names the model [id]. *)
Fixpoint last_named (id : string) (dataArray : list Json) : option Json :=
  match dataArray with
  | [] => None
  | model :: rest =>
      match last_named id rest with
      | Some m => Some m
      | None => match model_id model with
                | Some id' => if String.eqb id' id then Some model else None
                | None => None
                end
      end
  end.

End Fetch.

End ModelFetcher.

(* ================================================================== *)
(** * Basic facts about the world and the trace *)
(* ================================================================== *)

Unset Implicit Arguments.

Lemma calls_app (k : Event -> bool) (t1 t2 : Trace) :
  calls k (t1 ++ t2) = (calls k t1 + calls k t2)%nat.
Proof.
  unfold calls. rewrite List.filter_app, List.length_app. reflexivity.
Qed.

Lemma calls_push (k : Event -> bool) dt ev w :
  calls k (trace (push dt ev w)) =
  (calls k (trace w) + (if k ev then 1 else 0))%nat.
Proof.
  unfold push; simpl. rewrite calls_app. unfold calls at 2; simpl.
  destruct (k ev); reflexivity.
Qed.

Lemma sleeps_app (t1 t2 : Trace) : sleeps (t1 ++ t2) = sleeps t1 ++ sleeps t2.
Proof.
  induction t1 as [|[t ev] t1 IH]; simpl; [reflexivity|].
  destruct ev; simpl; rewrite IH; reflexivity.
Qed.

Lemma listens_app (t1 t2 : Trace) : listens (t1 ++ t2) = listens t1 ++ listens t2.
Proof.
  induction t1 as [|[t ev] t1 IH]; simpl; [reflexivity|].
  destruct ev; simpl; rewrite IH; reflexivity.
Qed.

Lemma closes_app (t1 t2 : Trace) : closes (t1 ++ t2) = closes t1 ++ closes t2.
Proof.
  induction t1 as [|[t ev] t1 IH]; simpl; [reflexivity|].
  destruct ev; simpl; rewrite IH; reflexivity.
Qed.

Lemma stores_app (t1 t2 : Trace) : stores (t1 ++ t2) = stores t1 ++ stores t2.
Proof.
  induction t1 as [|[t ev] t1 IH]; simpl; [reflexivity|].
  destruct ev; simpl; rewrite IH; reflexivity.
Qed.

(** One step of each external call. *)
Lemma discovery_run env w :
  discovery env w =
  (match discovery_outcome env (calls is_discovery (trace w)) with
   | inl e => Throw e
   | inr c => Return c
   end, push (lag env w) EvDiscovery w).
Proof.
  unfold discovery, bind, get_world, emit, of_sum.
  destruct (discovery_outcome env _); reflexivity.
Qed.

Lemma Math_random_run env w :
  Math_random env w =
  (Return (random_outcome env (calls is_random (trace w))), push 0 EvRandom w).
Proof. reflexivity. Qed.

Lemma sleep_run ms w : sleep ms w = (Return tt, push (Z.max 0 ms) (EvSleep ms) w).
Proof. reflexivity. Qed.

(** Unfolding the monad one step at a time. *)
Lemma bind_run {A B} (m : M A) (k : A -> M B) w :
  bind m k w =
  match m w with
  | (Return a, w') => k a w'
  | (Throw e, w') => (Throw e, w')
  | (Hang, w') => (Hang, w')
  end.
Proof. reflexivity. Qed.

Lemma try_catch_run {A} (m : M A) (h : JsError -> M A) w :
  try_catch m h w =
  match m w with
  | (Throw e, w') => h e w'
  | r => r
  end.
Proof. reflexivity. Qed.

Lemma get_world_run w : get_world w = (Return w, w).
Proof. reflexivity. Qed.

Lemma console_error_run what e w :
  console_error what e w = (Return tt, push 0 (EvConsoleError what e) w).
Proof. reflexivity. Qed.

Lemma set_cached_run c w : set_cached c w = (Return tt, with_cached c w).
Proof. reflexivity. Qed.

(* ================================================================== *)
(** * The back-off retrier *)
(* ================================================================== *)

Lemma discovery_loop_success env B Mx left attempt w c :
  discovery_outcome env (calls is_discovery (trace w)) = inr c ->
  discovery_loop env B Mx left attempt w =
  (Return c, push (lag env w) EvDiscovery w).
Proof.
  intros H. destruct left; simpl; unfold try_catch;
    rewrite discovery_run, H; reflexivity.
Qed.

Lemma discovery_loop_retry env B Mx left attempt w e :
  discovery_outcome env (calls is_discovery (trace w)) = inl e ->
  discovery_loop env B Mx (S left) attempt w =
  discovery_loop env B Mx left (S attempt) (after_retry env B Mx attempt w).
Proof.
  intros H. simpl. unfold try_catch at 1. rewrite discovery_run, H.
  unfold bind at 1. rewrite Math_random_run.
  unfold bind at 1. rewrite sleep_run.
  unfold after_retry. rewrite calls_push. simpl. rewrite Nat.add_0_r.
  reflexivity.
Qed.

Lemma discovery_loop_last env B Mx attempt w e :
  discovery_outcome env (calls is_discovery (trace w)) = inl e ->
  discovery_loop env B Mx 0 attempt w =
  (Throw (new_Error msg_proxy), after_last_failure env e w).
Proof.
  intros H. simpl. unfold try_catch. rewrite discovery_run, H. reflexivity.
Qed.

Lemma calls_after_retry k env B Mx attempt w :
  calls k (trace (after_retry env B Mx attempt w)) =
  (calls k (trace w) + (if k EvDiscovery then 1 else 0)
   + (if k EvRandom then 1 else 0)
   + (if k (EvSleep (delay_of B Mx attempt
                       (random_outcome env (calls is_random (trace w)))))
      then 1 else 0))%nat.
Proof. unfold after_retry. rewrite !calls_push. reflexivity. Qed.

Lemma sleeps_push dt ev w :
  sleeps (trace (push dt ev w)) =
  sleeps (trace w) ++ match ev with EvSleep ms => [ms] | _ => [] end.
Proof. unfold push; simpl. rewrite sleeps_app. destruct ev; reflexivity. Qed.

(** [Math.round] is within half a unit of its argument. *)
Lemma Math_round_near (x : Q) :
  (inject_Z (Math_round x) - (1 # 2) <= x)%Q /\
  (x < inject_Z (Math_round x) + (1 # 2))%Q.
Proof.
  unfold Math_round.
  pose proof (Qfloor_le (x + (1 # 2))) as H1.
  pose proof (Qlt_floor (x + (1 # 2))) as H2.
  rewrite inject_Z_plus in H2. change (inject_Z 1) with 1%Q in H2.
  split; lra.
Qed.

(* ------------------------------------------------------------------ *)
(** ** Rounding to binary64 *)

Lemma pow2_pos (k : Z) : (0 < 2 ^ k)%Q.
Proof. apply Qpower_0_lt. reflexivity. Qed.

Lemma pow2_plus (n m : Z) : (2 ^ (n + m) == 2 ^ n * 2 ^ m)%Q.
Proof. apply Qpower_plus. discriminate. Qed.

Lemma pow2_le (n m : Z) : n <= m -> (2 ^ n <= 2 ^ m)%Q.
Proof. intros H. apply Qpower_le_compat_l; [exact H | discriminate]. Qed.

Lemma pow2_inject (n : Z) : 0 <= n -> (inject_Z (2 ^ n) == 2 ^ n)%Q.
Proof. intros H. rewrite (Zpower_Qpower 2 n H). reflexivity. Qed.

Lemma scaled_le_reg (a b c : Q) : (0 < c)%Q -> (a * c <= b * c)%Q -> (a <= b)%Q.
Proof. intros Hc H. apply (Qmult_le_r a b c Hc). exact H. Qed.

Lemma scaled_lt_reg (a b c : Q) : (0 < c)%Q -> (a * c < b * c)%Q -> (a < b)%Q.
Proof. intros Hc H. apply (Qmult_lt_r a b c Hc). exact H. Qed.

(** [ilog2] is the integer part of the binary logarithm. *)
Lemma ilog2_spec (x : Q) :
  (0 < x)%Q -> (2 ^ ilog2 x <= x)%Q /\ (x < 2 ^ (ilog2 x + 1))%Q.
Proof.
  intros Hx. destruct x as [p q].
  assert (Hp : 0 < p) by (unfold Qlt in Hx; simpl in Hx; lia).
  unfold ilog2. simpl Qnum. simpl Qden.
  set (a := Z.log2 p). set (b := Z.log2 (Zpos q)). set (k := a - b).
  destruct (Z.log2_spec p Hp) as [Ha1 Ha2]. fold a in Ha1, Ha2.
  destruct (Z.log2_spec (Zpos q) ltac:(lia)) as [Hb1 Hb2]. fold b in Hb1, Hb2.
  assert (Ha0 : 0 <= a) by apply Z.log2_nonneg.
  assert (Hb0 : 0 <= b) by apply Z.log2_nonneg.
  assert (HP1 : (2 ^ a <= inject_Z p)%Q).
  { rewrite <- (pow2_inject a Ha0). rewrite <- Zle_Qle. exact Ha1. }
  assert (HP2 : (inject_Z p < 2 ^ (a + 1))%Q).
  { rewrite <- (pow2_inject (a + 1)) by lia. rewrite <- Zlt_Qlt.
    replace (a + 1) with (Z.succ a) by lia. exact Ha2. }
  assert (HQ1 : (2 ^ b <= inject_Z (Zpos q))%Q).
  { rewrite <- (pow2_inject b Hb0). rewrite <- Zle_Qle. exact Hb1. }
  assert (HQ2 : (inject_Z (Zpos q) < 2 ^ (b + 1))%Q).
  { rewrite <- (pow2_inject (b + 1)) by lia. rewrite <- Zlt_Qlt.
    replace (b + 1) with (Z.succ b) by lia. exact Hb2. }
  assert (Hq : (0 < inject_Z (Zpos q))%Q) by reflexivity.
  assert (Hxq : ((p # q) * inject_Z (Zpos q) == inject_Z p)%Q).
  { rewrite (Qmake_Qdiv p q). field. intros H. rewrite H in Hq. discriminate Hq. }
  destruct (Qle_bool (2 ^ k) (p # q)) eqn:E.
  - split; [apply Qle_bool_iff; exact E|].
    apply (scaled_lt_reg _ _ (inject_Z (Zpos q)) Hq). rewrite Hxq.
    apply (Qlt_le_trans _ (2 ^ (a + 1))); [exact HP2|].
    assert (E1 : (2 ^ (a + 1) == 2 ^ (k + 1) * 2 ^ b)%Q).
    { rewrite <- pow2_plus. unfold k.
      replace (a - b + 1 + b) with (a + 1) by lia. reflexivity. }
    rewrite E1. apply Qmult_le_l; [apply pow2_pos | exact HQ1].
  - assert (Hlt : (p # q < 2 ^ k)%Q).
    { apply Qnot_le_lt. intros H. apply Qle_bool_iff in H. congruence. }
    split.
    + apply (scaled_le_reg _ _ (inject_Z (Zpos q)) Hq). rewrite Hxq.
      apply (Qle_trans _ (2 ^ a)); [|exact HP1].
      assert (E2 : (2 ^ a == 2 ^ (k - 1) * 2 ^ (b + 1))%Q).
      { rewrite <- pow2_plus. unfold k.
        replace (a - b - 1 + (b + 1)) with a by lia. reflexivity. }
      rewrite E2. apply Qmult_le_l; [apply pow2_pos | apply Qlt_le_weak; exact HQ2].
    + replace (k - 1 + 1) with k by lia. exact Hlt.
Qed.

(** Rounding to the nearest integer never crosses an integer. *)
Lemma round_half_even_cases (y : Q) :
  round_half_even y = Qfloor y \/
  (round_half_even y = Qfloor y + 1 /\ (inject_Z (Qfloor y) < y)%Q).
Proof.
  unfold round_half_even.
  destruct (Qcompare_spec (y - inject_Z (Qfloor y)) (1 # 2)) as [H|H|H].
  - destruct (Z.even (Qfloor y)); [left; reflexivity|].
    right. split; [reflexivity | lra].
  - left. reflexivity.
  - right. split; [reflexivity | lra].
Qed.

Lemma round_half_even_ge (n : Z) (y : Q) :
  (inject_Z n <= y)%Q -> n <= round_half_even y.
Proof.
  intros H.
  assert (Hf : n <= Qfloor y).
  { rewrite <- (Qfloor_Z n). apply Qfloor_resp_le. exact H. }
  destruct (round_half_even_cases y) as [E|[E _]]; lia.
Qed.

Lemma round_half_even_le (n : Z) (y : Q) :
  (y <= inject_Z n)%Q -> round_half_even y <= n.
Proof.
  intros H.
  assert (Hf : Qfloor y <= n).
  { rewrite <- (Qfloor_Z n). apply Qfloor_resp_le. exact H. }
  destruct (round_half_even_cases y) as [E|[E Hlt]]; [lia|].
  assert (Hn : (inject_Z (Qfloor y) < inject_Z n)%Q) by lra.
  rewrite <- Zlt_Qlt in Hn. lia.
Qed.

Lemma binary64_pos (x : Q) :
  (0 < x)%Q ->
  binary64 x = (inject_Z (round_half_even (x / 2 ^ (ilog2 x - 52))) * 2 ^ (ilog2 x - 52))%Q.
Proof.
  intros Hx. unfold binary64. destruct x as [[|p|p] q]; [| reflexivity |];
    unfold Qlt in Hx; simpl in Hx; lia.
Qed.

(** The scaled significand of a positive number lies in [2^52, 2^53). *)
Lemma significand_range (x : Q) :
  (0 < x)%Q ->
  (2 ^ 52 <= x / 2 ^ (ilog2 x - 52))%Q /\ (x / 2 ^ (ilog2 x - 52) < 2 ^ 53)%Q.
Proof.
  intros Hx. destruct (ilog2_spec x Hx) as [H1 H2].
  set (e := ilog2 x - 52). pose proof (pow2_pos e) as He.
  assert (Hy : (x / 2 ^ e * 2 ^ e == x)%Q) by (field; lra).
  split.
  - apply (scaled_le_reg _ _ (2 ^ e) He). rewrite Hy, <- pow2_plus.
    replace (52 + e) with (ilog2 x) by (unfold e; lia). exact H1.
  - apply (scaled_lt_reg _ _ (2 ^ e) He). rewrite Hy, <- pow2_plus.
    replace (53 + e) with (ilog2 x + 1) by (unfold e; lia). exact H2.
Qed.

(** A positive number with significand [m] and exponent [k] at least [e]
    is a whole multiple of [2^e]. *)
Lemma multiple_of_pow2 (m k e : Z) :
  e <= k -> (inject_Z m * 2 ^ k == inject_Z (m * 2 ^ (k - e)) * 2 ^ e)%Q.
Proof.
  intros H. rewrite inject_Z_mult, (pow2_inject (k - e)) by lia.
  rewrite <- Qmult_assoc, <- pow2_plus.
  replace (k - e + e) with k by lia. reflexivity.
Qed.

(** Rounding to binary64 is monotone against representable bounds. *)
Lemma binary64_ge (a x : Q) :
  (0 < a)%Q -> representable a -> (a <= x)%Q -> (a <= binary64 x)%Q.
Proof.
  intros Ha [m [k [Hm Hak]]] Hax.
  assert (Hx : (0 < x)%Q) by lra.
  rewrite (binary64_pos x Hx).
  destruct (significand_range x Hx) as [Hlo Hhi].
  set (e := ilog2 x - 52) in *. set (y := (x / 2 ^ e)%Q) in *.
  pose proof (pow2_pos e) as He. pose proof (pow2_pos k) as Hk.
  assert (Hy : (y * 2 ^ e == x)%Q) by (unfold y; field; lra).
  assert (Hm0 : 0 < m).
  { destruct (Z.lt_trichotomy m 0) as [H|[H|H]]; [| |exact H]; exfalso.
    - assert (inject_Z m < 0)%Q by (change 0%Q with (inject_Z 0); rewrite <- Zlt_Qlt; lia).
      nra.
    - subst m. rewrite Hak in Ha. change (inject_Z 0) with 0%Q in Ha. lra. }
  destruct (Z.le_gt_cases e k) as [Hek|Hek].
  - rewrite Hak, (multiple_of_pow2 m k e Hek).
    apply Qmult_le_compat_r; [|lra].
    rewrite <- Zle_Qle. apply round_half_even_ge.
    apply (scaled_le_reg _ _ (2 ^ e) He).
    rewrite Hy, <- (multiple_of_pow2 m k e Hek), <- Hak. exact Hax.
  - apply (Qle_trans _ (2 ^ 52 * 2 ^ e)).
    + rewrite Hak. apply (Qle_trans _ (2 ^ 53 * 2 ^ k)).
      * apply Qmult_le_compat_r; [|lra].
        rewrite <- (pow2_inject 53) by lia. rewrite <- Zle_Qle. lia.
      * rewrite <- !pow2_plus. apply pow2_le. lia.
    + apply Qmult_le_compat_r; [|lra].
      rewrite <- (pow2_inject 52) by lia. rewrite <- Zle_Qle.
      apply round_half_even_ge. rewrite (pow2_inject 52) by lia. exact Hlo.
Qed.

Lemma binary64_le (x b : Q) :
  (0 < x)%Q -> representable b -> (x <= b)%Q -> (binary64 x <= b)%Q.
Proof.
  intros Hx [m [k [Hm Hbk]]] Hxb.
  rewrite (binary64_pos x Hx).
  destruct (significand_range x Hx) as [Hlo Hhi].
  set (e := ilog2 x - 52) in *. set (y := (x / 2 ^ e)%Q) in *.
  pose proof (pow2_pos e) as He. pose proof (pow2_pos k) as Hk.
  assert (Hy : (y * 2 ^ e == x)%Q) by (unfold y; field; lra).
  destruct (Z.le_gt_cases e k) as [Hek|Hek].
  - rewrite Hbk, (multiple_of_pow2 m k e Hek).
    apply Qmult_le_compat_r; [|lra].
    rewrite <- Zle_Qle. apply round_half_even_le.
    apply (scaled_le_reg _ _ (2 ^ e) He).
    rewrite Hy, <- (multiple_of_pow2 m k e Hek), <- Hbk. exact Hxb.
  - exfalso.
    assert (H1 : (b < 2 ^ 53 * 2 ^ k)%Q).
    { rewrite Hbk. apply Qmult_lt_compat_r; [exact Hk|].
      rewrite <- (pow2_inject 53) by lia. rewrite <- Zlt_Qlt. lia. }
    assert (H2 : (2 ^ 53 * 2 ^ k <= 2 ^ 52 * 2 ^ e)%Q).
    { rewrite <- !pow2_plus. apply pow2_le. lia. }
    assert (H3 : (2 ^ 52 * 2 ^ e <= x)%Q).
    { rewrite <- Hy. apply Qmult_le_compat_r; [exact Hlo | lra]. }
    lra.
Qed.

Lemma representable_half_multiple (n : Z) :
  Z.abs n < 2 ^ 53 -> representable (inject_Z n * (1 # 2)).
Proof.
  intros Hn. exists n, (-1). split; [exact Hn|].
  change (2 ^ (-1))%Q with (/ 2)%Q. field.
Qed.

(** The jitter factor lies in [1/2, 3/2] whenever [Math.random] is in
    [0, 1): the sum is below 3/2, its rounding can reach it. *)
Lemma jitter_range (r : Q) :
  (0 <= r)%Q -> (r < 1)%Q ->
  ((1 # 2) <= jitter_of r)%Q /\ (jitter_of r <= (3 # 2))%Q.
Proof.
  unfold jitter_of. intros H0 H1. split.
  - apply binary64_ge; [reflexivity | | lra].
    exists 1, (-1). split; [reflexivity | reflexivity].
  - apply binary64_le; [lra | | lra].
    exists 3, (-1). split; [reflexivity | reflexivity].
Qed.

(** A rounded delay stays within [0.5, 1.5] times the exponential value,
    for an even exponential value below 2^51. *)
Lemma delay_of_bounds B Mx attempt (r : Q) :
  0 <= backoff B Mx attempt < 2 ^ 51 ->
  Z.even (backoff B Mx attempt) = true ->
  (0 <= r)%Q -> (r < 1)%Q ->
  backoff B Mx attempt <= 2 * delay_of B Mx attempt r <= 3 * backoff B Mx attempt.
Proof.
  intros Hb Hev Hr0 Hr1. unfold delay_of.
  set (b := backoff B Mx attempt) in *.
  destruct (jitter_range r Hr0 Hr1) as [Hj0 Hj1].
  set (x := (inject_Z b * jitter_of r)%Q).
  destruct (Z.eq_dec b 0) as [Hz|Hz].
  - assert (Hx : binary64 x = 0%Q).
    { unfold x, binary64. rewrite Hz. destruct (jitter_of r) as [jn jd]. reflexivity. }
    rewrite Hx, Hz. vm_compute. split; discriminate.
  - assert (Hbq : (1 <= inject_Z b)%Q).
    { change 1%Q with (inject_Z 1). rewrite <- Zle_Qle. lia. }
    assert (Hx0 : (inject_Z b * (1 # 2) <= x)%Q) by (unfold x; nra).
    assert (Hx1 : (x <= inject_Z (3 * b) * (1 # 2))%Q).
    { rewrite inject_Z_mult. change (inject_Z 3) with 3%Q. unfold x. nra. }
    assert (Hlo : (inject_Z b * (1 # 2) <= binary64 x)%Q).
    { apply binary64_ge; [lra | apply representable_half_multiple; lia | exact Hx0]. }
    assert (Hhi : (binary64 x <= inject_Z (3 * b) * (1 # 2))%Q).
    { apply binary64_le; [lra | apply representable_half_multiple; lia | exact Hx1]. }
    destruct (Math_round_near (binary64 x)) as [Hn0 Hn1].
    set (d := Math_round (binary64 x)) in *.
    rewrite inject_Z_mult in Hhi. change (inject_Z 3) with 3%Q in Hhi.
    split.
    + assert (H : (inject_Z b < inject_Z (2 * d + 1))%Q).
      { rewrite inject_Z_plus, inject_Z_mult.
        change (inject_Z 1) with 1%Q. change (inject_Z 2) with 2%Q. lra. }
      rewrite <- Zlt_Qlt in H. lia.
    + assert (H : (inject_Z (2 * d) <= inject_Z (3 * b + 1))%Q).
      { rewrite inject_Z_plus, !inject_Z_mult.
        change (inject_Z 1) with 1%Q. change (inject_Z 2) with 2%Q.
        change (inject_Z 3) with 3%Q. lra. }
      rewrite <- Zle_Qle in H.
      (* 3b is even, so 2d cannot be 3b + 1 *)
      destruct (Z.even_spec b) as [Hspec _]. destruct (Hspec Hev) as [h Hh]. lia.
Qed.

Lemma backoff_default_even (attempt : nat) :
  0 <= backoff 500 2000 attempt < 2 ^ 51 /\ Z.even (backoff 500 2000 attempt) = true.
Proof.
  unfold backoff.
  assert (Hp : 0 < 2 ^ Z.of_nat attempt) by (apply Z.pow_pos_nonneg; lia).
  destruct (Z.min_spec 2000 (500 * 2 ^ Z.of_nat attempt)) as [[_ E]|[_ E]]; rewrite E.
  - split; [split; [lia | reflexivity] | reflexivity].
  - assert (500 * 2 ^ Z.of_nat attempt <= 2000) by lia.
    split; [split; [lia|] |].
    + apply (Z.le_lt_trans _ 2000); [lia | reflexivity].
    + rewrite Z.even_mul. reflexivity.
Qed.


Lemma expected_delays_length env B Mx k attempt f :
  List.length (expected_delays env B Mx k attempt f) = f.
Proof.
  revert k attempt; induction f as [|f IH]; intros; simpl; [reflexivity|].
  rewrite IH. reflexivity.
Qed.


Lemma backoff_nonneg B Mx attempt : 0 <= B -> 0 <= Mx -> 0 <= backoff B Mx attempt.
Proof.
  intros HB HM. unfold backoff.
  assert (0 <= 2 ^ Z.of_nat attempt) by (apply Z.pow_nonneg; lia).
  apply Z.min_glb; [lia | nia].
Qed.








Lemma discovery_loop_all_fail env B Mx (left : nat) :
  forall (attempt : nat) (w : World) (elast : JsError),
    (forall i, (i < left)%nat ->
       exists e, discovery_outcome env (calls is_discovery (trace w) + i) = inl e) ->
    discovery_outcome env (calls is_discovery (trace w) + left) = inl elast ->
    exists w0,
      discovery_loop env B Mx left attempt w
        = (Throw (new_Error msg_proxy), after_last_failure env elast w0) /\
      sleeps (trace w0) =
        sleeps (trace w)
        ++ expected_delays env B Mx (calls is_random (trace w)) attempt left /\
      calls is_discovery (trace w0) = (calls is_discovery (trace w) + left)%nat /\
      cached w0 = cached w /\ secret w0 = secret w.
Proof.
  induction left as [|left IH]; intros attempt w elast Hfail Hlast.
  - rewrite Nat.add_0_r in Hlast. exists w.
    rewrite (discovery_loop_last env B Mx attempt w elast Hlast). simpl.
    rewrite app_nil_r. repeat split; lia.
  - destruct (Hfail 0%nat ltac:(lia)) as [e He]. rewrite Nat.add_0_r in He.
    rewrite (discovery_loop_retry env B Mx left attempt w e He).
    set (w1 := after_retry env B Mx attempt w).
    assert (Hd : calls is_discovery (trace w1) = S (calls is_discovery (trace w))).
    { unfold w1. rewrite calls_after_retry. simpl. lia. }
    assert (Hr : calls is_random (trace w1) = S (calls is_random (trace w))).
    { unfold w1. rewrite calls_after_retry. simpl. lia. }
    destruct (IH (S attempt) w1 elast) as [w0 [Hrun [Hsl [Hn [Hc Hs]]]]].
    + intros i Hi. rewrite Hd.
      destruct (Hfail (S i) ltac:(lia)) as [e' He'].
      exists e'. rewrite <- He'. f_equal. lia.
    + rewrite Hd. rewrite <- Hlast. f_equal. lia.
    + exists w0. split; [exact Hrun|]. split; [|split; [|split]].
      * rewrite Hsl, Hr. unfold w1, after_retry. rewrite !sleeps_push. simpl.
        rewrite !app_nil_r, <- app_assoc. reflexivity.
      * rewrite Hn, Hd. lia.
      * rewrite Hc. reflexivity.
      * rewrite Hs. reflexivity.
Qed.

(** C8, as amended. When every one of the [retries + 1] attempts fails, the
    retrier makes exactly [retries + 1] discovery calls and [retries]
    sleeps, writes the last attempt's error to the console as its final
    act, and throws a fixed [Error] carrying the proxy-settings message,
    whatever the last error was. *)
Theorem discoveryWithRetry_exhausted env (retries : nat) (B Mx : Z)
  (w : World) (elast : JsError) :
  (forall i, (i < retries)%nat ->
     exists e, discovery_outcome env (calls is_discovery (trace w) + i) = inl e) ->
  discovery_outcome env (calls is_discovery (trace w) + retries) = inl elast ->
  exists (w' : World) (earlier : Trace) (t1 t2 : Z),
    discoveryWithRetry_with env retries B Mx w = (Throw (new_Error msg_proxy), w') /\
    trace w' = earlier ++ [(t1, EvDiscovery);
                           (t2, EvConsoleError "OCA: OIDC discovery failed:" elast)] /\
    calls is_discovery (trace w') = (calls is_discovery (trace w) + retries + 1)%nat /\
    List.length (sleeps (trace w')) = (List.length (sleeps (trace w)) + retries)%nat.
Proof.
  intros Hfail Hlast.
  destruct (@discovery_loop_all_fail env B Mx retries 0%nat w elast Hfail Hlast)
    as [w0 [Hrun [Hsl [Hn _]]]].
  exists (after_last_failure env elast w0), (trace w0),
         (clock_ms w0 + lag env w0), (clock_ms w0 + lag env w0 + 0).
  split; [exact Hrun|]. split; [|split].
  - unfold after_last_failure, push; simpl. rewrite <- app_assoc. reflexivity.
  - unfold after_last_failure. rewrite !calls_push, Hn. simpl. lia.
  - unfold after_last_failure. rewrite !sleeps_push, Hsl. simpl.
    rewrite !app_nil_r, List.length_app, expected_delays_length. reflexivity.
Qed.

Lemma discoveryWithRetry_exhausted_witness :
  exists (w' : World),
    discoveryWithRetry (env_failing_first 4) (world_at None None 0)
      = (Throw (new_Error msg_proxy), w') /\
    calls is_discovery (trace w') = 4%nat /\
    List.length (sleeps (trace w')) = 3%nat.
Proof.
  destruct (@discoveryWithRetry_exhausted (env_failing_first 4) 3 500 2000
              (world_at None None 0) sample_error)
    as [w' [earlier [t1 [t2 [Hrun [_ [Hn Hs]]]]]]].
  - intros i Hi. exists sample_error.
    destruct i as [|[|[|i]]]; [reflexivity | reflexivity | reflexivity | lia].
  - reflexivity.
  - exists w'. split; [exact Hrun|]. split; [exact Hn | exact Hs].
Defined.

(** C8, the claim as worded fails: four failures, the last with
    [sample_error], and the caller receives another error. *)
Lemma discoveryWithRetry_surfaces_substitute :
  (forall i, (i <= 3)%nat ->
     discovery_outcome (env_failing_first 4) i = inl sample_error) /\
  fst (discoveryWithRetry (env_failing_first 4) (world_at None None 0))
    <> Throw sample_error.
Proof.
  split.
  - intros i Hi.
    destruct i as [|[|[|[|i]]]]; try reflexivity; lia.
  - vm_compute. intros H. discriminate H.
Qed.

(* ================================================================== *)
(** * Storage, refresh and [getValid] *)
(* ================================================================== *)

Lemma refreshTokenGrant_run env c rt w :
  refreshTokenGrant env c rt w =
  (match refresh_outcome env (calls is_refresh (trace w)) c rt with
   | inl e => Throw e
   | inr res => Return res
   end, on_refresh_response env rt w).
Proof.
  unfold refreshTokenGrant, bind, get_world, emit, of_sum, on_refresh_response.
  destruct (refresh_outcome env _ c rt); reflexivity.
Qed.

Lemma save_run env t w :
  save env t w =
  match secrets_store_error env (calls is_secrets_store (trace w)) with
  | Some e => (Throw e, push (lag env w) (EvSecretsStore t) w)
  | None => (Return tt, with_secret (Some (JsonOf t))
                          (push (lag env w) (EvSecretsStore t) w))
  end.
Proof.
  unfold save, bind, get_world, emit.
  destruct (secrets_store_error env _); reflexivity.
Qed.

(** [load] never throws: a failing read and unparsable text both give null. *)
Lemma load_run env w :
  load env w =
  (Return match secrets_get_error env (calls is_secrets_get (trace w)) with
          | Some _ => None
          | None => match secret w with
                    | Some (JsonOf t) => Some t
                    | _ => None
                    end
          end,
   push (lag env w) EvSecretsGet w).
Proof.
  cbv beta iota delta [load try_catch bind secrets_get get_world emit].
  destruct (secrets_get_error env _); [reflexivity|].
  destruct (secret w) as [[t| | |]|]; reflexivity.
Qed.

Lemma discovery_loop_settles env B Mx left :
  forall attempt, settles (discovery_loop env B Mx left attempt).
Proof.
  induction left as [|left IH]; intros attempt w.
  - simpl. unfold try_catch. rewrite discovery_run.
    destruct (discovery_outcome env _); simpl; discriminate.
  - destruct (discovery_outcome env (calls is_discovery (trace w))) as [e|c] eqn:H.
    + rewrite (discovery_loop_retry env B Mx left attempt w e H). apply IH.
    + rewrite (discovery_loop_success env B Mx (S left) attempt w c H).
      simpl; discriminate.
Qed.

(** [tryRefresh] classifies every failure of its body as "no token". *)
Lemma tryRefresh_cases env token w :
  (exists next c w1 res,
     discoveryWithRetry env w = (Return c, w1) /\
     refresh_outcome env (calls is_refresh (trace w1)) c (refresh_token token) = inr res /\
     secrets_store_error env
       (calls is_secrets_store
          (trace (on_refresh_response env (refresh_token token) w1))) = None /\
     next = refreshed_record
              (now_sec (on_refresh_response env (refresh_token token) w1)) res token /\
     tryRefresh env token w =
       (Return (Some next),
        after_persist env next (on_refresh_response env (refresh_token token) w1)))
  \/ (exists w', tryRefresh env token w = (Return None, w')).
Proof.
  unfold tryRefresh. rewrite try_catch_run, bind_run.
  destruct (discoveryWithRetry env w) as [[c|e|] w1] eqn:Hd.
  - rewrite bind_run, refreshTokenGrant_run.
    destruct (refresh_outcome env _ c (refresh_token token)) as [e|res] eqn:Hr.
    + right. rewrite bind_run, console_error_run. eexists. reflexivity.
    + rewrite bind_run, get_world_run. cbv beta iota zeta.
      rewrite bind_run, save_run.
      destruct (secrets_store_error env _) as [e|] eqn:Hs.
      * right. rewrite bind_run, console_error_run. eexists. reflexivity.
      * left. exists (refreshed_record
                        (now_sec (on_refresh_response env (refresh_token token) w1))
                        res token), c, w1, res.
        repeat split; try assumption; reflexivity.
  - right. rewrite bind_run, console_error_run. eexists. reflexivity.
  - exfalso. apply (discovery_loop_settles env 500 2000 3%nat 0%nat w).
    unfold discoveryWithRetry, discoveryWithRetry_with in Hd. rewrite Hd. reflexivity.
Qed.

Lemma tryRefresh_returns env token w :
  exists r w', tryRefresh env token w = (Return r, w').
Proof.
  destruct (tryRefresh_cases env token w) as [[next [c [w1 [res [_ [_ [_ [_ H]]]]]]]]|[w' H]];
    rewrite H; eauto.
Qed.

(** The result of [getValid] once the token to examine is known. *)
Lemma getValid_cached env w t :
  cached w = Some t ->
  getValid env w =
  if isValid_at (now_sec w) t then (Return (Some t), w)
  else if truthy_str (refresh_token t) then
    match tryRefresh env t w with
    | (Return (Some r), w') => (Return (Some r), w')
    | (Return None, w') => (Return None, w')
    | (Throw e, w') => (Throw e, w')
    | (Hang, w') => (Hang, w')
    end
  else (Return None, w).
Proof.
  intros Hc. unfold getValid. rewrite bind_run, get_world_run.
  cbv beta iota. rewrite Hc. rewrite bind_run. cbv beta iota delta [ret].
  unfold isValid. rewrite bind_run, bind_run, get_world_run.
  cbv beta iota delta [ret].
  destruct (isValid_at (now_sec w) t); [reflexivity|].
  destruct (truthy_str (refresh_token t)); [|reflexivity].
  rewrite bind_run. destruct (tryRefresh env t w) as [[[r|]|e|] w']; reflexivity.
Qed.

Lemma getValid_examined env w :
  getValid env w =
  match examined env w with
  | (Some t, w0) => getValid env w0
  | (None, w0) => (Return None, w0)
  end.
Proof.
  unfold examined. destruct (cached w) as [t|] eqn:Hc; [reflexivity|].
  rewrite load_run.
  set (loaded := match secrets_get_error env _ with Some _ => None | None => _ end).
  unfold getValid at 1. rewrite bind_run, get_world_run. cbv beta iota.
  rewrite Hc, bind_run, bind_run, load_run. fold loaded.
  destruct loaded as [t|].
  - rewrite bind_run, set_cached_run. cbv beta iota delta [ret].
    set (w0 := with_cached (Some t) (push (lag env w) EvSecretsGet w)).
    assert (Hc0 : cached w0 = Some t) by reflexivity.
    rewrite (getValid_cached env w0 t Hc0).
    unfold isValid. rewrite bind_run, bind_run, get_world_run.
    cbv beta iota delta [ret].
    destruct (isValid_at (now_sec w0) t); [reflexivity|].
    destruct (truthy_str (refresh_token t)); [|reflexivity].
    rewrite bind_run. destruct (tryRefresh env t w0) as [[[r|]|e|] w']; reflexivity.
  - reflexivity.
Qed.

Lemma examined_cached env w t w0 :
  examined env w = (Some t, w0) -> cached w0 = Some t.
Proof.
  unfold examined. destruct (cached w) as [t'|] eqn:Hc.
  - intros H; inversion H; subst; exact Hc.
  - rewrite load_run.
    destruct (match secrets_get_error env _ with Some _ => None | None => _ end);
      intros H; inversion H; subst; reflexivity.
Qed.

Lemma getValid_returns env w :
  exists r w', getValid env w = (Return r, w').
Proof.
  rewrite getValid_examined.
  destruct (examined env w) as [[t|] w0] eqn:Hex; [|eauto].
  rewrite (getValid_cached env w0 t (examined_cached env w t w0 Hex)).
  destruct (isValid_at (now_sec w0) t); [eauto|].
  destruct (truthy_str (refresh_token t)); [|eauto].
  destruct (tryRefresh_returns env t w0) as [r [w' H]]. rewrite H.
  destruct r; eauto.
Qed.

Lemma tryRefresh_failure env t w :
  refresh_fails env t w -> fst (tryRefresh env t w) = Return None.
Proof.
  intros Hf.
  destruct (tryRefresh_cases env t w)
    as [[next [c [w1 [res [Hd [Hr [Hs [_ _]]]]]]]]|[w' H]].
  - exfalso. unfold refresh_fails in Hf. rewrite Hd, Hr in Hf. exact (Hf Hs).
  - rewrite H. reflexivity.
Qed.

(** C2. [getValid] always returns and never throws, from every world and
    under every behaviour of the storage, of discovery and of the refresh
    grant. In particular an unreadable durable copy gives null, and so
    does an expired token whose refresh fails in discovery, in the grant
    or in the write-back. *)
Theorem getValid_never_throws env (w : World) :
  (exists r w', getValid env w = (Return r, w')) /\
  (cached w = None -> unreadable env w ->
   getValid env w = (Return None, push (lag env w) EvSecretsGet w)) /\
  (forall t w0,
     examined env w = (Some t, w0) ->
     isValid_at (now_sec w0) t = false ->
     refresh_fails env t w0 ->
     fst (getValid env w) = Return None).
Proof.
  split; [apply getValid_returns|]. split.
  - intros Hc Hu. rewrite getValid_examined. unfold examined.
    rewrite Hc, load_run.
    destruct Hu as [Hu|Hu].
    + destruct (secrets_get_error env _); [reflexivity | contradiction].
    + rewrite Hu. destruct (secrets_get_error env _); reflexivity.
  - intros t w0 Hex Hv Hf.
    rewrite getValid_examined, Hex.
    rewrite (getValid_cached env w0 t (examined_cached env w t w0 Hex)), Hv.
    destruct (truthy_str (refresh_token t)); [|reflexivity].
    pose proof (tryRefresh_failure env t w0 Hf) as H.
    destruct (tryRefresh env t w0) as [[[r|]|e|] w']; simpl in H;
      try discriminate H; reflexivity.
Qed.

(** [isValid] accepts a token that expires more than the renewal buffer
    after a non-negative current time. *)
Lemma isValid_at_fresh (now : Z) (T : TokenRecord) (e : Z) :
  expires_at T = Some e ->
  0 <= now ->
  now + 180 < e ->
  isValid_at now T = true.
Proof.
  intros He Hnow Hfresh.
  unfold isValid_at, RENEW_TOKEN_BUFFER_SEC. rewrite He.
  apply andb_true_intro. split.
  - apply negb_true_iff, Z.eqb_neq. lia.
  - apply Z.ltb_lt. lia.
Qed.

Lemma now_sec_nonneg (w : World) : 0 <= clock_ms w -> 0 <= now_sec w.
Proof. intros H. unfold now_sec. apply Z.div_pos; lia. Qed.

(** C3. A token held in the in-process cache whose [expires_at] is more
    than 180 seconds after the current time is returned as it is, and the
    world is left untouched: no storage access, no discovery, no refresh
    grant. The clock reads a non-negative number of milliseconds. *)
Theorem getValid_returns_fresh_cached env (w : World) (T : TokenRecord) (e : Z) :
  cached w = Some T ->
  expires_at T = Some e ->
  0 <= clock_ms w ->
  now_sec w + 180 < e ->
  getValid env w = (Return (Some T), w).
Proof.
  intros Hc He Hclock Hfresh.
  rewrite (getValid_cached env w T Hc).
  rewrite (isValid_at_fresh (now_sec w) T e He (now_sec_nonneg w Hclock) Hfresh).
  reflexivity.
Qed.

Lemma getValid_returns_fresh_cached_witness :
  getValid (env_failing_first 0)
    (world_at (Some (mkToken (Some "at-1"%string) (Some "rt-1"%string) None None None
                       (Some 3600) (Some 2000))) None 1000000)
  = (Return (Some (mkToken (Some "at-1"%string) (Some "rt-1"%string) None None None
                     (Some 3600) (Some 2000))),
     world_at (Some (mkToken (Some "at-1"%string) (Some "rt-1"%string) None None None
                       (Some 3600) (Some 2000))) None 1000000).
Proof.
  apply (getValid_returns_fresh_cached _ _ _ 2000).
  - reflexivity.
  - reflexivity.
  - simpl. lia.
  - vm_compute. reflexivity.
Defined.

Lemma getValid_never_throws_witness :
  getValid (env_failing_first 0) (world_at None (Some NotJson) 0)
    = (Return None,
       push (lag (env_failing_first 0) (world_at None (Some NotJson) 0))
         EvSecretsGet (world_at None (Some NotJson) 0)) /\
  fst (getValid (env_failing_first 4)
         (world_at (Some (mkToken (Some "at-1"%string) (Some "rt-1"%string) None None
                            None (Some 3600) (Some 900))) None 1000000))
    = Return None.
Proof.
  split.
  - apply (proj1 (proj2 (getValid_never_throws (env_failing_first 0)
                           (world_at None (Some NotJson) 0)))).
    + reflexivity.
    + right. reflexivity.
  - apply (proj2 (proj2 (getValid_never_throws (env_failing_first 4)
                           (world_at (Some (mkToken (Some "at-1"%string)
                                              (Some "rt-1"%string) None None None
                                              (Some 3600) (Some 900))) None 1000000)))
             (mkToken (Some "at-1"%string) (Some "rt-1"%string) None None None
                (Some 3600) (Some 900))
             (world_at (Some (mkToken (Some "at-1"%string) (Some "rt-1"%string) None
                                None None (Some 3600) (Some 900))) None 1000000)).
    + reflexivity.
    + reflexivity.
    + vm_compute. exact I.
Defined.

(* ================================================================== *)
(** * The listener inside [attemptOnPort], and the port loop *)
(* ================================================================== *)

Lemma emitted_nil env w : emitted env [] w = w.
Proof. reflexivity. Qed.

Lemma emitted_cons env ev evs w :
  emitted env (ev :: evs) w = emitted env evs (push (lag env w) ev w).
Proof. reflexivity. Qed.

Lemma emit_all_run env evs : forall w, emit_all env evs w = (Return tt, emitted env evs w).
Proof.
  induction evs as [|ev evs IH]; intros w; [reflexivity|].
  rewrite emitted_cons, <- IH. reflexivity.
Qed.

Lemma listens_single t ev : listens [(t, ev)] = listens_ev [ev].
Proof. destruct ev; reflexivity. Qed.

Lemma closes_single t ev : closes [(t, ev)] = closes_ev [ev].
Proof. destruct ev; reflexivity. Qed.

Lemma listens_emitted env evs :
  forall w, listens (trace (emitted env evs w)) = listens (trace w) ++ listens_ev evs.
Proof.
  induction evs as [|ev evs IH]; intros w.
  - rewrite emitted_nil. unfold listens_ev. simpl. rewrite app_nil_r. reflexivity.
  - rewrite emitted_cons, IH. unfold push; simpl.
    rewrite listens_app, listens_single, <- app_assoc. f_equal.
    unfold listens_ev. rewrite <- listens_app. reflexivity.
Qed.

Lemma closes_emitted env evs :
  forall w, closes (trace (emitted env evs w)) = closes (trace w) ++ closes_ev evs.
Proof.
  induction evs as [|ev evs IH]; intros w.
  - rewrite emitted_nil. unfold closes_ev. simpl. rewrite app_nil_r. reflexivity.
  - rewrite emitted_cons, IH. unfold push; simpl.
    rewrite closes_app, closes_single, <- app_assoc. f_equal.
    unfold closes_ev. rewrite <- closes_app. reflexivity.
Qed.

Lemma calls_emitted k env evs :
  forall w, calls k (trace (emitted env evs w)) =
            (calls k (trace w) + List.length (List.filter k evs))%nat.
Proof.
  induction evs as [|ev evs IH]; intros w.
  - rewrite emitted_nil. simpl. lia.
  - rewrite emitted_cons, IH, calls_push. simpl. destruct (k ev); simpl; lia.
Qed.

Lemma cached_emitted env evs : forall w, cached (emitted env evs w) = cached w.
Proof.
  induction evs as [|ev evs IH]; intros w; [reflexivity|].
  rewrite emitted_cons, IH. reflexivity.
Qed.

Lemma secret_emitted env evs : forall w, secret (emitted env evs w) = secret w.
Proof.
  induction evs as [|ev evs IH]; intros w; [reflexivity|].
  rewrite emitted_cons, IH. reflexivity.
Qed.

Lemma attemptOnPort_run env p w :
  attemptOnPort env p w =
  let l := CallbackListener.run_until_settled (CallbackListener.create p)
             (listener_inputs env (calls is_listen (trace w)) p) in
  (match CallbackListener.attempt l with
   | CallbackListener.Resolved t => Return t
   | CallbackListener.Rejected e => Throw e
   | CallbackListener.Unsettled => Hang
   end, emitted env (CallbackListener.events l) w).
Proof.
  unfold attemptOnPort. rewrite bind_run, get_world_run. cbv beta iota zeta.
  rewrite bind_run, emit_all_run.
  destruct (CallbackListener.attempt _); reflexivity.
Qed.

Lemma run_until_settled_done l ins :
  CallbackListener.attempt l <> CallbackListener.Unsettled ->
  CallbackListener.run_until_settled l ins = l.
Proof.
  intros H. destruct ins as [|i ins]; [reflexivity|]. simpl.
  destruct (CallbackListener.attempt l); [contradiction | reflexivity | reflexivity].
Qed.

(** A bind that fails with EADDRINUSE: the handle is closed and the
    attempt rejects with the "Port in use" error. *)
Lemma attemptOnPort_in_use env p w e :
  bind_fails env (calls is_listen (trace w)) p e ->
  code_is e "EADDRINUSE" = true ->
  attemptOnPort env p w =
  (Throw CallbackListener.port_in_use, emitted env [EvListen p; EvServerClose p] w).
Proof.
  intros [later Hin] Hcode. rewrite attemptOnPort_run, Hin.
  cbv zeta. simpl CallbackListener.run_until_settled.
  rewrite Hcode. rewrite run_until_settled_done by (simpl; discriminate).
  reflexivity.
Qed.

(** A bind that fails otherwise: the attempt rejects with that error. *)
Lemma attemptOnPort_bind_error env p w e :
  bind_fails env (calls is_listen (trace w)) p e ->
  code_is e "EADDRINUSE" = false ->
  attemptOnPort env p w = (Throw e, emitted env [EvListen p] w).
Proof.
  intros [later Hin] Hcode. rewrite attemptOnPort_run, Hin.
  cbv zeta. simpl CallbackListener.run_until_settled.
  rewrite Hcode. rewrite run_until_settled_done by (simpl; discriminate).
  reflexivity.
Qed.

(** A listener that binds and serves one redirect. *)
Lemma attemptOnPort_served env p w r :
  callback_arrives env (calls is_listen (trace w)) p r ->
  attemptOnPort env p w =
  match r with
  | inr t => (Return t, emitted env (served_events p 200) w)
  | inl e => (Throw e, emitted env (served_events p 400) w)
  end.
Proof.
  intros [later Hin]. rewrite attemptOnPort_run, Hin.
  cbv zeta. destruct r as [e|t]; simpl CallbackListener.run_until_settled;
    rewrite run_until_settled_done by (simpl; discriminate); reflexivity.
Qed.

Lemma try_ports_skip env p rest last w e :
  bind_fails env (calls is_listen (trace w)) p e ->
  code_is e "EADDRINUSE" = true ->
  try_ports env (p :: rest) last w =
  try_ports env rest (Some CallbackListener.port_in_use)
    (emitted env [EvListen p; EvServerClose p] w).
Proof.
  intros Hb Hc. simpl try_ports.
  rewrite try_catch_run, (attemptOnPort_in_use env p w e Hb Hc). reflexivity.
Qed.

Lemma try_ports_advance env busy :
  forall rest last w,
    all_in_use env (calls is_listen (trace w)) busy ->
    exists w2,
      try_ports env (busy ++ rest) last w
        = try_ports env rest (last_after busy last) w2 /\
      listens (trace w2) = listens (trace w) ++ busy /\
      closes (trace w2) = closes (trace w) ++ busy /\
      calls is_listen (trace w2) = (calls is_listen (trace w) + List.length busy)%nat /\
      calls is_discovery (trace w2) = calls is_discovery (trace w) /\
      cached w2 = cached w /\ secret w2 = secret w.
Proof.
  induction busy as [|p busy IH]; intros rest last w Hall.
  - exists w. simpl. rewrite !app_nil_r. repeat split; lia.
  - destruct Hall as [[e [Hb Hc]] Hall].
    set (w1 := emitted env [EvListen p; EvServerClose p] w).
    assert (Hn : calls is_listen (trace w1) = S (calls is_listen (trace w))).
    { unfold w1. rewrite calls_emitted. simpl. lia. }
    rewrite <- Hn in Hall.
    destruct (IH rest (Some CallbackListener.port_in_use) w1 Hall)
      as [w2 [Hrun [Hl [Hcl [Hcnt [Hdisc [Hca Hse]]]]]]].
    exists w2. split; [|split; [|split; [|split; [|split; [|split]]]]].
    + simpl app. rewrite (try_ports_skip env p (busy ++ rest) last w e Hb Hc).
      fold w1. rewrite Hrun. destruct busy; reflexivity.
    + rewrite Hl. unfold w1. rewrite listens_emitted. simpl.
      rewrite <- app_assoc. reflexivity.
    + rewrite Hcl. unfold w1. rewrite closes_emitted. simpl.
      rewrite <- app_assoc. reflexivity.
    + rewrite Hcnt, Hn. simpl. lia.
    + rewrite Hdisc. unfold w1. rewrite calls_emitted. simpl. lia.
    + rewrite Hca. unfold w1. apply cached_emitted.
    + rewrite Hse. unfold w1. apply secret_emitted.
Qed.

Lemma formatOcaError_port_in_use :
  formatOcaError CallbackListener.port_in_use = msg_port_in_use.
Proof. reflexivity. Qed.

Lemma formatOcaError_no_port :
  formatOcaError (new_Error msg_no_port) = msg_no_port.
Proof. vm_compute. reflexivity. Qed.

(** [runInteractiveLogin] once discovery has answered. *)
Lemma runInteractiveLogin_run env ports w c w1 :
  discoveryWithRetry env w = (Return c, w1) ->
  runInteractiveLogin env ports w =
  match try_ports env ports None w1 with
  | (Return tokens, w2) =>
      match secrets_store_error env (calls is_secrets_store (trace w2)) with
      | Some e => (Throw e, push (lag env w2)
                              (EvSecretsStore (login_record (now_sec w2) tokens)) w2)
      | None => (Return (login_record (now_sec w2) tokens),
                 after_persist env (login_record (now_sec w2) tokens) w2)
      end
  | (Throw e, w2) => (Throw e, w2)
  | (Hang, w2) => (Hang, w2)
  end.
Proof.
  intros Hd. unfold runInteractiveLogin.
  rewrite bind_run, try_catch_run, Hd. cbv beta iota.
  rewrite bind_run.
  destruct (try_ports env ports None w1) as [[tokens|e|] w2]; try reflexivity.
  rewrite bind_run, get_world_run. cbv beta iota zeta.
  rewrite bind_run, save_run.
  destruct (secrets_store_error env _); reflexivity.
Qed.

(** C5. Once discovery has answered, let the candidate ports of [busy] all
    fail to bind with EADDRINUSE. Then (1) the login closes each of their
    handles and goes on with the ports after them, in order, no error
    having reached the caller; (2) if the next port fails to bind with any
    other error, the login rejects with that error (formatted) and starts
    no further listener; (3) if [busy] is the whole list, the login
    rejects with the port-in-use message, or, for an empty list, with the
    message that no configured port could be used. *)
Theorem login_port_fallback env (w w1 : World) (c : OidcDiscoveryConfig) (busy : list Z) :
  discoveryWithRetry env w = (Return c, w1) ->
  all_in_use env (calls is_listen (trace w1)) busy ->
  (forall rest last,
     exists w2,
       try_ports env (busy ++ rest) last w1
         = try_ports env rest (last_after busy last) w2 /\
       listens (trace w2) = listens (trace w1) ++ busy /\
       closes (trace w2) = closes (trace w1) ++ busy) /\
  (forall p rest e,
     bind_fails env (calls is_listen (trace w1) + List.length busy) p e ->
     code_is e "EADDRINUSE" = false ->
     exists w',
       runInteractiveLogin env (busy ++ p :: rest) w
         = (Throw (new_Error (formatOcaError e)), w') /\
       listens (trace w') = listens (trace w1) ++ busy ++ [p]) /\
  (exists w',
     runInteractiveLogin env busy w
       = (Throw (new_Error match busy with
                           | [] => msg_no_port
                           | _ :: _ => msg_port_in_use
                           end), w') /\
     listens (trace w') = listens (trace w1) ++ busy /\
     closes (trace w') = closes (trace w1) ++ busy).
Proof.
  intros Hd Hall. split; [|split].
  - intros rest last.
    destruct (try_ports_advance env busy rest last w1 Hall)
      as [w2 [Hrun [Hl [Hcl _]]]].
    exists w2. auto.
  - intros p rest e Hb Hc.
    destruct (try_ports_advance env busy (p :: rest) None w1 Hall)
      as [w2 [Hrun [Hl [_ [Hcnt _]]]]].
    rewrite <- Hcnt in Hb.
    exists (emitted env [EvListen p] w2). split.
    + rewrite (runInteractiveLogin_run env (busy ++ p :: rest) w c w1 Hd), Hrun.
      simpl try_ports. rewrite try_catch_run, (attemptOnPort_bind_error env p w2 e Hb Hc).
      rewrite Hc. reflexivity.
    + rewrite listens_emitted, Hl. simpl. rewrite <- app_assoc. reflexivity.
  - destruct (try_ports_advance env busy [] None w1 Hall)
      as [w2 [Hrun [Hl [Hcl _]]]].
    rewrite app_nil_r in Hrun.
    exists w2. split; [|split; assumption].
    rewrite (runInteractiveLogin_run env busy w c w1 Hd), Hrun.
    simpl try_ports. unfold throw.
    destruct busy; simpl last_after; simpl last_or_default.
    + rewrite formatOcaError_no_port. reflexivity.
    + rewrite formatOcaError_port_in_use. reflexivity.
Qed.

Lemma login_port_fallback_witness :
  exists w',
    runInteractiveLogin env_ports_busy [8669; 8668] (world_at None None 0)
      = (Throw (new_Error msg_port_in_use), w') /\
    listens (trace w') = [8669; 8668] /\
    closes (trace w') = [8669; 8668].
Proof.
  destruct (login_port_fallback env_ports_busy (world_at None None 0)
              (snd (discoveryWithRetry env_ports_busy (world_at None None 0)))
              sample_config [8669; 8668])
    as [_ [_ [w' [Hrun [Hl Hc]]]]].
  - reflexivity.
  - simpl. split; [|split; [|exact I]].
    + exists (set_code (new_Error "listen EADDRINUSE") "EADDRINUSE").
      split; [exists []; reflexivity | reflexivity].
    + exists (set_code (new_Error "listen EADDRINUSE") "EADDRINUSE").
      split; [exists []; reflexivity | reflexivity].
  - exists w'. split; [exact Hrun|]. split; [exact Hl | exact Hc].
Defined.

(* ================================================================== *)
(** * The listener honours one callback *)
(* ================================================================== *)

Import CallbackListener.

Lemma step_settled_stays l i :
  attempt l <> Unsettled ->
  attempt (step l i) = attempt l /\ honored (step l i) = honored l.
Proof.
  intros Hs.
  assert (Hsettle : forall by_req a l', attempt l' = attempt l -> honored l' = honored l ->
            attempt (settle by_req a l') = attempt l /\
            honored (settle by_req a l') = honored l).
  { intros by_req a l' Ha Hh. unfold settle. rewrite Ha.
    destruct (attempt l) eqn:E; [contradiction| |]; rewrite ?Ha, ?Hh; auto. }
  destruct i as [|e|url|req r]; simpl.
  - destruct (server l); auto.
  - destruct (code_is e "EADDRINUSE"); apply Hsettle; reflexivity.
  - destruct (dispatching (server l)); auto. destruct url as [pathname|]; auto.
    destruct (String.eqb pathname "/callback"); auto.
  - destruct (List.existsb _ _); auto.
    destruct r; apply Hsettle; reflexivity.
Qed.

Lemma server_settle by_req a l : server (settle by_req a l) = server l.
Proof. unfold settle. destruct (attempt l); reflexivity. Qed.

Lemma arrived_settle by_req a l : arrived (settle by_req a l) = arrived l.
Proof. unfold settle. destruct (attempt l); reflexivity. Qed.

Lemma events_settle by_req a l : events (settle by_req a l) = events l.
Proof. unfold settle. destruct (attempt l); reflexivity. Qed.

Lemma released_server_close l : released (server (server_close l)) = true.
Proof. unfold server_close. simpl. destruct (dispatching (server l)); reflexivity. Qed.

(** Once [close()] has been called the server never listens again. *)
Lemma step_released_stays l i :
  released (server l) = true -> released (server (step l i)) = true.
Proof.
  intros Hc. destruct i as [|e|url|req r]; simpl.
  - destruct (server l) eqn:E; try discriminate Hc; rewrite E; reflexivity.
  - destruct (code_is e "EADDRINUSE"); rewrite server_settle;
      [apply released_server_close | exact Hc].
  - destruct (dispatching (server l)); [|exact Hc].
    destruct url as [pathname|]; [|exact Hc].
    destruct (String.eqb pathname "/callback"); exact Hc.
  - destruct (List.existsb _ _); [|exact Hc].
    destruct r; rewrite server_settle; apply released_server_close.
Qed.

Lemma run_after_honored more :
  forall l,
    attempt l <> Unsettled -> released (server l) = true ->
    attempt (run l more) = attempt l /\
    honored (run l more) = honored l /\
    released (server (run l more)) = true.
Proof.
  induction more as [|i more IH]; intros l Hs Hc; [simpl; auto|].
  simpl. destruct (step_settled_stays l i Hs) as [Ha Hh].
  pose proof (step_released_stays l i Hc) as Hc'.
  destruct (IH (step l i)) as [H1 [H2 H3]].
  - rewrite Ha. exact Hs.
  - exact Hc'.
  - rewrite H1, H2, Ha, Hh. auto.
Qed.

(** C4. Take a listener whose promise is still unsettled and a /callback
    request [req] whose code exchange is pending. When that exchange ends,
    with tokens or with an error, the request is answered (200 or 400),
    the server is closed, so that the port is released on either path,
    the promise settles accordingly, and [req] is the request honoured.
    Whatever reaches the listener afterwards, the promise and the
    honoured request stay as they are and the server never listens
    again. Nothing is said about requests that reach the handler later. *)
Theorem listener_honors_one_callback (l : Listener) (req : nat)
  (r : JsError + TokenEndpointResponse) :
  attempt l = Unsettled ->
  List.existsb (Nat.eqb req) (exchanging l) = true ->
  let l1 := step l (InExchangeDone req r) in
  attempt l1 = match r with
               | inr t => Resolved t
               | inl e => Rejected e
               end /\
  honored l1 = Some req /\
  released (server l1) = true /\
  events l1 = events l ++ [EvRespond (port l) (match r with
                                               | inr _ => 200
                                               | inl _ => 400
                                               end);
                           EvServerClose (port l)] /\
  forall more,
    let l2 := run l1 more in
    attempt l2 = attempt l1 /\
    honored l2 = Some req /\
    released (server l2) = true.
Proof.
  intros Hu Hp l1.
  assert (H1 : attempt l1 = match r with inr t => Resolved t | inl e => Rejected e end
               /\ honored l1 = Some req).
  { unfold l1. simpl. rewrite Hp. destruct r as [e|t]; unfold settle; simpl;
      rewrite Hu; simpl; auto. }
  assert (Hc : released (server l1) = true).
  { unfold l1. simpl. rewrite Hp.
    destruct r; rewrite server_settle; apply released_server_close. }
  assert (He : events l1 = events l ++ [EvRespond (port l) (match r with
                                                            | inr _ => 200
                                                            | inl _ => 400
                                                            end);
                                        EvServerClose (port l)]).
  { unfold l1. simpl. rewrite Hp.
    destruct r; rewrite events_settle; simpl; rewrite <- app_assoc; reflexivity. }
  destruct H1 as [Ha Hh].
  split; [exact Ha|]. split; [exact Hh|]. split; [exact Hc|]. split; [exact He|].
  intros more l2.
  assert (Hs : attempt l1 <> Unsettled) by (rewrite Ha; destruct r; discriminate).
  destruct (run_after_honored more l1 Hs Hc) as [H1 [H2 H3]].
  fold l2 in H1, H2, H3.
  split; [exact H1|]. split; [rewrite H2; exact Hh | exact H3].
Qed.

Lemma listener_honors_one_callback_witness :
  let l1 := run (create 8669)
              [InListening; InRequest (Some "/callback"%string);
               InExchangeDone 0 (inr sample_response)] in
  attempt l1 = Resolved sample_response /\
  honored l1 = Some 0%nat /\
  released (server l1) = true /\
  attempt (run l1 [InRequest (Some "/callback"%string);
                   InExchangeDone 1 (inl sample_error)]) = Resolved sample_response.
Proof.
  destruct (listener_honors_one_callback
              (run (create 8669) [InListening; InRequest (Some "/callback"%string)])
              0%nat (inr sample_response))
    as [Ha [Hh [Hc [_ Hmore]]]].
  - reflexivity.
  - reflexivity.
  - destruct (Hmore [InRequest (Some "/callback"%string);
                      InExchangeDone 1%nat (inl sample_error)]) as [Hlater _].
    split; [exact Ha|]. split; [exact Hh|]. split; [exact Hc|].
    exact (eq_trans Hlater Ha).
Defined.

(** C4, the claim as worded fails: the first redirect has been exchanged
    and has resolved the attempt, the server is closed, and a second
    redirect on a connection accepted earlier is taken up all the same:
    its code is exchanged and it is answered. *)
Lemma listener_processes_second_redirect :
  let l1 := run (create 8669)
              [InListening; InRequest (Some "/callback"%string);
               InExchangeDone 0 (inr sample_response)] in
  let l2 := run l1 [InRequest (Some "/callback"%string);
                    InExchangeDone 1 (inl sample_error)] in
  attempt l1 = Resolved sample_response /\
  server l1 = Draining /\
  arrived l1 = 1%nat /\
  arrived l2 = 2%nat /\
  events l2 = events l1 ++ [EvCodeGrant 8669; EvRespond 8669 400; EvServerClose 8669].
Proof. vm_compute. repeat split. Qed.

(* ================================================================== *)
(** * The single-flight guard of [loginWithoutAutoOpen] *)
(* ================================================================== *)

Lemma nth_error_replace_at (x : SingleFlight.Flow) :
  forall l f g,
    List.nth_error (SingleFlight.replace_at f x l) g =
    if Nat.eqb g f
    then match List.nth_error l f with
         | Some _ => Some x
         | None => None
         end
    else List.nth_error l g.
Proof.
  induction l as [|y l IH]; intros f g.
  - simpl. destruct (Nat.eqb g f); destruct f, g; reflexivity.
  - destruct f as [|f], g as [|g]; simpl; try reflexivity.
    apply IH.
Qed.

Lemma idle_no_running m :
  SingleFlight.idle m = true -> forall f, ~ SingleFlight.running m f.
Proof.
  unfold SingleFlight.idle, SingleFlight.running. intros Hi f Hr.
  rewrite List.forallb_forall in Hi.
  specialize (Hi _ (List.nth_error_In _ _ Hr)). discriminate Hi.
Qed.

Lemma guarded_initial : SingleFlight.guarded SingleFlight.initial.
Proof.
  intros f. unfold SingleFlight.running. simpl. split; intros H.
  - destruct f; discriminate H.
  - discriminate H.
Qed.

Lemma guarded_login m existing :
  SingleFlight.guarded m ->
  SingleFlight.guarded (snd (SingleFlight.loginWithoutAutoOpen existing m)).
Proof.
  intros G. unfold SingleFlight.loginWithoutAutoOpen.
  destruct existing as [t|]; [exact G|].
  destruct (SingleFlight.inflightLogin m) as [f0|] eqn:Hin; [exact G|].
  intros f. unfold SingleFlight.running. simpl. split; intros H.
  - destruct (Nat.lt_ge_cases f (List.length (SingleFlight.flows m))) as [Hlt|Hge].
    + rewrite List.nth_error_app1 in H by exact Hlt.
      apply G in H. rewrite Hin in H. discriminate H.
    + rewrite List.nth_error_app2 in H by exact Hge.
      destruct (f - List.length (SingleFlight.flows m))%nat as [|k] eqn:Hk.
      * f_equal. lia.
      * simpl in H. destruct k; discriminate H.
  - inversion H; subst f.
    rewrite List.nth_error_app2 by lia. rewrite Nat.sub_diag. reflexivity.
Qed.

Lemma guarded_settles m f o :
  SingleFlight.guarded m -> SingleFlight.guarded (SingleFlight.settles f o m).
Proof.
  intros G. unfold SingleFlight.settles.
  destruct (List.nth_error (SingleFlight.flows m) f) as [[|o']|] eqn:Hf; try exact G.
  assert (Hin : SingleFlight.inflightLogin m = Some f) by (apply G; exact Hf).
  intros g. unfold SingleFlight.running. simpl.
  rewrite nth_error_replace_at, Hf. split; intros H.
  - destruct (Nat.eqb_spec g f) as [Heq|Hne]; [discriminate H|].
    apply G in H. rewrite Hin in H. inversion H. congruence.
  - discriminate H.
Qed.

Lemma guarded_logout m :
  SingleFlight.guarded m -> SingleFlight.idle m = true ->
  SingleFlight.guarded (SingleFlight.logout m).
Proof.
  intros G Hi g. unfold SingleFlight.running. simpl. split; intros H.
  - exfalso. exact (idle_no_running m Hi g H).
  - discriminate H.
Qed.

Lemma guarded_run acts :
  forall m,
    SingleFlight.guarded m ->
    SingleFlight.logouts_idle m acts = true ->
    SingleFlight.guarded (SingleFlight.run m acts).
Proof.
  induction acts as [|a acts IH]; intros m G Hq; [exact G|].
  simpl in Hq. apply andb_true_iff in Hq. destruct Hq as [Ha Hrest].
  simpl. apply IH; [|exact Hrest].
  destruct a as [existing|f o|]; simpl.
  - apply guarded_login; exact G.
  - apply guarded_settles; exact G.
  - apply guarded_logout; [exact G | exact Ha].
Qed.




(* ================================================================== *)
(** * What a successful refresh or login persists *)
(* ================================================================== *)

Lemma tryRefresh_success_inv env token w next w' :
  tryRefresh env token w = (Return (Some next), w') ->
  exists c w1 res,
    discoveryWithRetry env w = (Return c, w1) /\
    refresh_outcome env (calls is_refresh (trace w1)) c (refresh_token token) = inr res /\
    next = refreshed_record
             (now_sec (on_refresh_response env (refresh_token token) w1)) res token /\
    w' = after_persist env next (on_refresh_response env (refresh_token token) w1).
Proof.
  intros H.
  destruct (tryRefresh_cases env token w)
    as [[next0 [c [w1 [res [Hd [Hr [_ [Hn Hrun]]]]]]]]|[w0 Hnone]].
  - rewrite Hrun in H. injection H as Hnext Hw.
    exists c, w1, res. rewrite <- Hnext, <- Hw, <- Hn. auto.
  - rewrite Hnone in H. discriminate H.
Qed.

Lemma runInteractiveLogin_success_inv env ports w tokenSet w' :
  runInteractiveLogin env ports w = (Return tokenSet, w') ->
  exists c w1 tokens w2,
    discoveryWithRetry env w = (Return c, w1) /\
    try_ports env ports None w1 = (Return tokens, w2) /\
    tokenSet = login_record (now_sec w2) tokens /\
    w' = after_persist env tokenSet w2.
Proof.
  intros H.
  destruct (discoveryWithRetry env w) as [[c|e|] w1] eqn:Hd.
  - rewrite (runInteractiveLogin_run env ports w c w1 Hd) in H.
    destruct (try_ports env ports None w1) as [[tokens|e|] w2] eqn:Ht;
      try discriminate H.
    destruct (secrets_store_error env _); [discriminate H|].
    inversion H; subst. exists c, w1, tokens, w2. auto.
  - unfold runInteractiveLogin in H. rewrite bind_run, try_catch_run, Hd in H.
    destruct (instanceof_Error e); discriminate H.
  - unfold runInteractiveLogin in H. rewrite bind_run, try_catch_run, Hd in H.
    discriminate H.
Qed.

(** C9. Whenever a refresh succeeds, the record it returns has been
    written to the secret storage and to the in-process cache, and its
    [expires_at] is the clock reading (in whole seconds) taken when the
    refresh-grant response arrived plus the response's [expires_in]; the
    same holds for a successful interactive login, with the clock read
    when the listener handed over the token response. No other member of
    the response has a say: responses that agree on [expires_in] give the
    same [expires_at]. *)
Theorem expires_at_computed_locally env :
  (forall token w next w',
     tryRefresh env token w = (Return (Some next), w') ->
     exists c w1 res,
       discoveryWithRetry env w = (Return c, w1) /\
       refresh_outcome env (calls is_refresh (trace w1)) c (refresh_token token)
         = inr res /\
       let received := on_refresh_response env (refresh_token token) w1 in
       (forall n, res_expires_in res = Some n ->
                  expires_at next = Some (clock_ms received / 1000 + n)) /\
       (forall res', res_expires_in res' = res_expires_in res ->
                     expires_at (refreshed_record (now_sec received) res' token)
                       = expires_at next) /\
       secret w' = Some (JsonOf next) /\ cached w' = Some next) /\
  (forall ports w tokenSet w',
     runInteractiveLogin env ports w = (Return tokenSet, w') ->
     exists c w1 tokens received,
       discoveryWithRetry env w = (Return c, w1) /\
       try_ports env ports None w1 = (Return tokens, received) /\
       (forall n, res_expires_in tokens = Some n ->
                  expires_at tokenSet = Some (clock_ms received / 1000 + n)) /\
       (forall tokens', res_expires_in tokens' = res_expires_in tokens ->
                        expires_at (login_record (now_sec received) tokens')
                          = expires_at tokenSet) /\
       secret w' = Some (JsonOf tokenSet) /\ cached w' = Some tokenSet).
Proof.
  split.
  - intros token w next w' H.
    destruct (tryRefresh_success_inv env token w next w' H)
      as [c [w1 [res [Hd [Hr [Hn Hw]]]]]].
    exists c, w1, res. split; [exact Hd|]. split; [exact Hr|].
    cbv zeta. split; [|split; [|split]].
    + intros n Hn'. rewrite Hn. simpl. rewrite Hn'. reflexivity.
    + intros res' Heq. rewrite Hn. simpl. rewrite Heq. reflexivity.
    + rewrite Hw. reflexivity.
    + rewrite Hw. reflexivity.
  - intros ports w tokenSet w' H.
    destruct (runInteractiveLogin_success_inv env ports w tokenSet w' H)
      as [c [w1 [tokens [w2 [Hd [Ht [Hn Hw]]]]]]].
    exists c, w1, tokens, w2. split; [exact Hd|]. split; [exact Ht|].
    split; [|split; [|split]].
    + intros n Hn'. rewrite Hn. simpl. rewrite Hn'. reflexivity.
    + intros tokens' Heq. rewrite Hn. simpl. rewrite Heq. reflexivity.
    + rewrite Hw. reflexivity.
    + rewrite Hw. reflexivity.
Qed.

Lemma expires_at_computed_locally_witness :
  expires_at (refreshed_record 1000 short_lived_response expired_token) = Some 1060 /\
  (exists w', runInteractiveLogin env_second_port [8669; 8668] (world_at None None 1000000)
              = (Return (login_record 1000 sample_response), w')) /\
  expires_at (login_record 1000 sample_response) = Some 4600.
Proof.
  split; [|split].
  - destruct (proj1 (expires_at_computed_locally env_short_lived)
                expired_token (world_at (Some expired_token) None 1000000)
                (refreshed_record 1000 short_lived_response expired_token)
                (snd (tryRefresh env_short_lived expired_token
                        (world_at (Some expired_token) None 1000000))))
      as [c [w1 [res [Hd [Hr [Hexp _]]]]]].
    + vm_compute. reflexivity.
    + vm_compute in Hd. inversion Hd; subst c w1.
      vm_compute in Hr. inversion Hr; subst res.
      rewrite (Hexp 60 eq_refl). vm_compute. reflexivity.
  - destruct (proj2 (expires_at_computed_locally env_second_port)
                [8669; 8668] (world_at None None 1000000)
                (login_record 1000 sample_response)
                (snd (runInteractiveLogin env_second_port [8669; 8668]
                        (world_at None None 1000000))))
      as [c [w1 [tokens [received [Hd [Ht _]]]]]].
    + vm_compute. reflexivity.
    + eexists. vm_compute. reflexivity.
  - reflexivity.
Defined.

(** C10. Whenever a refresh succeeds, the new record is the one written
    to the secret storage and to the cache; if the response carries no
    [refresh_token], the new record keeps the refresh token of the record
    being refreshed, and if the response carries no numeric [expires_in],
    it keeps that record's [expires_at]. *)
Theorem refresh_retains_missing_members env token w next w' :
  tryRefresh env token w = (Return (Some next), w') ->
  exists c w1 res,
    discoveryWithRetry env w = (Return c, w1) /\
    refresh_outcome env (calls is_refresh (trace w1)) c (refresh_token token)
      = inr res /\
    (res_refresh_token res = None -> refresh_token next = refresh_token token) /\
    (res_expires_in res = None -> expires_at next = expires_at token) /\
    secret w' = Some (JsonOf next) /\
    cached w' = Some next /\
    List.last (stores (trace w')) token = next.
Proof.
  intros H.
  destruct (tryRefresh_success_inv env token w next w' H)
    as [c [w1 [res [Hd [Hr [Hn Hw]]]]]].
  exists c, w1, res. split; [exact Hd|]. split; [exact Hr|].
  split; [|split; [|split; [|split]]].
  - intros Hnone. rewrite Hn. simpl. rewrite Hnone. reflexivity.
  - intros Hnone. rewrite Hn. simpl. rewrite Hnone. reflexivity.
  - rewrite Hw. reflexivity.
  - rewrite Hw. reflexivity.
  - rewrite Hw. unfold after_persist, with_cached, with_secret, push. simpl.
    rewrite stores_app. simpl. apply List.last_last.
Qed.

Lemma refresh_retains_missing_members_witness :
  exists next w',
    tryRefresh env_bare expired_token (world_at (Some expired_token) None 1000000)
      = (Return (Some next), w') /\
    refresh_token next = Some "rt-1"%string /\
    expires_at next = Some 900 /\
    cached w' = Some next.
Proof.
  destruct (refresh_retains_missing_members env_bare expired_token
              (world_at (Some expired_token) None 1000000)
              (refreshed_record 1000 bare_response expired_token)
              (snd (tryRefresh env_bare expired_token
                      (world_at (Some expired_token) None 1000000))))
    as [c [w1 [res [Hd [Hr [Hrt [Hexp [_ [Hc _]]]]]]]]].
  - vm_compute. reflexivity.
  - vm_compute in Hd. inversion Hd; subst c w1.
    vm_compute in Hr. inversion Hr; subst res.
    eexists. eexists. split; [vm_compute; reflexivity|].
    split; [exact (Hrt eq_refl)|]. split; [exact (Hexp eq_refl)|].
    vm_compute. reflexivity.
Defined.

(* ================================================================== *)
(** * Discovery is performed anew by every operation *)
(* ================================================================== *)

Lemma appends_ret {A} (a : A) : appends (ret a).
Proof. intros w. exists []. simpl. rewrite app_nil_r. reflexivity. Qed.

Lemma appends_throw {A} e : appends (@throw A e).
Proof. intros w. exists []. simpl. rewrite app_nil_r. reflexivity. Qed.

Lemma appends_hang {A} : appends (@hang A).
Proof. intros w. exists []. simpl. rewrite app_nil_r. reflexivity. Qed.

Lemma appends_get_world : appends get_world.
Proof. intros w. exists []. simpl. rewrite app_nil_r. reflexivity. Qed.

Lemma appends_set_cached c : appends (set_cached c).
Proof. intros w. exists []. simpl. rewrite app_nil_r. reflexivity. Qed.

Lemma appends_set_secret s : appends (set_secret s).
Proof. intros w. exists []. simpl. rewrite app_nil_r. reflexivity. Qed.

Lemma appends_emit dt ev : appends (emit dt ev).
Proof. intros w. exists [(clock_ms w + dt, ev)]. reflexivity. Qed.

Lemma appends_of_sum {A} (r : JsError + A) : appends (of_sum r).
Proof. destruct r; [apply appends_throw | apply appends_ret]. Qed.

Lemma appends_bind {A B} (m : M A) (k : A -> M B) :
  appends m -> (forall a, appends (k a)) -> appends (bind m k).
Proof.
  intros Hm Hk w. rewrite bind_run.
  destruct (Hm w) as [s1 H1].
  destruct (m w) as [[a|e|] w1]; simpl in H1.
  - destruct (Hk a w1) as [s2 H2]. exists (s1 ++ s2).
    rewrite H2, H1, app_assoc. reflexivity.
  - exists s1. exact H1.
  - exists s1. exact H1.
Qed.

Lemma appends_try_catch {A} (m : M A) (h : JsError -> M A) :
  appends m -> (forall e, appends (h e)) -> appends (try_catch m h).
Proof.
  intros Hm Hh w. rewrite try_catch_run.
  destruct (Hm w) as [s1 H1].
  destruct (m w) as [[a|e|] w1]; simpl in H1.
  - exists s1. exact H1.
  - destruct (Hh e w1) as [s2 H2]. exists (s1 ++ s2).
    rewrite H2, H1, app_assoc. reflexivity.
  - exists s1. exact H1.
Qed.

Create HintDb appends.
#[local] Hint Resolve appends_ret appends_throw appends_hang appends_get_world
  appends_set_cached appends_set_secret appends_emit appends_of_sum : appends.

(** Decompose a computation along its binds and handlers. *)
Ltac appends_steps :=
  repeat first
    [ apply appends_bind
    | apply appends_try_catch
    | progress intros
    | match goal with
      | |- appends (match ?x with _ => _ end) => destruct x
      | |- appends (if ?b then _ else _) => destruct b
      end ];
  auto with appends.

Lemma appends_console_error what e : appends (console_error what e).
Proof. unfold console_error. appends_steps. Qed.

Lemma appends_discovery env : appends (discovery env).
Proof. unfold discovery. appends_steps. Qed.

Lemma appends_save env t : appends (save env t).
Proof. unfold save. appends_steps. Qed.

Lemma appends_refreshTokenGrant env c rt : appends (refreshTokenGrant env c rt).
Proof. unfold refreshTokenGrant. appends_steps. Qed.

Lemma appends_emit_all env evs : appends (emit_all env evs).
Proof. induction evs as [|ev evs IH]; simpl; appends_steps. Qed.

Lemma appends_attemptOnPort env p : appends (attemptOnPort env p).
Proof.
  unfold attemptOnPort. appends_steps; apply appends_emit_all.
Qed.

Lemma appends_try_ports env ports : forall last, appends (try_ports env ports last).
Proof.
  induction ports as [|p ports IH]; intros last; simpl.
  - apply appends_throw.
  - apply appends_try_catch; [apply appends_attemptOnPort|].
    intros e. destruct (code_is e "EADDRINUSE"); [apply IH | apply appends_throw].
Qed.

#[local] Hint Resolve appends_console_error appends_discovery appends_save
  appends_refreshTokenGrant appends_try_ports : appends.

Lemma appends_calls_le {A} (m : M A) k w :
  appends m -> (calls k (trace w) <= calls k (trace (snd (m w))))%nat.
Proof.
  intros Hm. destruct (Hm w) as [s H]. rewrite H, calls_app. lia.
Qed.

(** A computation that begins with [m] keeps the calls [m] made. *)
Lemma calls_bind_ge {A B} (m : M A) (k : A -> M B) kind n w :
  (n <= calls kind (trace (snd (m w))))%nat ->
  (forall a, appends (k a)) ->
  (n <= calls kind (trace (snd (bind m k w))))%nat.
Proof.
  intros Hn Hk. rewrite bind_run.
  destruct (m w) as [[a|e|] w1]; simpl in Hn; simpl; try exact Hn.
  pose proof (appends_calls_le (k a) kind w1 (Hk a)). lia.
Qed.

Lemma calls_try_catch_ge {A} (m : M A) (h : JsError -> M A) kind n w :
  (n <= calls kind (trace (snd (m w))))%nat ->
  (forall e, appends (h e)) ->
  (n <= calls kind (trace (snd (try_catch m h w))))%nat.
Proof.
  intros Hn Hh. rewrite try_catch_run.
  destruct (m w) as [[a|e|] w1]; simpl in Hn; simpl; try exact Hn.
  pose proof (appends_calls_le (h e) kind w1 (Hh e)). lia.
Qed.

(** Every run of the retrier makes at least one discovery call. *)
Lemma discovery_loop_calls env B Mx left :
  forall attempt w,
    (S (calls is_discovery (trace w))
     <= calls is_discovery (trace (snd (discovery_loop env B Mx left attempt w))))%nat.
Proof.
  induction left as [|left IH]; intros attempt w;
    destruct (discovery_outcome env (calls is_discovery (trace w))) as [e|c] eqn:H.
  - rewrite (discovery_loop_last env B Mx attempt w e H).
    unfold after_last_failure. simpl snd. rewrite !calls_push. simpl. lia.
  - rewrite (discovery_loop_success env B Mx 0 attempt w c H).
    simpl snd. rewrite calls_push. simpl. lia.
  - rewrite (discovery_loop_retry env B Mx left attempt w e H).
    specialize (IH (S attempt) (after_retry env B Mx attempt w)).
    rewrite calls_after_retry in IH. simpl in IH. lia.
  - rewrite (discovery_loop_success env B Mx (S left) attempt w c H).
    simpl snd. rewrite calls_push. simpl. lia.
Qed.

(** C6, as amended. The manager keeps no copy of the discovery document:
    every silent refresh and every interactive login makes at least one
    discovery network call of its own, in every world, hence also after
    an earlier discovery has succeeded. *)
Theorem discovery_repeated_by_every_operation env :
  (forall token w,
     (S (calls is_discovery (trace w))
      <= calls is_discovery (trace (snd (tryRefresh env token w))))%nat) /\
  (forall ports w,
     (S (calls is_discovery (trace w))
      <= calls is_discovery (trace (snd (runInteractiveLogin env ports w))))%nat).
Proof.
  split.
  - intros token w. unfold tryRefresh.
    apply calls_try_catch_ge; [|intros e; appends_steps].
    apply calls_bind_ge; [apply discovery_loop_calls|].
    intros c. appends_steps.
  - intros ports w. unfold runInteractiveLogin.
    apply calls_bind_ge; [|intros c; appends_steps].
    apply calls_try_catch_ge; [apply discovery_loop_calls|].
    intros e. destruct (instanceof_Error e); apply appends_throw.
Qed.

(** C6, the claim as worded fails: the first [getValid] performs a
    successful discovery, and the next one, finding the short-lived token
    stale, performs discovery again. *)
Lemma discovery_repeated_after_success :
  let w0 := world_at (Some expired_token) None 1000000 in
  let w1 := snd (getValid env_short_lived w0) in
  let w2 := snd (getValid env_short_lived w1) in
  discovery_outcome env_short_lived 0 = inr sample_config /\
  calls is_discovery (trace w0) = 0%nat /\
  calls is_discovery (trace w1) = 1%nat /\
  calls is_refresh (trace w1) = 1%nat /\
  calls is_discovery (trace w2) = 2%nat /\
  calls is_refresh (trace w2) = 2%nat.
Proof. vm_compute. repeat split. Qed.

(* ================================================================== *)
(** * Further facts and concrete runs *)
(* ================================================================== *)

(** A fresh token found only in the secret storage is returned after one
    storage read, cached, and no call reaches the identity provider. *)
Lemma getValid_returns_fresh_stored env (w : World) (T : TokenRecord) (e : Z) :
  cached w = None ->
  secret w = Some (JsonOf T) ->
  secrets_get_error env (calls is_secrets_get (trace w)) = None ->
  expires_at T = Some e ->
  0 <= clock_ms w ->
  now_sec (push (lag env w) EvSecretsGet w) + 180 < e ->
  let w' := with_cached (Some T) (push (lag env w) EvSecretsGet w) in
  getValid env w = (Return (Some T), w') /\
  calls is_network (trace w') = calls is_network (trace w).
Proof.
  intros Hc Hs Hg He Hclock Hfresh w'. split.
  - rewrite getValid_examined. unfold examined. rewrite Hc, load_run, Hg, Hs.
    fold w'.
    assert (Hc' : cached w' = Some T) by reflexivity.
    rewrite (getValid_cached env w' T Hc').
    rewrite (isValid_at_fresh (now_sec w') T e He); [reflexivity | | exact Hfresh].
    apply now_sec_nonneg.
    change (clock_ms w') with (clock_ms w + lag env w). unfold lag. lia.
  - change (trace w') with (trace (push (lag env w) EvSecretsGet w)).
    rewrite calls_push. simpl. lia.
Qed.

(** [logout] never throws, and empties the in-process cache. *)
Lemma logout_returns env w :
  exists w', logout env w = (Return tt, w') /\ cached w' = None.
Proof.
  unfold logout. rewrite bind_run, set_cached_run, try_catch_run.
  rewrite bind_run, get_world_run. cbv beta iota.
  rewrite bind_run. cbv beta iota delta [emit].
  destruct (secrets_delete_error env _); eexists; split; reflexivity.
Qed.

Example backoff_values :
  List.map (backoff 500 2000) [0; 1; 2; 3]%nat = [500; 1000; 2000; 2000].
Proof. reflexivity. Qed.

Example delay_of_one_third :
  delay_of 500 2000 0 (1 # 3) = 417 /\ delay_of 500 2000 1 (1 # 3) = 833.
Proof. split; reflexivity. Qed.

(** The product is rounded to binary64 before [Math.round] sees it: the
    exact product of this draw lies below 280.5, its binary64 is 280.5. *)
Example delay_of_rounds_twice :
  let r := (8584986789675 # 140737488355328)%Q in
  delay_of 500 2000 0 r = 281 /\
  Math_round (500 * ((1 # 2) + r))%Q = 280 /\
  (binary64 (500 * jitter_of r) == 561 # 2)%Q.
Proof. vm_compute. repeat split. Qed.

(** The largest draw below 1 gives the jitter factor 3/2 itself. *)
Example jitter_of_largest_draw :
  (jitter_of (9007199254740991 # 9007199254740992) == 3 # 2)%Q /\
  delay_of 500 2000 0 (9007199254740991 # 9007199254740992) = 750.
Proof. vm_compute. repeat split. Qed.

Example formatOcaError_network : formatOcaError sample_error = msg_cannot_reach.
Proof. vm_compute. reflexivity. Qed.

Example formatOcaError_description_first :
  formatOcaError
    {| code := None; error_description := JString "invalid_grant: code expired";
       message := JString "server responded with an error";
       to_String := "ResponseBodyError"; instanceof_Error := true |}
  = "invalid_grant: code expired"%string.
Proof. vm_compute. reflexivity. Qed.

Example includes_examples :
  includes "dns" "a dns failure" = true /\ includes "dns" "denied" = false.
Proof. split; reflexivity. Qed.

(** Port fallback on a concrete run: the first port is taken, the second
    one serves the redirect, and the record is persisted. *)
Example login_on_second_port :
  let r := runInteractiveLogin env_second_port [8669; 8668] (world_at None None 1000000) in
  fst r = Return (login_record 1000 sample_response) /\
  listens (trace (snd r)) = [8669; 8668] /\
  closes (trace (snd r)) = [8669; 8668] /\
  stores (trace (snd r)) = [login_record 1000 sample_response] /\
  cached (snd r) = Some (login_record 1000 sample_response).
Proof. vm_compute. repeat split. Qed.

(** Two redirects that overlap are both exchanged, yet only the first
    exchange to finish decides the attempt. *)
Example overlapping_redirects :
  let l := run (create 8669)
             [InListening; InRequest (Some "/callback"%string);
              InRequest (Some "/callback"%string);
              InExchangeDone 1 (inl sample_error);
              InExchangeDone 0 (inr sample_response)] in
  attempt l = Rejected sample_error /\ honored l = Some 1%nat /\ arrived l = 2%nat.
Proof. vm_compute. repeat split. Qed.

(** A request for another path is left unanswered and changes nothing. *)
Example other_path_ignored :
  let l := run (create 8669) [InListening] in
  step l (InRequest (Some "/favicon.ico"%string)) = l /\ step l (InRequest None) = l.
Proof. split; reflexivity. Qed.

(* ================================================================== *)
(** * Effort: how many events of a kind a computation can add *)
(* ================================================================== *)

Lemma calls_ext (k k' : Event -> bool) (tr : Trace) :
  (forall ev, k ev = k' ev) -> calls k tr = calls k' tr.
Proof.
  intros H. unfold calls. f_equal. apply List.filter_ext. intros [t ev]. apply H.
Qed.

Lemma at_most_weaken {A} k n n' (m : M A) :
  at_most k n m -> (n <= n')%nat -> at_most k n' m.
Proof. intros H Hle w. specialize (H w). lia. Qed.

Lemma at_most_ret {A} k n (a : A) : at_most k n (ret a).
Proof. intros w. simpl. lia. Qed.

Lemma at_most_throw {A} k n e : at_most k n (@throw A e).
Proof. intros w. simpl. lia. Qed.

Lemma at_most_hang {A} k n : at_most k n (@hang A).
Proof. intros w. simpl. lia. Qed.

Lemma at_most_get_world k n : at_most k n get_world.
Proof. intros w. simpl. lia. Qed.

Lemma at_most_set_cached k n c : at_most k n (set_cached c).
Proof. intros w. simpl. lia. Qed.

Lemma at_most_set_secret k n s : at_most k n (set_secret s).
Proof. intros w. simpl. lia. Qed.

Lemma at_most_emit K dt ev :
  at_most (is_kind K) (unit_of K (kind_of ev)) (emit dt ev).
Proof.
  intros w. unfold emit. simpl snd. rewrite calls_push.
  unfold is_kind, unit_of. lia.
Qed.

Lemma at_most_bind {A B} k n1 n2 (m : M A) (f : A -> M B) :
  at_most k n1 m -> (forall a, at_most k n2 (f a)) ->
  at_most k (n1 + n2) (bind m f).
Proof.
  intros Hm Hf w. rewrite bind_run. specialize (Hm w).
  destruct (m w) as [[a|e|] w1]; simpl in *; try lia.
  specialize (Hf a w1). lia.
Qed.

Lemma at_most_try_catch {A} k n1 n2 (m : M A) (h : JsError -> M A) :
  at_most k n1 m -> (forall e, at_most k n2 (h e)) ->
  at_most k (n1 + n2) (try_catch m h).
Proof.
  intros Hm Hh w. rewrite try_catch_run. specialize (Hm w).
  destruct (m w) as [[a|e|] w1]; simpl in *; try lia.
  specialize (Hh e w1). lia.
Qed.

Lemma at_most_of_sum {A} k n (r : JsError + A) : at_most k n (of_sum r).
Proof. destruct r; [apply at_most_throw | apply at_most_ret]. Qed.

(** An external call that emits one event and then answers. *)
Lemma at_most_call {A} env K ev (answer : World -> M A) :
  (forall w, at_most (is_kind K) 0 (answer w)) ->
  at_most (is_kind K) (unit_of K (kind_of ev))
    (bind get_world (fun w => bind (emit (lag env w) ev) (fun _ => answer w))).
Proof.
  intros Ha.
  apply (at_most_weaken _ (0 + (unit_of K (kind_of ev) + 0))); [|lia].
  apply at_most_bind; [apply at_most_get_world|]. intros w.
  apply at_most_bind; [apply at_most_emit|]. intros _. apply Ha.
Qed.

Lemma at_most_discovery env K :
  at_most (is_kind K) (unit_of K KDiscovery) (discovery env).
Proof.
  unfold discovery. apply (at_most_call env K EvDiscovery).
  intros w. apply at_most_of_sum.
Qed.

Lemma at_most_Math_random env K :
  at_most (is_kind K) (unit_of K KRandom) (Math_random env).
Proof.
  unfold Math_random.
  apply (at_most_weaken _ (0 + (unit_of K KRandom + 0))); [|lia].
  apply at_most_bind; [apply at_most_get_world|]. intros w.
  apply at_most_bind; [apply (at_most_emit K 0 EvRandom)|]. intros _.
  apply at_most_ret.
Qed.

Lemma at_most_sleep K ms : at_most (is_kind K) (unit_of K KSleep) (sleep ms).
Proof. unfold sleep. apply (at_most_emit K _ (EvSleep ms)). Qed.

Lemma at_most_console_error K what e :
  at_most (is_kind K) (unit_of K KConsoleError) (console_error what e).
Proof. unfold console_error. apply (at_most_emit K 0 (EvConsoleError what e)). Qed.

(** The retrier calls discovery at most [left + 1] times, sleeps and
    draws a random number at most [left] times, and logs at most once. *)
Lemma at_most_discovery_loop env K B Mx left :
  forall attempt,
    at_most (is_kind K)
      ((left + 1) * unit_of K KDiscovery
       + left * (unit_of K KRandom + unit_of K KSleep)
       + unit_of K KConsoleError)
      (discovery_loop env B Mx left attempt).
Proof.
  induction left as [|left IH]; intros attempt; simpl discovery_loop.
  - apply (at_most_weaken _ (unit_of K KDiscovery + (unit_of K KConsoleError + 0)));
      [|lia].
    apply at_most_try_catch; [apply at_most_discovery|]. intros e.
    unfold discovery_failed.
    apply at_most_bind; [apply at_most_console_error|]. intros _.
    apply at_most_throw.
  - apply (at_most_weaken _
             (unit_of K KDiscovery
              + (unit_of K KRandom
                 + (unit_of K KSleep
                    + ((left + 1) * unit_of K KDiscovery
                       + left * (unit_of K KRandom + unit_of K KSleep)
                       + unit_of K KConsoleError))))); [|lia].
    apply at_most_try_catch; [apply at_most_discovery|]. intros e.
    apply at_most_bind; [apply at_most_Math_random|]. intros r.
    apply at_most_bind; [apply at_most_sleep|]. intros _.
    apply IH.
Qed.

Lemma at_most_save env K t :
  at_most (is_kind K) (unit_of K KSecretsStore) (save env t).
Proof.
  unfold save. apply (at_most_call env K (EvSecretsStore t)).
  intros w. destruct (secrets_store_error env _);
    [apply at_most_throw | apply at_most_set_secret].
Qed.

Lemma at_most_load env K :
  at_most (is_kind K) (unit_of K KSecretsGet) (load env).
Proof.
  unfold load.
  apply (at_most_weaken _ ((unit_of K KSecretsGet + 0) + 0)); [|lia].
  apply at_most_try_catch; [|intros e; apply at_most_ret].
  apply at_most_bind.
  - unfold secrets_get. apply (at_most_call env K EvSecretsGet).
    intros w. destruct (secrets_get_error env _);
      [apply at_most_throw | apply at_most_ret].
  - intros [[t| | |]|]; first [apply at_most_ret | apply at_most_throw].
Qed.

Lemma at_most_refreshTokenGrant env K c rt :
  at_most (is_kind K) (unit_of K KRefreshGrant) (refreshTokenGrant env c rt).
Proof.
  unfold refreshTokenGrant. apply (at_most_call env K (EvRefreshGrant rt)).
  intros w. apply at_most_of_sum.
Qed.

Lemma at_most_tryRefresh env K token :
  at_most (is_kind K) (tryRefresh_budget K) (tryRefresh env token).
Proof.
  unfold tryRefresh, tryRefresh_budget.
  apply (at_most_weaken _
           ((((3 + 1) * unit_of K KDiscovery
              + 3 * (unit_of K KRandom + unit_of K KSleep)
              + unit_of K KConsoleError)
             + (unit_of K KRefreshGrant + (0 + (unit_of K KSecretsStore + (0 + 0)))))
            + (unit_of K KConsoleError + 0))); [|lia].
  apply at_most_try_catch.
  - apply at_most_bind; [apply at_most_discovery_loop|]. intros c.
    apply at_most_bind; [apply at_most_refreshTokenGrant|]. intros res.
    apply at_most_bind; [apply at_most_get_world|]. intros w.
    apply at_most_bind; [apply at_most_save|]. intros _.
    apply at_most_bind; [apply at_most_set_cached|]. intros _.
    apply at_most_ret.
  - intros e. apply at_most_bind; [apply at_most_console_error|]. intros _.
    apply at_most_ret.
Qed.

Lemma at_most_getValid env K :
  at_most (is_kind K) (unit_of K KSecretsGet + tryRefresh_budget K) (getValid env).
Proof.
  unfold getValid.
  apply (at_most_weaken _ (0 + ((unit_of K KSecretsGet + 0) + tryRefresh_budget K)));
    [|lia].
  apply at_most_bind; [apply at_most_get_world|]. intros w.
  apply at_most_bind.
  - destruct (cached w) as [t|]; [apply at_most_ret|].
    apply at_most_bind; [apply at_most_load|].
    intros [t|]; [|apply at_most_ret].
    apply (at_most_weaken _ (0 + 0)); [|lia].
    apply at_most_bind; [apply at_most_set_cached|]. intros _. apply at_most_ret.
  - intros [t|]; [|apply at_most_ret].
    apply (at_most_weaken _ (0 + tryRefresh_budget K)); [|lia].
    apply at_most_bind.
    + unfold isValid. apply (at_most_weaken _ (0 + 0)); [|lia].
      apply at_most_bind; [apply at_most_get_world|]. intros w0. apply at_most_ret.
    + intros valid. destruct valid; [apply at_most_ret|].
      destruct (truthy_str (refresh_token t)); [|apply at_most_ret].
      apply (at_most_weaken _ (tryRefresh_budget K + 0)); [|lia].
      apply at_most_bind; [apply at_most_tryRefresh|].
      intros [r|]; apply at_most_ret.
Qed.

Lemma appends_Math_random env : appends (Math_random env).
Proof. unfold Math_random. appends_steps. Qed.

Lemma appends_sleep ms : appends (sleep ms).
Proof. unfold sleep. appends_steps. Qed.

Lemma appends_discovery_loop env B Mx left :
  forall attempt, appends (discovery_loop env B Mx left attempt).
Proof.
  induction left as [|left IH]; intros attempt; simpl.
  - apply appends_try_catch; [apply appends_discovery|].
    intros e. unfold discovery_failed. appends_steps.
  - apply appends_try_catch; [apply appends_discovery|].
    intros e. apply appends_bind; [apply appends_Math_random|]. intros r.
    apply appends_bind; [apply appends_sleep|]. intros _. apply IH.
Qed.

Lemma appends_load env : appends (load env).
Proof. unfold load, secrets_get. appends_steps. Qed.

Lemma appends_tryRefresh env token : appends (tryRefresh env token).
Proof.
  unfold tryRefresh.
  apply appends_try_catch; [|intros e; appends_steps].
  apply appends_bind; [apply appends_discovery_loop|]. intros c. appends_steps.
Qed.

Lemma appends_getValid env : appends (getValid env).
Proof.
  unfold getValid.
  apply appends_bind; [apply appends_get_world|]. intros w.
  apply appends_bind.
  - destruct (cached w); [apply appends_ret|].
    apply appends_bind; [apply appends_load|]. intros [t|]; appends_steps.
  - intros [t|]; [|apply appends_ret].
    apply appends_bind; [unfold isValid; appends_steps|].
    intros valid. destruct valid; [apply appends_ret|].
    destruct (truthy_str (refresh_token t)); [|apply appends_ret].
    apply appends_bind; [apply appends_tryRefresh|]. intros [r|]; apply appends_ret.
Qed.

(** A computation that cannot add an event of a kind leaves its count. *)
Lemma at_most_zero_same {A} k (m : M A) w :
  appends m -> at_most k 0 m ->
  calls k (trace (snd (m w))) = calls k (trace w).
Proof.
  intros Ha Hz. pose proof (appends_calls_le m k w Ha). specialize (Hz w). lia.
Qed.

Lemma is_kind_refresh ev : is_refresh ev = is_kind KRefreshGrant ev.
Proof. destruct ev; reflexivity. Qed.
Lemma is_kind_discovery ev : is_discovery ev = is_kind KDiscovery ev.
Proof. destruct ev; reflexivity. Qed.
Lemma is_kind_secrets_store ev : is_secrets_store ev = is_kind KSecretsStore ev.
Proof. destruct ev; reflexivity. Qed.
Lemma is_kind_secrets_get ev : is_secrets_get ev = is_kind KSecretsGet ev.
Proof. destruct ev; reflexivity. Qed.
Lemma is_kind_secrets_delete ev : is_secrets_delete ev = is_kind KSecretsDelete ev.
Proof. destruct ev; reflexivity. Qed.
Lemma is_kind_listen ev : is_listen ev = is_kind KListen ev.
Proof. destruct ev; reflexivity. Qed.
Lemma is_kind_code_grant ev : is_code_grant ev = is_kind KCodeGrant ev.
Proof. destruct ev; reflexivity. Qed.

(** X1. One call of [getValid] makes at most one refresh-grant call, at
    most four discovery calls, at most one read of and one write to the
    secret storage; it never starts a callback listener, never exchanges
    an authorization code and never deletes the stored record. *)
Theorem getValid_bounded_effort env (w : World) :
  let w' := snd (getValid env w) in
  (calls is_refresh (trace w') <= calls is_refresh (trace w) + 1)%nat /\
  (calls is_discovery (trace w') <= calls is_discovery (trace w) + 4)%nat /\
  (calls is_secrets_get (trace w') <= calls is_secrets_get (trace w) + 1)%nat /\
  (calls is_secrets_store (trace w') <= calls is_secrets_store (trace w) + 1)%nat /\
  calls is_listen (trace w') = calls is_listen (trace w) /\
  calls is_code_grant (trace w') = calls is_code_grant (trace w) /\
  calls is_secrets_delete (trace w') = calls is_secrets_delete (trace w).
Proof.
  intros w'. unfold w'.
  rewrite !(calls_ext is_refresh _ _ is_kind_refresh).
  rewrite !(calls_ext is_discovery _ _ is_kind_discovery).
  rewrite !(calls_ext is_secrets_get _ _ is_kind_secrets_get).
  rewrite !(calls_ext is_secrets_store _ _ is_kind_secrets_store).
  rewrite !(calls_ext is_listen _ _ is_kind_listen).
  rewrite !(calls_ext is_code_grant _ _ is_kind_code_grant).
  rewrite !(calls_ext is_secrets_delete _ _ is_kind_secrets_delete).
  repeat split.
  - apply (at_most_getValid env KRefreshGrant w).
  - apply (at_most_getValid env KDiscovery w).
  - apply (at_most_getValid env KSecretsGet w).
  - apply (at_most_getValid env KSecretsStore w).
  - apply at_most_zero_same; [apply appends_getValid|].
    apply (at_most_getValid env KListen).
  - apply at_most_zero_same; [apply appends_getValid|].
    apply (at_most_getValid env KCodeGrant).
  - apply at_most_zero_same; [apply appends_getValid|].
    apply (at_most_getValid env KSecretsDelete).
Qed.

(* ================================================================== *)
(** * What is left untouched *)
(* ================================================================== *)

Lemma keeps_ret {A B} (component : World -> B) (a : A) : keeps component (ret a).
Proof. intros w. reflexivity. Qed.

Lemma keeps_throw {A B} (component : World -> B) e : keeps component (@throw A e).
Proof. intros w. reflexivity. Qed.

Lemma keeps_get_world {B} (component : World -> B) : keeps component get_world.
Proof. intros w. reflexivity. Qed.

Lemma keeps_cached_emit dt ev : keeps cached (emit dt ev).
Proof. intros w. reflexivity. Qed.

Lemma keeps_secret_emit dt ev : keeps secret (emit dt ev).
Proof. intros w. reflexivity. Qed.

Lemma keeps_bind {A B C} (component : World -> C) (m : M A) (f : A -> M B) :
  keeps component m -> (forall a, keeps component (f a)) ->
  keeps component (bind m f).
Proof.
  intros Hm Hf w. rewrite bind_run. specialize (Hm w).
  destruct (m w) as [[a|e|] w1]; simpl in *; try exact Hm.
  rewrite (Hf a w1). exact Hm.
Qed.

Lemma keeps_try_catch {A C} (component : World -> C) (m : M A) (h : JsError -> M A) :
  keeps component m -> (forall e, keeps component (h e)) ->
  keeps component (try_catch m h).
Proof.
  intros Hm Hh w. rewrite try_catch_run. specialize (Hm w).
  destruct (m w) as [[a|e|] w1]; simpl in *; try exact Hm.
  rewrite (Hh e w1). exact Hm.
Qed.

Lemma keeps_of_sum {A C} (component : World -> C) (r : JsError + A) :
  keeps component (of_sum r).
Proof. destruct r; intros w; reflexivity. Qed.

(** Discovery, with all its retries, touches neither the cache nor the
    secret storage. *)
Lemma keeps_discovery_loop {C} (component : World -> C) env B Mx left :
  (forall dt ev, keeps component (emit dt ev)) ->
  forall attempt, keeps component (discovery_loop env B Mx left attempt).
Proof.
  intros He.
  assert (Hd : keeps component (discovery env)).
  { unfold discovery. apply keeps_bind; [apply keeps_get_world|]. intros w.
    apply keeps_bind; [apply He|]. intros _. apply keeps_of_sum. }
  induction left as [|left IH]; intros attempt; simpl.
  - apply keeps_try_catch; [exact Hd|]. intros e. unfold discovery_failed.
    apply keeps_bind; [apply He|]. intros _. apply keeps_throw.
  - apply keeps_try_catch; [exact Hd|]. intros e.
    apply keeps_bind.
    + unfold Math_random. apply keeps_bind; [apply keeps_get_world|]. intros w.
      apply keeps_bind; [apply He|]. intros _. apply keeps_ret.
    + intros r. apply keeps_bind; [apply He|]. intros _. apply IH.
Qed.

Lemma discoveryWithRetry_keeps env w r w1 :
  discoveryWithRetry env w = (r, w1) -> cached w1 = cached w /\ secret w1 = secret w.
Proof.
  intros H. unfold discoveryWithRetry, discoveryWithRetry_with in H.
  pose proof (keeps_discovery_loop cached env 500 2000 3 keeps_cached_emit 0%nat w) as Hc.
  pose proof (keeps_discovery_loop secret env 500 2000 3 keeps_secret_emit 0%nat w) as Hs.
  rewrite H in Hc, Hs. auto.
Qed.

(** A refresh that yields nothing leaves the cache and the stored record
    as they were. *)
Lemma tryRefresh_none_inv env token w w' :
  tryRefresh env token w = (Return None, w') ->
  cached w' = cached w /\ secret w' = secret w.
Proof.
  unfold tryRefresh. rewrite try_catch_run, bind_run.
  destruct (discoveryWithRetry env w) as [[c|e|] w1] eqn:Hd;
    destruct (discoveryWithRetry_keeps env w _ w1 Hd) as [Hc Hs].
  - rewrite bind_run, refreshTokenGrant_run.
    destruct (refresh_outcome env _ c (refresh_token token)) as [e|res].
    + rewrite bind_run, console_error_run. intros H. inversion H; subst w'.
      simpl. auto.
    + rewrite bind_run, get_world_run. cbv beta iota zeta.
      rewrite bind_run, save_run.
      destruct (secrets_store_error env _) as [e|].
      * rewrite bind_run, console_error_run. intros H. inversion H; subst w'.
        simpl. auto.
      * rewrite bind_run, set_cached_run. intros H. discriminate H.
  - rewrite bind_run, console_error_run. intros H. inversion H; subst w'.
    simpl. auto.
  - intros H. discriminate H.
Qed.

Lemma examined_keeps env w tok w0 :
  examined env w = (tok, w0) ->
  secret w0 = secret w /\
  (cached w0 = cached w \/ cached w = None) /\
  calls is_network (trace w0) = calls is_network (trace w) /\
  listens (trace w0) = listens (trace w).
Proof.
  unfold examined. destruct (cached w) as [t|] eqn:Hc.
  - intros H. inversion H; subst. auto.
  - rewrite load_run.
    destruct (match secrets_get_error env _ with Some _ => None | None => _ end);
      intros H; inversion H; subst; simpl;
      rewrite calls_app, listens_app; simpl; rewrite app_nil_r;
      repeat split; auto.
Qed.

Lemma getValid_some_cached env (w w' : World) (t : TokenRecord) :
  getValid env w = (Return (Some t), w') ->
  cached w' = Some t.
Proof.
  rewrite getValid_examined.
  destruct (examined env w) as [[t0|] w0] eqn:Hex; [|discriminate].
  pose proof (examined_cached env w t0 w0 Hex) as Hc0.
  rewrite (getValid_cached env w0 t0 Hc0).
  destruct (isValid_at (now_sec w0) t0).
  - intros H. inversion H; subst. exact Hc0.
  - destruct (truthy_str (refresh_token t0)); [|discriminate].
    destruct (tryRefresh_cases env t0 w0)
      as [[next [c [w1 [res [_ [_ [_ [_ Hrun]]]]]]]]|[w1 Hnone]].
    + rewrite Hrun. intros H. inversion H; subst. reflexivity.
    + rewrite Hnone. discriminate.
Qed.

(** X2. Whatever token [getValid] returns is the one the in-process cache
    holds when the call returns. *)
Theorem getValid_result_is_cached env (w w' : World) (t : TokenRecord) :
  getValid env w = (Return (Some t), w') ->
  cached w' = Some t.
Proof. apply getValid_some_cached. Qed.

Lemma getValid_result_is_cached_witness :
  cached (snd (getValid env_short_lived (world_at (Some expired_token) None 1000000)))
  = Some (refreshed_record 1000 short_lived_response expired_token).
Proof.
  apply (getValid_result_is_cached env_short_lived
           (world_at (Some expired_token) None 1000000)).
  vm_compute. reflexivity.
Defined.

(** X3. [getValid] changes the stored record only by writing the record
    it returns after a successful refresh; in every other case the secret
    storage holds what it held before. And a cache that holds a token is
    never emptied. *)
Theorem getValid_storage_discipline env (w w' : World) (r : option TokenRecord) :
  getValid env w = (Return r, w') ->
  (secret w' = secret w \/ exists t, r = Some t /\ secret w' = Some (JsonOf t)) /\
  (cached w <> None -> cached w' <> None).
Proof.
  rewrite getValid_examined.
  destruct (examined env w) as [[t0|] w0] eqn:Hex.
  - destruct (examined_keeps env w _ w0 Hex) as [Hs [Hc _]].
    pose proof (examined_cached env w t0 w0 Hex) as Hc0.
    rewrite (getValid_cached env w0 t0 Hc0).
    destruct (isValid_at (now_sec w0) t0).
    + intros H. inversion H; subst. split; [left; exact Hs|].
      intros _. rewrite Hc0. discriminate.
    + destruct (truthy_str (refresh_token t0)).
      * destruct (tryRefresh_cases env t0 w0)
          as [[next [c [w1 [res [_ [_ [_ [_ Hrun]]]]]]]]|[w1 Hnone]].
        -- rewrite Hrun. intros H. inversion H; subst. split.
           ++ right. exists next. split; reflexivity.
           ++ intros _. simpl. discriminate.
        -- rewrite Hnone. intros H. inversion H; subst.
           destruct (tryRefresh_none_inv env t0 w0 w' Hnone) as [Hc' Hs'].
           split; [left; rewrite Hs'; exact Hs|].
           intros _. rewrite Hc', Hc0. discriminate.
      * intros H. inversion H; subst. split; [left; exact Hs|].
        intros _. rewrite Hc0. discriminate.
  - destruct (examined_keeps env w _ w0 Hex) as [Hs [Hc _]].
    intros H. inversion H; subst. split; [left; exact Hs|].
    intros Hne. destruct Hc as [Hc|Hc]; [rewrite Hc; exact Hne | contradiction].
Qed.

Lemma getValid_storage_discipline_witness :
  secret (snd (getValid (env_failing_first 4)
                 (world_at (Some expired_token) (Some (JsonOf expired_token)) 1000000)))
  = Some (JsonOf expired_token) /\
  cached (snd (getValid (env_failing_first 4)
                 (world_at (Some expired_token) (Some (JsonOf expired_token)) 1000000)))
  <> None.
Proof.
  destruct (getValid_storage_discipline (env_failing_first 4)
              (world_at (Some expired_token) (Some (JsonOf expired_token)) 1000000)
              (snd (getValid (env_failing_first 4)
                      (world_at (Some expired_token) (Some (JsonOf expired_token))
                         1000000)))
              None) as [Hs Hc].
  - vm_compute. reflexivity.
  - split.
    + destruct Hs as [Hs|[t [Ht _]]]; [exact Hs | discriminate Ht].
    + apply Hc. discriminate.
Defined.

(** X4. A stale token that carries no refresh token, or an empty one,
    makes [getValid] return null at once: after the token has been
    examined nothing more happens, so no call reaches the identity
    provider and no listener is started. *)
Theorem getValid_stale_without_refresh_token env (w w0 : World) (t : TokenRecord) :
  examined env w = (Some t, w0) ->
  isValid_at (now_sec w0) t = false ->
  truthy_str (refresh_token t) = false ->
  getValid env w = (Return None, w0) /\
  calls is_network (trace w0) = calls is_network (trace w) /\
  listens (trace w0) = listens (trace w).
Proof.
  intros Hex Hv Hrt.
  destruct (examined_keeps env w _ w0 Hex) as [_ [_ [Hn Hl]]].
  split; [|split; assumption].
  rewrite getValid_examined, Hex.
  rewrite (getValid_cached env w0 t (examined_cached env w t w0 Hex)), Hv, Hrt.
  reflexivity.
Qed.

Lemma getValid_stale_without_refresh_token_witness :
  getValid env_short_lived
    (world_at None (Some (JsonOf (mkToken (Some "at-1"%string) (Some ""%string) None None
                                    None (Some 3600) (Some 900)))) 1000000)
  = (Return None,
     snd (examined env_short_lived
            (world_at None (Some (JsonOf (mkToken (Some "at-1"%string) (Some ""%string)
                                            None None None (Some 3600) (Some 900))))
               1000000))).
Proof.
  apply (getValid_stale_without_refresh_token env_short_lived _ _
           (mkToken (Some "at-1"%string) (Some ""%string) None None None
              (Some 3600) (Some 900))).
  - reflexivity.
  - reflexivity.
  - reflexivity.
Defined.

(* ================================================================== *)
(** * The retrier's worst case *)
(* ================================================================== *)

Lemma sleeps_after_retry env B Mx attempt w :
  sleeps (trace (after_retry env B Mx attempt w)) =
  sleeps (trace w)
  ++ [delay_of B Mx attempt (random_outcome env (calls is_random (trace w)))].
Proof.
  unfold after_retry. rewrite !sleeps_push. simpl. rewrite !app_nil_r. reflexivity.
Qed.

Lemma random_after_retry env B Mx attempt w :
  calls is_random (trace (after_retry env B Mx attempt w))
  = S (calls is_random (trace w)).
Proof. rewrite calls_after_retry. simpl. lia. Qed.

Lemma discovery_loop_sleeps env B Mx left :
  forall attempt w,
    exists f,
      (f <= left)%nat /\
      sleeps (trace (snd (discovery_loop env B Mx left attempt w))) =
        sleeps (trace w)
        ++ expected_delays env B Mx (calls is_random (trace w)) attempt f.
Proof.
  induction left as [|left IH]; intros attempt w;
    destruct (discovery_outcome env (calls is_discovery (trace w))) as [e|c] eqn:H.
  - exists 0%nat. split; [lia|].
    rewrite (discovery_loop_last env B Mx attempt w e H).
    unfold after_last_failure. simpl snd. rewrite !sleeps_push. simpl.
    rewrite !app_nil_r. reflexivity.
  - exists 0%nat. split; [lia|].
    rewrite (discovery_loop_success env B Mx 0 attempt w c H).
    simpl snd. rewrite sleeps_push. simpl. rewrite !app_nil_r. reflexivity.
  - rewrite (discovery_loop_retry env B Mx left attempt w e H).
    destruct (IH (S attempt) (after_retry env B Mx attempt w)) as [f [Hf Hs]].
    exists (S f). split; [lia|].
    rewrite Hs, sleeps_after_retry, random_after_retry, <- app_assoc.
    reflexivity.
  - exists 0%nat. split; [lia|].
    rewrite (discovery_loop_success env B Mx (S left) attempt w c H).
    simpl snd. rewrite sleeps_push. simpl. rewrite !app_nil_r. reflexivity.
Qed.

Lemma total_ms_expected_delays env k f :
  (f <= 3)%nat ->
  (forall i, (0 <= random_outcome env i)%Q /\ (random_outcome env i < 1)%Q) ->
  0 <= total_ms (expected_delays env 500 2000 k 0 f) <= 5250.
Proof.
  intros Hf Hr.
  assert (Hd : forall a i, 0 <= backoff 500 2000 a ->
            backoff 500 2000 a <= 2 * delay_of 500 2000 a (random_outcome env i)
            <= 3 * backoff 500 2000 a).
  { intros a i Hb. destruct (Hr i) as [H0 H1].
    destruct (backoff_default_even a) as [Hrange Hev].
    apply delay_of_bounds; assumption. }
  pose proof (Hd 0%nat k) as D0. pose proof (Hd 1%nat (S k)) as D1.
  pose proof (Hd 2%nat (S (S k))) as D2.
  change (backoff 500 2000 0) with 500 in D0.
  change (backoff 500 2000 1) with 1000 in D1.
  change (backoff 500 2000 2) with 2000 in D2.
  specialize (D0 ltac:(lia)). specialize (D1 ltac:(lia)). specialize (D2 ltac:(lia)).
  destruct f as [|[|[|[|f]]]]; [| | | |lia]; unfold total_ms; simpl List.fold_right; lia.
Qed.

(** X5. With the default options the retrier sleeps at most three times,
    and at most 5250 ms in total, whatever discovery does. *)
Theorem discoveryWithRetry_total_delay env (w : World) :
  (forall i, (0 <= random_outcome env i)%Q /\ (random_outcome env i < 1)%Q) ->
  exists delays,
    sleeps (trace (snd (discoveryWithRetry env w))) = sleeps (trace w) ++ delays /\
    (List.length delays <= 3)%nat /\
    0 <= total_ms delays <= 5250.
Proof.
  intros Hr.
  destruct (discovery_loop_sleeps env 500 2000 3 0%nat w) as [f [Hf Hs]].
  exists (expected_delays env 500 2000 (calls is_random (trace w)) 0 f).
  split; [exact Hs|]. split.
  - rewrite expected_delays_length. exact Hf.
  - apply total_ms_expected_delays; assumption.
Qed.

Lemma discoveryWithRetry_total_delay_witness :
  exists delays,
    sleeps (trace (snd (discoveryWithRetry (env_failing_first 4) (world_at None None 0))))
      = delays /\
    (List.length delays <= 3)%nat /\
    0 <= total_ms delays <= 5250.
Proof.
  destruct (discoveryWithRetry_total_delay (env_failing_first 4) (world_at None None 0))
    as [delays [Hs Hb]].
  - intros i. simpl. split; lra.
  - exists delays. split; [exact Hs | exact Hb].
Defined.

(* ================================================================== *)
(** * [logout] and what follows it *)
(* ================================================================== *)

Lemma trace_with_cached c w : trace (with_cached c w) = trace w.
Proof. reflexivity. Qed.

Lemma trace_with_secret s w : trace (with_secret s w) = trace w.
Proof. reflexivity. Qed.

Lemma logout_run env w :
  logout env w =
  (Return tt,
   match secrets_delete_error env (calls is_secrets_delete (trace (with_cached None w))) with
   | Some _ => push (lag env (with_cached None w)) EvSecretsDelete (with_cached None w)
   | None => with_secret None
               (push (lag env (with_cached None w)) EvSecretsDelete (with_cached None w))
   end).
Proof.
  unfold logout. rewrite bind_run, set_cached_run, try_catch_run.
  rewrite bind_run, get_world_run. cbv beta iota.
  rewrite bind_run. cbv beta iota delta [emit].
  destruct (secrets_delete_error env _); reflexivity.
Qed.

(** X6. A [getValid] that runs next after a [logout] whose deletion of
    the stored record succeeded, with no other operation of the manager
    running in between or still in flight, finds nothing: it reads the
    secret storage once, returns null and calls neither discovery nor
    the token endpoint, whatever token was cached or stored before the
    logout. *)
Theorem logout_then_getValid env env' (w w1 : World) :
  logout env w = (Return tt, w1) ->
  secrets_delete_error env (calls is_secrets_delete (trace w)) = None ->
  getValid env' w1 = (Return None, push (lag env' w1) EvSecretsGet w1) /\
  calls is_network (trace (push (lag env' w1) EvSecretsGet w1))
    = calls is_network (trace w).
Proof.
  rewrite logout_run. intros H Hd. simpl trace in H. rewrite Hd in H.
  inversion H; subst w1. clear H. split.
  - rewrite getValid_examined. unfold examined. simpl cached. rewrite load_run.
    simpl secret. destruct (secrets_get_error env' _); reflexivity.
  - rewrite calls_push, trace_with_secret, calls_push, trace_with_cached.
    change (is_network EvSecretsGet) with false.
    change (is_network EvSecretsDelete) with false. cbv iota. lia.
Qed.

Lemma logout_then_getValid_witness :
  fst (getValid env_short_lived
         (snd (logout env_short_lived
                 (world_at (Some expired_token) (Some (JsonOf expired_token)) 1000000))))
  = Return None.
Proof.
  rewrite (proj1 (logout_then_getValid env_short_lived env_short_lived
                    (world_at (Some expired_token) (Some (JsonOf expired_token)) 1000000)
                    (snd (logout env_short_lived
                            (world_at (Some expired_token)
                               (Some (JsonOf expired_token)) 1000000)))
                    eq_refl eq_refl)).
  reflexivity.
Defined.

(** X7. [logout] never throws. If the deletion of the stored record
    fails, the failure is swallowed and the record stays in the secret
    storage, so that a later [getValid] loads it again and, if it is
    still fresh, returns it. *)
Theorem logout_failed_delete_keeps_record env env' (w : World) (T : TokenRecord)
  (e : Z) (err : JsError) :
  secrets_delete_error env (calls is_secrets_delete (trace w)) = Some err ->
  secret w = Some (JsonOf T) ->
  expires_at T = Some e ->
  let w1 := snd (logout env w) in
  secrets_get_error env' (calls is_secrets_get (trace w1)) = None ->
  0 <= clock_ms w ->
  now_sec (push (lag env' w1) EvSecretsGet w1) + 180 < e ->
  fst (logout env w) = Return tt /\
  cached w1 = None /\
  secret w1 = Some (JsonOf T) /\
  fst (getValid env' w1) = Return (Some T).
Proof.
  intros Hd Hs He w1 Hg Hclock Hfresh.
  assert (Hw1 : w1 = push (lag env (with_cached None w)) EvSecretsDelete
                       (with_cached None w)).
  { unfold w1. rewrite logout_run. simpl trace. rewrite Hd. reflexivity. }
  split; [rewrite logout_run; reflexivity|].
  split; [rewrite Hw1; reflexivity|].
  split; [rewrite Hw1; exact Hs|].
  assert (Hc1 : cached w1 = None) by (rewrite Hw1; reflexivity).
  assert (Hs1 : secret w1 = Some (JsonOf T)) by (rewrite Hw1; exact Hs).
  assert (Hclock1 : 0 <= clock_ms w1).
  { rewrite Hw1. unfold push, lag. simpl. lia. }
  destruct (getValid_returns_fresh_stored env' w1 T e Hc1 Hs1 Hg He Hclock1 Hfresh)
    as [Hrun _].
  rewrite Hrun. reflexivity.
Qed.

Lemma logout_failed_delete_keeps_record_witness :
  fst (logout env_delete_fails
         (world_at (Some fresh_token) (Some (JsonOf fresh_token)) 1000000)) = Return tt /\
  fst (getValid env_delete_fails
         (snd (logout env_delete_fails
                 (world_at (Some fresh_token) (Some (JsonOf fresh_token)) 1000000))))
  = Return (Some fresh_token).
Proof.
  destruct (logout_failed_delete_keeps_record env_delete_fails env_delete_fails
              (world_at (Some fresh_token) (Some (JsonOf fresh_token)) 1000000)
              fresh_token 2000 (new_Error "secret storage is locked"))
    as [H1 [_ [_ H2]]].
  - reflexivity.
  - reflexivity.
  - reflexivity.
  - reflexivity.
  - simpl. lia.
  - vm_compute. reflexivity.
  - split; [exact H1 | exact H2].
Defined.

(* ================================================================== *)
(** * The interactive login: state and listeners *)
(* ================================================================== *)

Lemma try_ports_keeps env ports :
  forall last w,
    cached (snd (try_ports env ports last w)) = cached w /\
    secret (snd (try_ports env ports last w)) = secret w.
Proof.
  induction ports as [|p ports IH]; intros last w; simpl try_ports.
  - split; reflexivity.
  - rewrite try_catch_run, attemptOnPort_run. cbv zeta.
    destruct (attempt _) as [|t|e]; simpl fst; simpl snd; cbv iota.
    + simpl. rewrite cached_emitted, secret_emitted. auto.
    + simpl. rewrite cached_emitted, secret_emitted. auto.
    + destruct (code_is e "EADDRINUSE").
      * destruct (IH (Some e) (emitted env
                                 (events (run_until_settled (create p)
                                            (listener_inputs env
                                               (calls is_listen (trace w)) p))) w))
          as [Hc Hs].
        rewrite Hc, Hs, cached_emitted, secret_emitted. auto.
      * simpl. rewrite cached_emitted, secret_emitted. auto.
Qed.

(** X8. An interactive login that does not return a token leaves the
    in-process cache and the stored record exactly as they were, whether
    it failed in discovery, at the ports, in the code exchange or in the
    final write to the secret storage. *)
Theorem runInteractiveLogin_failure_keeps_state env (ports : list Z) (w : World) :
  (forall t, fst (runInteractiveLogin env ports w) <> Return t) ->
  cached (snd (runInteractiveLogin env ports w)) = cached w /\
  secret (snd (runInteractiveLogin env ports w)) = secret w.
Proof.
  intros Hfail.
  destruct (discoveryWithRetry env w) as [[c|e|] w1] eqn:Hd;
    destruct (discoveryWithRetry_keeps env w _ w1 Hd) as [Hc Hs].
  - rewrite (runInteractiveLogin_run env ports w c w1 Hd) in *.
    destruct (try_ports_keeps env ports None w1) as [Hc2 Hs2].
    destruct (try_ports env ports None w1) as [[tokens|e|] w2]; simpl in Hc2, Hs2.
    + destruct (secrets_store_error env _).
      * simpl. rewrite Hc2, Hs2. auto.
      * exfalso. apply (Hfail (login_record (now_sec w2) tokens)). reflexivity.
    + simpl. rewrite Hc2, Hs2. auto.
    + simpl. rewrite Hc2, Hs2. auto.
  - unfold runInteractiveLogin. rewrite bind_run, try_catch_run, Hd.
    destruct (instanceof_Error e); simpl; auto.
  - unfold runInteractiveLogin. rewrite bind_run, try_catch_run, Hd. simpl. auto.
Qed.

Lemma runInteractiveLogin_failure_keeps_state_witness :
  cached (snd (runInteractiveLogin env_ports_busy [8669; 8668; 8667]
                 (world_at (Some expired_token) (Some (JsonOf expired_token)) 0)))
  = Some expired_token /\
  secret (snd (runInteractiveLogin env_ports_busy [8669; 8668; 8667]
                 (world_at (Some expired_token) (Some (JsonOf expired_token)) 0)))
  = Some (JsonOf expired_token).
Proof.
  apply (runInteractiveLogin_failure_keeps_state env_ports_busy [8669; 8668; 8667]
           (world_at (Some expired_token) (Some (JsonOf expired_token)) 0)).
  intros t. vm_compute. discriminate.
Defined.

Lemma listens_ev_app a b : listens_ev (a ++ b) = listens_ev a ++ listens_ev b.
Proof. unfold listens_ev. rewrite List.map_app, listens_app. reflexivity. Qed.

(** Only [create] starts the server: no input makes the listener listen
    on another port or a second time. *)
Lemma listens_ev_step l i : listens_ev (events (step l i)) = listens_ev (events l).
Proof.
  destruct i as [|e|url|req r]; simpl.
  - destruct (server l); try reflexivity.
    simpl. rewrite listens_ev_app. simpl. apply app_nil_r.
  - destruct (code_is e "EADDRINUSE"); rewrite events_settle; [|reflexivity].
    simpl. rewrite listens_ev_app. simpl. apply app_nil_r.
  - destruct (dispatching (server l)); try reflexivity.
    destruct url as [pathname|]; [|reflexivity].
    destruct (String.eqb pathname "/callback"); [|reflexivity].
    simpl. rewrite listens_ev_app. simpl. apply app_nil_r.
  - destruct (List.existsb _ _); [|reflexivity].
    destruct r; rewrite events_settle; simpl;
      rewrite !listens_ev_app; simpl; rewrite !app_nil_r; reflexivity.
Qed.

Lemma listens_ev_run_until_settled ins :
  forall l, listens_ev (events (run_until_settled l ins)) = listens_ev (events l).
Proof.
  induction ins as [|i ins IH]; intros l; [reflexivity|]. simpl.
  destruct (attempt l); [|reflexivity|reflexivity].
  rewrite IH. apply listens_ev_step.
Qed.

Lemma attemptOnPort_listens env p w :
  listens (trace (snd (attemptOnPort env p w))) = listens (trace w) ++ [p].
Proof.
  rewrite attemptOnPort_run. cbv zeta. simpl snd.
  rewrite listens_emitted, listens_ev_run_until_settled. reflexivity.
Qed.

Lemma try_ports_listens env ports :
  forall last w,
    exists k,
      (k <= List.length ports)%nat /\
      listens (trace (snd (try_ports env ports last w)))
        = listens (trace w) ++ List.firstn k ports.
Proof.
  induction ports as [|p ports IH]; intros last w; simpl try_ports.
  - exists 0%nat. simpl. rewrite app_nil_r. split; [lia | reflexivity].
  - pose proof (attemptOnPort_listens env p w) as Hl.
    rewrite try_catch_run.
    destruct (attemptOnPort env p w) as [[t|e|] w1]; simpl in Hl.
    + exists 1%nat. simpl. split; [lia | exact Hl].
    + destruct (code_is e "EADDRINUSE").
      * destruct (IH (Some e) w1) as [k [Hk Hk']].
        exists (S k). simpl. split; [lia|].
        rewrite Hk', Hl, <- app_assoc. reflexivity.
      * exists 1%nat. simpl. split; [lia | exact Hl].
    + exists 1%nat. simpl. split; [lia | exact Hl].
Qed.

Lemma listens_length tr : List.length (listens tr) = calls is_listen tr.
Proof.
  unfold calls. induction tr as [|[t ev] tr IH]; [reflexivity|].
  destruct ev; simpl; rewrite ?IH; reflexivity.
Qed.

(** A computation that adds no listen event leaves the list of ports
    listened on. *)
Lemma listens_unchanged {A} (m : M A) w :
  appends m -> at_most (is_kind KListen) 0 m ->
  listens (trace (snd (m w))) = listens (trace w).
Proof.
  intros Ha Hz. destruct (Ha w) as [sfx Hsfx].
  specialize (Hz w). rewrite Hsfx in *.
  rewrite <- !(calls_ext is_listen _ _ is_kind_listen) in Hz.
  rewrite calls_app in Hz. rewrite listens_app.
  assert (Hnil : listens sfx = []).
  { apply List.length_zero_iff_nil. rewrite listens_length. lia. }
  rewrite Hnil. apply app_nil_r.
Qed.

Lemma discoveryWithRetry_listens env w :
  listens (trace (snd (discoveryWithRetry env w))) = listens (trace w).
Proof.
  apply listens_unchanged; [apply appends_discovery_loop|].
  apply (at_most_discovery_loop env KListen 500 2000 3 0%nat).
Qed.

(** X9. The interactive login starts its listeners on candidate ports
    only, in the order of the list, each port at most once and without
    skipping any: the ports listened on form a prefix of the list. *)
Theorem runInteractiveLogin_listens_prefix env (ports : list Z) (w : World) :
  exists k,
    (k <= List.length ports)%nat /\
    listens (trace (snd (runInteractiveLogin env ports w)))
      = listens (trace w) ++ List.firstn k ports.
Proof.
  pose proof (discoveryWithRetry_listens env w) as Hd0.
  destruct (discoveryWithRetry env w) as [[c|e|] w1] eqn:Hd; simpl in Hd0.
  - rewrite (runInteractiveLogin_run env ports w c w1 Hd).
    destruct (try_ports_listens env ports None w1) as [k [Hk Hl]].
    exists k. split; [exact Hk|].
    destruct (try_ports env ports None w1) as [[tokens|e|] w2]; simpl in Hl.
    + destruct (secrets_store_error env _); simpl;
        rewrite listens_app; simpl; rewrite app_nil_r, Hl, Hd0; reflexivity.
    + simpl. rewrite Hl, Hd0. reflexivity.
    + simpl. rewrite Hl, Hd0. reflexivity.
  - exists 0%nat. split; [lia|]. simpl. rewrite app_nil_r.
    unfold runInteractiveLogin. rewrite bind_run, try_catch_run, Hd.
    destruct (instanceof_Error e); simpl; exact Hd0.
  - exists 0%nat. split; [lia|]. simpl. rewrite app_nil_r.
    unfold runInteractiveLogin. rewrite bind_run, try_catch_run, Hd.
    simpl. exact Hd0.
Qed.

(** X10. A [getValid] that runs next after a successful interactive
    login, with no other operation of the manager running in between or
    still in flight, and while the new token is more than 180 seconds
    from expiry, returns that very record from the cache and does
    nothing else. *)
Theorem login_then_getValid env env' (ports : list Z) (w w' : World)
  (t : TokenRecord) (e : Z) :
  runInteractiveLogin env ports w = (Return t, w') ->
  expires_at t = Some e ->
  0 <= clock_ms w' ->
  now_sec w' + 180 < e ->
  getValid env' w' = (Return (Some t), w').
Proof.
  intros Hrun He Hclock Hfresh.
  destruct (runInteractiveLogin_success_inv env ports w t w' Hrun)
    as [c [w1 [tokens [w2 [_ [_ [_ Hw]]]]]]].
  assert (Hc : cached w' = Some t) by (rewrite Hw; reflexivity).
  rewrite (getValid_cached env' w' t Hc).
  rewrite (isValid_at_fresh (now_sec w') t e He (now_sec_nonneg w' Hclock) Hfresh).
  reflexivity.
Qed.

Lemma login_then_getValid_witness :
  fst (getValid env_short_lived
         (snd (runInteractiveLogin env_second_port [8669; 8668]
                 (world_at None None 1000000))))
  = Return (Some (login_record 1000 sample_response)).
Proof.
  rewrite (login_then_getValid env_second_port env_short_lived [8669; 8668]
             (world_at None None 1000000)
             (snd (runInteractiveLogin env_second_port [8669; 8668]
                     (world_at None None 1000000)))
             (login_record 1000 sample_response) 4600).
  - reflexivity.
  - vm_compute. reflexivity.
  - reflexivity.
  - vm_compute. discriminate.
  - vm_compute. reflexivity.
Defined.

(* ================================================================== *)
(** * Invariants of the callback listener *)
(* ================================================================== *)

Lemma count_ev_app k a b : count_ev k (a ++ b) = (count_ev k a + count_ev k b)%nat.
Proof. unfold count_ev. rewrite List.filter_app, List.length_app. reflexivity. Qed.

Lemma run_app l ins1 ins2 : run l (ins1 ++ ins2) = run (run l ins1) ins2.
Proof. unfold run. apply List.fold_left_app. Qed.

(** An invariant of [step] that [create] establishes holds after any run. *)
Lemma run_invariant (P : Listener -> Prop) p :
  P (create p) ->
  (forall l i, P l -> P (step l i)) ->
  forall ins, P (run (create p) ins).
Proof.
  intros H0 Hstep ins. unfold run.
  generalize dependent (create p).
  induction ins as [|i ins IH]; intros l Hl; simpl; [exact Hl|].
  apply IH. apply Hstep. exact Hl.
Qed.

Lemma shown_once_log evs l :
  count_ev is_post_auth evs = 0%nat ->
  count_ev is_open_external evs = 0%nat ->
  shown_once l -> forall s, s <> Created -> shown_once (log evs (set_server s l)).
Proof.
  intros Hp Ho [Hle [Heq Hcr]] s Hs. unfold shown_once. simpl.
  rewrite !count_ev_app, Hp, Ho, !Nat.add_0_r.
  split; [exact Hle|]. split; [exact Heq|]. intros H. contradiction.
Qed.

Lemma shown_once_settle by_req a l : shown_once l -> shown_once (settle by_req a l).
Proof. unfold shown_once, settle. destruct (attempt l); auto. Qed.

Lemma shown_once_step l i : shown_once l -> shown_once (step l i).
Proof.
  intros Hinv. destruct i as [|e|url|req r]; simpl.
  - destruct (server l) eqn:Hs; try exact Hinv.
    destruct Hinv as [Hle [Heq Hcr]]. specialize (Hcr Hs).
    unfold shown_once. simpl. rewrite !count_ev_app, Hcr, Heq, Hcr.
    unfold count_ev. simpl. repeat split; auto. discriminate.
  - destruct (code_is e "EADDRINUSE"); apply shown_once_settle; [|exact Hinv].
    apply (shown_once_log [EvServerClose (port l)] l); auto.
    destruct (dispatching (server l)); discriminate.
  - destruct (dispatching (server l)) eqn:Hs; try exact Hinv.
    destruct url as [pathname|]; [|exact Hinv].
    destruct (String.eqb pathname "/callback"); [|exact Hinv].
    destruct Hinv as [Hle [Heq Hcr]]. unfold shown_once. simpl.
    rewrite !count_ev_app. unfold count_ev at 2 4 6. simpl. rewrite !Nat.add_0_r.
    split; [exact Hle|]. split; [exact Heq|].
    intros Hc. rewrite Hc in Hs. discriminate Hs.
  - destruct (List.existsb _ _); [|exact Hinv].
    destruct r; apply shown_once_settle.
    + apply (shown_once_log [EvServerClose (port l)]
               (log [EvRespond (port l) 400] (end_exchange req l))); auto;
        [|simpl; destruct (dispatching (server l)); discriminate].
      destruct Hinv as [Hle [Heq Hcr]]. unfold shown_once. simpl.
      rewrite !count_ev_app. unfold count_ev at 2 4 6. simpl. rewrite !Nat.add_0_r.
      auto.
    + apply (shown_once_log [EvServerClose (port l)]
               (log [EvRespond (port l) 200] (end_exchange req l))); auto;
        [|simpl; destruct (dispatching (server l)); discriminate].
      destruct Hinv as [Hle [Heq Hcr]]. unfold shown_once. simpl.
      rewrite !count_ev_app. unfold count_ev at 2 4 6. simpl. rewrite !Nat.add_0_r.
      auto.
Qed.

(** X11. Whatever reaches a listener, it hands the authorization URL to
    the display callback at most once, each time followed by one opening
    of the browser, and never before the bind has succeeded. *)
Theorem listener_shows_url_once (p : Z) (ins : list ListenerInput) :
  let l := run (create p) ins in
  (count_ev is_post_auth (events l) <= 1)%nat /\
  count_ev is_open_external (events l) = count_ev is_post_auth (events l) /\
  (server l = Created -> count_ev is_post_auth (events l) = 0%nat).
Proof.
  apply (run_invariant shown_once p).
  - unfold shown_once. simpl. repeat split; auto.
  - apply shown_once_step.
Qed.

Lemma filter_remove_length (x : nat) (l : list nat) :
  List.NoDup l -> List.In x l ->
  S (List.length (List.filter (fun r => negb (Nat.eqb r x)) l)) = List.length l.
Proof.
  induction l as [|y l IH]; intros Hnd Hin; [contradiction|].
  inversion Hnd as [|y' l' Hny Hnd']; subst.
  simpl. destruct (Nat.eqb_spec y x) as [Heq|Hne]; simpl.
  - subst y. f_equal.
    assert (Hall : List.filter (fun r => negb (Nat.eqb r x)) l = l).
    { clear IH Hin Hnd Hnd'. induction l as [|z l IHl]; [reflexivity|].
      simpl. destruct (Nat.eqb_spec z x) as [Hz|Hz].
      - exfalso. apply Hny. left. exact Hz.
      - simpl. f_equal. apply IHl. intros H. apply Hny. right. exact H. }
    rewrite Hall. reflexivity.
  - f_equal. apply IH; [exact Hnd'|]. destruct Hin as [Hin|Hin]; [contradiction|exact Hin].
Qed.

Lemma accounted_settle by_req a l : accounted l -> accounted (settle by_req a l).
Proof. unfold accounted, settle. destruct (attempt l); auto. Qed.

Lemma count_ev_cons k ev evs :
  count_ev k (ev :: evs) = ((if k ev then 1 else 0) + count_ev k evs)%nat.
Proof. unfold count_ev. simpl. destruct (k ev); reflexivity. Qed.

Lemma count_ev_nil k : count_ev k [] = 0%nat.
Proof. reflexivity. Qed.

Lemma accounted_step l i : accounted l -> accounted (step l i).
Proof.
  intros Hacc. destruct i as [|e|url|req r]; simpl.
  - destruct (server l); try exact Hacc.
    destruct Hacc as [Hnd [Hlt [Hcg Hsum]]]. unfold accounted. simpl.
    rewrite !count_ev_app, !count_ev_cons, !count_ev_nil. simpl.
    rewrite !Nat.add_0_r. auto.
  - destruct (code_is e "EADDRINUSE"); apply accounted_settle; [|exact Hacc].
    destruct Hacc as [Hnd [Hlt [Hcg Hsum]]]. unfold accounted. simpl.
    rewrite !count_ev_app, !count_ev_cons, !count_ev_nil. simpl.
    rewrite !Nat.add_0_r. auto.
  - destruct (dispatching (server l)); try exact Hacc.
    destruct url as [pathname|]; [|exact Hacc].
    destruct (String.eqb pathname "/callback"); [|exact Hacc].
    destruct Hacc as [Hnd [Hlt [Hcg Hsum]]]. unfold accounted. simpl.
    rewrite !count_ev_app, !count_ev_cons, !count_ev_nil, List.length_app. simpl.
    split; [|split; [|split]].
    + apply List.NoDup_app; [exact Hnd | repeat constructor; intros [] | ].
      intros x Hx [Hx'|[]]. subst x. specialize (Hlt _ Hx). lia.
    + intros r Hr. apply List.in_app_or in Hr. destruct Hr as [Hr|[Hr|[]]].
      * specialize (Hlt _ Hr). lia.
      * lia.
    + lia.
    + lia.
  - destruct (List.existsb (Nat.eqb req) (exchanging l)) eqn:Hex; [|exact Hacc].
    destruct Hacc as [Hnd [Hlt [Hcg Hsum]]].
    assert (Hin : List.In req (exchanging l)).
    { apply List.existsb_exists in Hex. destruct Hex as [x [Hx Hxe]].
      apply Nat.eqb_eq in Hxe. subst x. exact Hx. }
    pose proof (filter_remove_length req (exchanging l) Hnd Hin) as Hlen.
    destruct r; apply accounted_settle; unfold accounted; simpl;
      rewrite !count_ev_app, !count_ev_cons, !count_ev_nil; simpl;
      rewrite !Nat.add_0_r;
      (split; [apply List.NoDup_filter; exact Hnd|]);
      (split; [intros x Hx; apply List.filter_In in Hx; apply Hlt; tauto|]);
      (split; [exact Hcg | lia]).
Qed.

(** X12. Whatever reaches a listener, every /callback request its handler
    took up was handed to the code exchange exactly once, and is either
    still being exchanged or has been answered exactly once: the listener
    answers no request it did not exchange and answers none twice. *)
Theorem listener_accounts_for_requests (p : Z) (ins : list ListenerInput) :
  let l := run (create p) ins in
  count_ev is_code_grant (events l) = arrived l /\
  (count_ev is_respond (events l) + List.length (exchanging l))%nat = arrived l.
Proof.
  assert (H : accounted (run (create p) ins)).
  { apply (run_invariant accounted p).
    - unfold accounted. simpl. repeat split; auto.
      + constructor.
      + intros r [].
    - apply accounted_step. }
  destruct H as [_ [_ [Hcg Hsum]]]. split; assumption.
Qed.

(* ================================================================== *)
(** * More on the single-flight guard *)
(* ================================================================== *)

(** X13. As long as [logout] is only called while no interactive flow is
    running, at most one interactive flow is running at any time. *)
Theorem at_most_one_flow_running (acts : list SingleFlight.Action) (f g : nat) :
  SingleFlight.logouts_idle SingleFlight.initial acts = true ->
  SingleFlight.running (SingleFlight.run SingleFlight.initial acts) f ->
  SingleFlight.running (SingleFlight.run SingleFlight.initial acts) g ->
  f = g.
Proof.
  intros Hq Hf Hg.
  assert (G : SingleFlight.guarded (SingleFlight.run SingleFlight.initial acts))
    by (apply guarded_run; [apply guarded_initial | exact Hq]).
  apply G in Hf. apply G in Hg. rewrite Hf in Hg. inversion Hg. reflexivity.
Qed.

Lemma at_most_one_flow_running_witness :
  SingleFlight.running
    (SingleFlight.run SingleFlight.initial
       [SingleFlight.CallLogin None; SingleFlight.CallLogin None;
        SingleFlight.FlowSettles 0 (SingleFlight.Failed sample_error);
        SingleFlight.CallLogout; SingleFlight.CallLogin None]) 1 /\
  1%nat = 1%nat.
Proof.
  split; [reflexivity|].
  apply (at_most_one_flow_running
           [SingleFlight.CallLogin None; SingleFlight.CallLogin None;
            SingleFlight.FlowSettles 0 (SingleFlight.Failed sample_error);
            SingleFlight.CallLogout; SingleFlight.CallLogin None] 1%nat 1%nat);
    reflexivity.
Defined.




(* ================================================================== *)
(** * [formatOcaError] reads the message without regard to letter case *)
(* ================================================================== *)

Lemma toLowerCase_app a b :
  toLowerCase (a ++ b) = (toLowerCase a ++ toLowerCase b)%string.
Proof. induction a as [|c a IH]; simpl; [reflexivity|]. rewrite IH. reflexivity. Qed.

Lemma prefix_app n rest : String.prefix n (n ++ rest) = true.
Proof.
  induction n as [|c n IH]; simpl; [destruct rest; reflexivity|].
  destruct (Ascii.ascii_dec c c) as [_|Hne]; [exact IH | contradiction].
Qed.

Lemma includes_eq n s :
  includes n s =
  if String.prefix n s then true
  else match s with
       | EmptyString => false
       | String _ s' => includes n s'
       end.
Proof. destruct s; reflexivity. Qed.

Lemma includes_here n rest : includes n (n ++ rest) = true.
Proof. rewrite includes_eq, prefix_app. reflexivity. Qed.

Lemma includes_later n pre : forall s, includes n s = true -> includes n (pre ++ s) = true.
Proof.
  induction pre as [|c pre IH]; intros s H; [exact H|].
  rewrite includes_eq. simpl String.append.
  destruct (String.prefix n (String c (pre ++ s))); [reflexivity|].
  apply IH. exact H.
Qed.

Lemma includes_middle n pre mid post :
  toLowerCase mid = n ->
  includes n (toLowerCase (pre ++ mid ++ post)) = true.
Proof.
  intros H. rewrite !toLowerCase_app, H.
  apply includes_later, includes_here.
Qed.

Lemma app_not_empty pre mid post n :
  toLowerCase mid = n -> n <> EmptyString ->
  String.eqb (pre ++ mid ++ post) EmptyString = false.
Proof.
  intros H Hn. apply String.eqb_neq. intros E.
  destruct pre; [|discriminate E]. destruct mid; [|discriminate E].
  simpl in H. congruence.
Qed.

(** X15. An error without the EADDRINUSE code whose description contains
    one of the words getaddrinfo, econnrefused, network, fetch failed or
    dns, in any mixture of upper and lower case and anywhere in the text,
    is reported with the cannot-reach-Oracle-IDCS message. *)
Theorem formatOcaError_network_any_case (err : JsError) (pre mid post needle : string) :
  code_is err "EADDRINUSE" = false ->
  error_description err = JString (pre ++ mid ++ post) ->
  List.In needle network_needles ->
  toLowerCase mid = needle ->
  formatOcaError err = msg_cannot_reach.
Proof.
  intros Hcode Hdesc Hin Hmid.
  assert (Hne : needle <> EmptyString).
  { simpl in Hin. intros E. rewrite E in Hin.
    repeat (destruct Hin as [Hin|Hin]; [discriminate Hin|]). exact Hin. }
  assert (Hraw : js_or (JString (pre ++ mid ++ post))
                   (js_or (message err) (JString (to_String err)))
                 = JString (pre ++ mid ++ post)).
  { unfold js_or at 1. simpl truthy.
    rewrite (app_not_empty pre mid post needle Hmid Hne). reflexivity. }
  unfold formatOcaError. cbv zeta. rewrite Hcode, Hdesc, Hraw.
  pose proof (includes_middle needle pre mid post Hmid) as Hinc.
  simpl in Hin.
  destruct Hin as [E|[E|[E|[E|[E|[]]]]]]; rewrite <- E in Hinc; rewrite Hinc;
    rewrite ?orb_true_r; reflexivity.
Qed.

Lemma formatOcaError_network_any_case_witness :
  formatOcaError
    {| code := Some "ERR_SOCKET"%string;
       error_description := JString "request failed: ECONNREFUSED 10.0.0.1:443";
       message := JUndefined; to_String := "Error"; instanceof_Error := true |}
  = msg_cannot_reach.
Proof.
  apply (formatOcaError_network_any_case _ "request failed: " "ECONNREFUSED"
           " 10.0.0.1:443" "econnrefused").
  - reflexivity.
  - reflexivity.
  - simpl. tauto.
  - reflexivity.
Defined.

(* ================================================================== *)
(** * The discovery URL *)
(* ================================================================== *)

Lemma strip_slashes k : strip_trailing_slashes (slashes k) = EmptyString.
Proof. induction k as [|k IH]; simpl; [reflexivity|]. rewrite IH. reflexivity. Qed.

Lemma strip_app_slashes s k :
  strip_trailing_slashes (s ++ slashes k) = strip_trailing_slashes s.
Proof.
  induction s as [|c s IH]; simpl; [apply strip_slashes|]. rewrite IH. reflexivity.
Qed.

Lemma strip_no_trailing_slash s :
  forall t, strip_trailing_slashes s <> (t ++ "/")%string.
Proof.
  induction s as [|c s IH]; intros t; simpl.
  - destruct t; discriminate.
  - destruct (strip_trailing_slashes s) as [|c' r] eqn:E.
    + destruct (is_slash c) eqn:Hc.
      * destruct t; discriminate.
      * destruct t as [|c2 t]; simpl; intros H; inversion H; subst.
        -- unfold is_slash in Hc. simpl in Hc. discriminate Hc.
        -- destruct t; discriminate.
    + destruct t as [|c2 t]; simpl; intros H; inversion H; subst.
      apply (IH t). assumption.
Qed.

Lemma strip_decompose s :
  exists k, s = (strip_trailing_slashes s ++ slashes k)%string.
Proof.
  induction s as [|c s [k IH]]; simpl.
  - exists 0%nat. reflexivity.
  - destruct (strip_trailing_slashes s) as [|c' r] eqn:E.
    + destruct (is_slash c) eqn:Hc.
      * exists (S k). simpl. simpl in IH. rewrite <- IH.
        unfold is_slash in Hc. apply Ascii.eqb_eq in Hc. subst c. reflexivity.
      * exists k. simpl. simpl in IH. rewrite <- IH. reflexivity.
    + exists k. simpl. simpl in IH. rewrite <- IH. reflexivity.
Qed.

(** X16. The issuer URL used for discovery is the configured URL without
    the slashes it ends with: it never ends with a slash, so exactly one
    slash precedes .well-known, and adding any number of slashes to the
    end of the configured URL gives the same discovery URL. *)
Theorem discoveryUrl_ignores_trailing_slashes (u : string) :
  (exists k, u = (IDCS_URL u ++ slashes k)%string) /\
  (forall t, IDCS_URL u <> (t ++ "/")%string) /\
  (forall k, discoveryUrl (u ++ slashes k) = discoveryUrl u).
Proof.
  unfold discoveryUrl, IDCS_URL. split; [apply strip_decompose|]. split.
  - apply strip_no_trailing_slash.
  - intros k. rewrite strip_app_slashes. reflexivity.
Qed.

(* ================================================================== *)
(** * The chat handler *)
(* ================================================================== *)

(** X17. [getClientWithBase] either builds a client whose API key is the
    non-empty access token of the record the cache now holds, or throws
    the request to sign in; no failure of the token manager reaches its
    caller in any other form. *)
Theorem getClientWithBase_token_or_sign_in env (h : OcaHandler.Host) (url : string)
  (w : World) :
  exists w',
    (exists t a,
       OcaHandler.getClientWithBase env h url w =
         (Return {| OcaHandler.apiKey := a; OcaHandler.baseURL := url;
                    OcaHandler.defaultHeaders := OcaHandler.client_headers h |}, w') /\
       access_token t = Some a /\ a <> EmptyString /\ cached w' = Some t)
    \/ OcaHandler.getClientWithBase env h url w
       = (Throw (new_Error OcaHandler.msg_sign_in), w').
Proof.
  destruct (getValid_returns env w) as [r [w' Hrun]].
  exists w'. unfold OcaHandler.getClientWithBase. rewrite bind_run, Hrun.
  destruct r as [t|]; [|right; reflexivity].
  destruct (access_token t) as [a|] eqn:Ha; [|right; reflexivity].
  destruct (String.eqb_spec a EmptyString) as [He|Hne]; [right; reflexivity|].
  left. exists t, a. split; [reflexivity|]. split; [exact Ha|]. split; [exact Hne|].
  apply (getValid_some_cached env w w' t Hrun).
Qed.

Lemma get_set_header_same k v h :
  OcaHandler.get_header k (OcaHandler.set_header k v h) = Some v.
Proof.
  induction h as [|[k' v'] h IH]; simpl.
  - rewrite String.eqb_refl. reflexivity.
  - destruct (String.eqb k' k) eqn:E; simpl; rewrite E; [reflexivity | exact IH].
Qed.

Lemma get_set_header_other k k' v h :
  k <> k' ->
  OcaHandler.get_header k (OcaHandler.set_header k' v h) = OcaHandler.get_header k h.
Proof.
  intros Hne. induction h as [|[k2 v2] h IH]; simpl.
  - destruct (String.eqb_spec k' k); [congruence | reflexivity].
  - destruct (String.eqb_spec k2 k') as [E|E]; simpl.
    + subst k2. destruct (String.eqb_spec k' k); [congruence | reflexivity].
    + destruct (String.eqb k2 k); [reflexivity | exact IH].
Qed.

Lemma set_header_fresh k v h :
  ~ List.In k (List.map fst h) -> OcaHandler.set_header k v h = h ++ [(k, v)].
Proof.
  induction h as [|[k' v'] h IH]; intros Hn; simpl; [reflexivity|].
  destruct (String.eqb_spec k' k) as [E|E].
  - exfalso. apply Hn. left. exact E.
  - rewrite IH; [reflexivity|]. intros H. apply Hn. right. exact H.
Qed.

Lemma keys_set_header k v h :
  forall x, List.In x (List.map fst (OcaHandler.set_header k v h)) <->
            x = k \/ List.In x (List.map fst h).
Proof.
  induction h as [|[k' v'] h IH]; intros x; simpl.
  - intuition.
  - destruct (String.eqb_spec k' k) as [E|E]; simpl.
    + subst k'. intuition.
    + rewrite IH. intuition.
Qed.

Lemma nodup_set_header k v h :
  List.NoDup (List.map fst h) ->
  List.NoDup (List.map fst (OcaHandler.set_header k v h)).
Proof.
  induction h as [|[k' v'] h IH]; intros Hnd; simpl.
  - constructor; [intros []|constructor].
  - inversion Hnd as [|x l Hx Hl]; subst.
    destruct (String.eqb_spec k' k) as [E|E]; simpl.
    + constructor; assumption.
    + constructor; [|apply IH; exact Hl].
      rewrite keys_set_header. intros [H|H]; [congruence | contradiction].
Qed.

Lemma nodup_spread b :
  forall a, List.NoDup (List.map fst a) ->
            List.NoDup (List.map fst (OcaHandler.spread a b)).
Proof.
  unfold OcaHandler.spread.
  induction b as [|[k v] b IH]; intros a Ha; simpl; [exact Ha|].
  apply IH. apply nodup_set_header. exact Ha.
Qed.

(** Spreading an object into an empty one copies it. *)
Lemma spread_copy b :
  forall a,
    List.NoDup (List.map fst (a ++ b)) -> OcaHandler.spread a b = a ++ b.
Proof.
  unfold OcaHandler.spread.
  induction b as [|[k v] b IH]; intros a Hnd; simpl; [rewrite app_nil_r; reflexivity|].
  assert (Hk : ~ List.In k (List.map fst a)).
  { rewrite List.map_app in Hnd. simpl in Hnd.
    apply List.NoDup_remove_2 in Hnd. intros H. apply Hnd.
    apply List.in_or_app. left. exact H. }
  rewrite (set_header_fresh k v a Hk), IH.
  - rewrite <- app_assoc. reflexivity.
  - rewrite <- app_assoc. exact Hnd.
Qed.

Lemma spread_DEFAULT_HEADERS (h : OcaHandler.Host) :
  OcaHandler.spread [] (OcaHandler.DEFAULT_HEADERS h) = OcaHandler.DEFAULT_HEADERS h.
Proof.
  apply (spread_copy (OcaHandler.DEFAULT_HEADERS h) []). simpl.
  unfold OcaHandler.DEFAULT_HEADERS.
  apply nodup_set_header, nodup_set_header, nodup_spread. constructor.
Qed.

(** X18. The headers of the client always identify it by the values
    [getOcaClientInfo] read, and ask for JSON, whatever the base headers
    contain; every other base header is passed on. *)
Theorem client_headers_identify_client (h : OcaHandler.Host) :
  let hs := OcaHandler.client_headers h in
  let info := OcaHandler.getOcaClientInfo h in
  OcaHandler.get_header "client" hs = Some (OcaHandler.client info) /\
  OcaHandler.get_header "client-version" hs = Some (OcaHandler.clientVersion info) /\
  OcaHandler.get_header "client-ide" hs = Some (OcaHandler.clientIde info) /\
  OcaHandler.get_header "client-ide-version" hs
    = Some (OcaHandler.clientIdeVersion info) /\
  OcaHandler.get_header "Accept" hs = Some "application/json"%string /\
  OcaHandler.get_header "Content-Type" hs = Some "application/json"%string /\
  forall k : string,
    ~ List.In k ["client"; "client-version"; "client-ide"; "client-ide-version";
                 "Accept"; "Content-Type"]%string ->
    OcaHandler.get_header k hs
    = OcaHandler.get_header k (OcaHandler.spread [] (OcaHandler.BASE_HEADERS h)).
Proof.
  intros hs info. unfold hs, OcaHandler.client_headers. fold info.
  rewrite spread_DEFAULT_HEADERS. unfold OcaHandler.DEFAULT_HEADERS.
  split; [|split; [|split; [|split; [|split; [|split]]]]].
  - rewrite !get_set_header_other by discriminate. apply get_set_header_same.
  - rewrite !get_set_header_other by discriminate. apply get_set_header_same.
  - rewrite !get_set_header_other by discriminate. apply get_set_header_same.
  - apply get_set_header_same.
  - rewrite !get_set_header_other by discriminate. apply get_set_header_same.
  - rewrite !get_set_header_other by discriminate. apply get_set_header_same.
  - intros k Hk. simpl in Hk.
    rewrite !get_set_header_other; [reflexivity| | | | | |];
      intros E; apply Hk; subst k; tauto.
Qed.

(* ------------------------------------------------------------------ *)
(** ** The completion stream *)

Lemma append_assoc (a b c : string) : ((a ++ b) ++ c)%string = (a ++ (b ++ c))%string.
Proof. induction a as [|x a IH]; simpl; [reflexivity|]. rewrite IH. reflexivity. Qed.

Lemma accumulated_text_app ys zs :
  OcaHandler.accumulated_text (ys ++ zs)
  = (OcaHandler.accumulated_text ys ++ OcaHandler.accumulated_text zs)%string.
Proof.
  induction ys as [|y ys IH]; simpl; [reflexivity|].
  destruct y; simpl; rewrite IH; [symmetry; apply append_assoc | reflexivity | reflexivity].
Qed.

Lemma accumulated_reasoning_app ys zs :
  OcaHandler.accumulated_reasoning (ys ++ zs)
  = (OcaHandler.accumulated_reasoning ys ++ OcaHandler.accumulated_reasoning zs)%string.
Proof.
  induction ys as [|y ys IH]; simpl; [reflexivity|].
  destruct y; simpl; rewrite IH; [reflexivity | symmetry; apply append_assoc | reflexivity].
Qed.

Lemma append_empty_r (s : string) : (s ++ "")%string = s.
Proof. induction s as [|x s IH]; simpl; [reflexivity|]. rewrite IH. reflexivity. Qed.

Lemma yields_of_text c :
  OcaHandler.accumulated_text (OcaHandler.yields_of c)
  = match OcaHandler.first_delta c with
    | Some {| OcaHandler.content := Some s |} => s
    | _ => EmptyString
    end.
Proof.
  unfold OcaHandler.yields_of. rewrite !accumulated_text_app.
  assert (Hr : OcaHandler.accumulated_text
                 match OcaHandler.first_delta c with
                 | Some {| OcaHandler.reasoning_content := Some s |} =>
                     [OcaHandler.ReasoningChunk s]
                 | _ => []
                 end = EmptyString)
    by (destruct (OcaHandler.first_delta c) as [[s [r|]]|]; reflexivity).
  assert (Hu : OcaHandler.accumulated_text
                 match OcaHandler.usage c with
                 | Some u => [OcaHandler.UsageChunk
                                (OcaHandler.or_zero (OcaHandler.prompt_tokens u))
                                (OcaHandler.or_zero (OcaHandler.completion_tokens u))]
                 | None => []
                 end = EmptyString)
    by (destruct (OcaHandler.usage c); reflexivity).
  rewrite Hr, Hu, !append_empty_r.
  destruct (OcaHandler.first_delta c) as [[[s|] r]|]; try reflexivity.
  destruct (String.eqb_spec s EmptyString) as [E|E]; simpl.
  - symmetry. exact E.
  - apply append_empty_r.
Qed.

Lemma yields_of_reasoning c :
  OcaHandler.accumulated_reasoning (OcaHandler.yields_of c)
  = match OcaHandler.first_delta c with
    | Some {| OcaHandler.reasoning_content := Some s |} => s
    | _ => EmptyString
    end.
Proof.
  unfold OcaHandler.yields_of. rewrite !accumulated_reasoning_app.
  assert (Ht : OcaHandler.accumulated_reasoning
                 match OcaHandler.first_delta c with
                 | Some {| OcaHandler.content := Some s |} =>
                     if String.eqb s EmptyString then [] else [OcaHandler.TextChunk s]
                 | _ => []
                 end = EmptyString).
  { destruct (OcaHandler.first_delta c) as [[[s|] r]|]; try reflexivity.
    destruct (String.eqb s EmptyString); reflexivity. }
  assert (Hu : OcaHandler.accumulated_reasoning
                 match OcaHandler.usage c with
                 | Some u => [OcaHandler.UsageChunk
                                (OcaHandler.or_zero (OcaHandler.prompt_tokens u))
                                (OcaHandler.or_zero (OcaHandler.completion_tokens u))]
                 | None => []
                 end = EmptyString)
    by (destruct (OcaHandler.usage c); reflexivity).
  rewrite Ht, Hu, append_empty_r. simpl.
  destruct (OcaHandler.first_delta c) as [[s [r|]]|]; try reflexivity.
  simpl. apply append_empty_r.
Qed.

Lemma usage_yields_of c :
  List.length (List.filter OcaHandler.is_usage_chunk (OcaHandler.yields_of c))
  = if OcaHandler.has_usage c then 1%nat else 0%nat.
Proof.
  unfold OcaHandler.yields_of, OcaHandler.has_usage.
  destruct (OcaHandler.first_delta c) as [[[s|] [r|]]|];
    destruct (OcaHandler.usage c); simpl;
    try (destruct (String.eqb s EmptyString); simpl); reflexivity.
Qed.

(** X19. The generator of [createMessage] loses, repeats and reorders
    nothing: the text chunks it yields, put end to end, are the contents
    the provider sent put end to end, the same holds for the reasoning,
    and it yields one usage chunk for each stream chunk that carries usage. *)
Theorem createMessage_preserves_stream (stream : list OcaHandler.Chunk) :
  OcaHandler.accumulated_text (OcaHandler.createMessage_yields stream)
    = OcaHandler.sent_text stream /\
  OcaHandler.accumulated_reasoning (OcaHandler.createMessage_yields stream)
    = OcaHandler.sent_reasoning stream /\
  List.length (List.filter OcaHandler.is_usage_chunk
                 (OcaHandler.createMessage_yields stream))
    = List.length (List.filter OcaHandler.has_usage stream).
Proof.
  unfold OcaHandler.createMessage_yields.
  induction stream as [|c stream [IHt [IHr IHu]]]; simpl; [auto|].
  rewrite accumulated_text_app, accumulated_reasoning_app, List.filter_app,
    List.length_app, yields_of_text, yields_of_reasoning, usage_yields_of,
    IHt, IHr, IHu.
  repeat split. destruct (OcaHandler.has_usage c); reflexivity.
Qed.

(* ================================================================== *)
(** * The webview side *)
(* ================================================================== *)

Lemma is_type_string v :
  Webview.is_type Webview.TString v = true -> exists s, v = Webview.JVString s.
Proof. destruct v; simpl; try discriminate. eauto. Qed.

Lemma is_type_boolean v :
  Webview.is_type Webview.TBoolean v = true -> exists b, v = Webview.JVBool b.
Proof. destruct v; simpl; try discriminate. eauto. Qed.

Lemma is_type_undefined v :
  Webview.is_type Webview.TUndefined v = true -> v = Webview.JVUndefined.
Proof. destruct v; simpl; try discriminate. reflexivity. Qed.

(** X20. [isOcaMessage] accepts exactly the values that carry a message
    of the union type: an object whose [type] is one of the five tags and
    whose payload member has the type the tag requires; an absent
    [error] or [authenticated] is accepted, a missing [url] is not. *)
Theorem isOcaMessage_sound_and_complete (val : Webview.JValue) :
  Webview.isOcaMessage val = true <-> exists m, Webview.carries val m.
Proof.
  split.
  - unfold Webview.isOcaMessage.
    destruct val as [| | b | n | s | props |]; simpl; try discriminate;
      try (destruct b; discriminate);
      try (destruct (negb (n =? 0)); discriminate);
      try (destruct (negb (String.eqb s "")); discriminate).
    destruct (Webview.lookup_prop "type" props) as [| | b | n | t | ps |] eqn:Ht;
      try discriminate.
    destruct (String.eqb_spec t Webview.SHOW_AUTH_URL) as [E|_].
    { intros H. apply is_type_string in H. destruct H as [u Hu].
      exists (Webview.OcaShowAuthUrl u). unfold Webview.carries. simpl.
      rewrite Ht, Hu, E. eauto. }
    destruct (String.eqb_spec t Webview.LOGIN_SUCCESS) as [E|_].
    { intros _. exists Webview.OcaLoginSuccess. unfold Webview.carries. simpl.
      rewrite Ht, E. eauto. }
    destruct (String.eqb_spec t Webview.LOGIN_ERROR) as [E|_].
    { intros H. apply orb_true_iff in H. destruct H as [H|H].
      - apply is_type_string in H. destruct H as [e He].
        exists (Webview.OcaLoginError (Some e)). unfold Webview.carries. simpl.
        rewrite Ht, He, E. eauto.
      - apply is_type_undefined in H.
        exists (Webview.OcaLoginError None). unfold Webview.carries. simpl.
        rewrite Ht, H, E. eauto. }
    destruct (String.eqb_spec t Webview.LOGOUT_SUCCESS) as [E|_].
    { intros _. exists Webview.OcaLogoutSuccess. unfold Webview.carries. simpl.
      rewrite Ht, E. eauto. }
    destruct (String.eqb_spec t Webview.STATUS) as [E|_]; [|discriminate].
    intros H. apply orb_true_iff in H. destruct H as [H|H].
    + apply is_type_boolean in H. destruct H as [b Hb].
      exists (Webview.OcaStatus (Some b)). unfold Webview.carries. simpl.
      rewrite Ht, Hb, E. eauto.
    + apply is_type_undefined in H.
      exists (Webview.OcaStatus None). unfold Webview.carries. simpl.
      rewrite Ht, H, E. eauto.
  - intros [m [[props Hv] Hm]]. subst val. unfold Webview.isOcaMessage. simpl.
    destruct m as [url| |error| |authenticated]; simpl in Hm.
    + destruct Hm as [Ht Hu]. rewrite Ht, Hu. reflexivity.
    + rewrite Hm. reflexivity.
    + destruct Hm as [Ht He]. rewrite Ht, He. destruct error; reflexivity.
    + rewrite Hm. reflexivity.
    + destruct Hm as [Ht Ha]. rewrite Ht, Ha. destruct authenticated; reflexivity.
Qed.

(** X21. In [OCAModelService] the selected model id and the model list
    are stored independently: what one setter writes the matching getter
    reads back, the other getter is unaffected, clearing the selection
    leaves the models, and no operation touches the other members of the
    webview state. *)
Theorem model_service_round_trip (ModelInfo : Type)
  (st : Webview.WebState ModelInfo) (ms : Webview.Models ModelInfo) (id : string) :
  Webview.getOcaSelectedModelId (Webview.setOcaSelectedModelId id st) = Some id /\
  Webview.getOcaModels (Webview.setOcaSelectedModelId id st) = Webview.getOcaModels st /\
  Webview.getOcaModels (Webview.setOcaModels ms st) = ms /\
  Webview.getOcaSelectedModelId (Webview.setOcaModels ms st)
    = Webview.getOcaSelectedModelId st /\
  Webview.getOcaSelectedModelId (Webview.clearOcaSelection st) = None /\
  Webview.getOcaModels (Webview.clearOcaSelection st) = Webview.getOcaModels st /\
  Webview.others (Webview.setOcaSelectedModelId id st) = Webview.others st /\
  Webview.others (Webview.setOcaModels ms st) = Webview.others st /\
  Webview.others (Webview.clearOcaSelection st) = Webview.others st.
Proof.
  destruct st as [[[[[c|]]|] o]|]; repeat split; reflexivity.
Qed.

(** X22. The option list of the model selector always contains the
    selected model id, keeps every listed id in its order, and has no
    duplicate when the listed ids have none: the selected id is put in
    front only if it is not listed. *)
Theorem option_values_contains_selection (selectedModelId : string)
  (modelsIds : list string) :
  List.In selectedModelId (Webview.option_values selectedModelId modelsIds) /\
  (exists front, Webview.option_values selectedModelId modelsIds = front ++ modelsIds /\
                 (List.length front <= 1)%nat) /\
  (List.NoDup modelsIds ->
   List.NoDup (Webview.option_values selectedModelId modelsIds)).
Proof.
  unfold Webview.option_values, Webview.listed.
  destruct (List.existsb (String.eqb selectedModelId) modelsIds) eqn:E.
  - apply List.existsb_exists in E. destruct E as [x [Hx Hxe]].
    apply String.eqb_eq in Hxe. subst x.
    split; [exact Hx|]. split; [exists []; simpl; auto|]. auto.
  - split; [left; reflexivity|]. split; [exists [selectedModelId]; simpl; auto|].
    intros Hnd. simpl. constructor; [|exact Hnd].
    intros Hin.
    assert (Ht : List.existsb (String.eqb selectedModelId) modelsIds = true).
    { apply List.existsb_exists. exists selectedModelId.
      split; [exact Hin | apply String.eqb_refl]. }
    rewrite Ht in E. discriminate E.
Qed.

(* ================================================================== *)
(** * The model list *)
(* ================================================================== *)

Section ModelList.

Variable Num : Type.
Variable parseFloat_times_1000000 : ModelFetcher.Json -> Num.
Variable show_status : Z -> string.
Variable new_URL : string -> JsError + ModelFetcher.Url.
Variable http_get : string -> OcaHandler.Headers
                    -> ModelFetcher.HttpError + ModelFetcher.Json.
Variable host : OcaHandler.Host.

Local Abbreviation base_info := (ModelFetcher.base_info parseFloat_times_1000000).
Local Abbreviation build_models := (ModelFetcher.build_models parseFloat_times_1000000).
Local Abbreviation add_model := (ModelFetcher.add_model parseFloat_times_1000000).
Local Abbreviation getOCAModels :=
  (ModelFetcher.getOCAModels parseFloat_times_1000000 show_status new_URL http_get host).

Lemma get_set_model_same k (v : ModelFetcher.ModelInfo Num) models :
  ModelFetcher.get_model k (ModelFetcher.set_model k v models) = Some v.
Proof.
  induction models as [|[k' v'] models IH]; simpl.
  - rewrite String.eqb_refl. reflexivity.
  - destruct (String.eqb k' k) eqn:E; simpl; rewrite E; [reflexivity | exact IH].
Qed.

Lemma get_set_model_other k k' (v : ModelFetcher.ModelInfo Num) models :
  k <> k' ->
  ModelFetcher.get_model k (ModelFetcher.set_model k' v models)
  = ModelFetcher.get_model k models.
Proof.
  intros Hne. induction models as [|[k2 v2] models IH]; simpl.
  - destruct (String.eqb_spec k' k); [congruence | reflexivity].
  - destruct (String.eqb_spec k2 k') as [E|E]; simpl.
    + subst k2. destruct (String.eqb_spec k' k); [congruence | reflexivity].
    + destruct (String.eqb k2 k); [reflexivity | exact IH].
Qed.

Lemma get_add_model id models model :
  id <> "__proto__"%string ->
  ModelFetcher.get_model id (add_model models model) =
  match ModelFetcher.model_id model with
  | Some id' => if String.eqb id' id then Some (base_info model)
                else ModelFetcher.get_model id models
  | None => ModelFetcher.get_model id models
  end.
Proof.
  intros Hid. unfold ModelFetcher.add_model, ModelFetcher.assign_model.
  destruct (ModelFetcher.model_id model) as [id'|]; [|reflexivity].
  destruct (String.eqb_spec id' id) as [E|E].
  - subst id'. destruct (String.eqb_spec id "__proto__"); [contradiction|].
    apply get_set_model_same.
  - destruct (String.eqb id' "__proto__"); [reflexivity|].
    apply get_set_model_other. congruence.
Qed.

Lemma get_add_model_proto models model :
  ModelFetcher.get_model "__proto__" (add_model models model)
  = ModelFetcher.get_model "__proto__" models.
Proof.
  unfold ModelFetcher.add_model, ModelFetcher.assign_model.
  destruct (ModelFetcher.model_id model) as [id'|]; [|reflexivity].
  destruct (String.eqb_spec id' "__proto__") as [E|E]; [reflexivity|].
  apply get_set_model_other. congruence.
Qed.

Lemma get_fold_add_model_proto dataArray :
  forall models,
    ModelFetcher.get_model "__proto__" (List.fold_left add_model dataArray models)
    = ModelFetcher.get_model "__proto__" models.
Proof.
  induction dataArray as [|model rest IH]; intros models; simpl; [reflexivity|].
  rewrite IH. apply get_add_model_proto.
Qed.

Lemma get_fold_add_model id dataArray :
  id <> "__proto__"%string ->
  forall models,
    ModelFetcher.get_model id (List.fold_left add_model dataArray models) =
    match ModelFetcher.last_named id dataArray with
    | Some m => Some (base_info m)
    | None => ModelFetcher.get_model id models
    end.
Proof.
  intros Hid.
  induction dataArray as [|model rest IH]; intros models; simpl; [reflexivity|].
  rewrite IH, (get_add_model _ _ _ Hid).
  destruct (ModelFetcher.last_named id rest); [reflexivity|].
  destruct (ModelFetcher.model_id model) as [id'|]; [|reflexivity].
  destruct (String.eqb id' id); reflexivity.
Qed.

Lemma last_named_names id dataArray m :
  ModelFetcher.last_named id dataArray = Some m ->
  List.In m dataArray /\ ModelFetcher.model_id m = Some id.
Proof.
  induction dataArray as [|model rest IH]; simpl; [discriminate|].
  destruct (ModelFetcher.last_named id rest) as [m'|].
  - intros H. inversion H; subst m'. destruct (IH eq_refl) as [Hin Hid].
    split; [right; exact Hin | exact Hid].
  - destruct (ModelFetcher.model_id model) as [id'|] eqn:Hid; [|discriminate].
    destruct (String.eqb_spec id' id) as [E|E]; [|discriminate].
    intros H. inversion H; subst. auto.
Qed.

Lemma model_id_not_empty model : ModelFetcher.model_id model <> Some EmptyString.
Proof.
  unfold ModelFetcher.model_id.
  destruct (ModelFetcher.get _ "model") as [| | | |s| |]; try discriminate.
  destruct (String.eqb_spec s EmptyString); [discriminate | congruence].
Qed.

Lemma contextWindow_nonneg model : 0 <= ModelFetcher.contextWindow (base_info model).
Proof.
  unfold ModelFetcher.base_info. simpl.
  destruct (ModelFetcher.get _ "context_window") as [| | |n| | |]; try lia.
  destruct (Z.ltb_spec 0 n); lia.
Qed.

(** X23. The record [getOCAModels] builds maps a model id other than
    __proto__ to the information of the last entry of the response that
    names it, and to nothing if no entry does. Entries whose id is
    missing, not a string or empty add nothing, so the empty id is never
    a member, and neither is __proto__. Every member stems from an entry
    of the response, and its context window is non-negative. *)
Theorem build_models_lookup (dataArray : list ModelFetcher.Json) (id : string) :
  (id <> "__proto__"%string ->
   ModelFetcher.get_model id (build_models dataArray)
   = option_map base_info (ModelFetcher.last_named id dataArray)) /\
  ModelFetcher.get_model EmptyString (build_models dataArray) = None /\
  ModelFetcher.get_model "__proto__" (build_models dataArray) = None /\
  forall info,
    ModelFetcher.get_model id (build_models dataArray) = Some info ->
    0 <= ModelFetcher.contextWindow info /\
    exists model,
      List.In model dataArray /\ ModelFetcher.model_id model = Some id /\
      info = base_info model.
Proof.
  unfold ModelFetcher.build_models.
  assert (H : forall i, i <> "__proto__"%string ->
                ModelFetcher.get_model i (List.fold_left add_model dataArray [])
                = option_map base_info (ModelFetcher.last_named i dataArray)).
  { intros i Hi. rewrite (get_fold_add_model _ _ Hi).
    destruct (ModelFetcher.last_named i dataArray); reflexivity. }
  assert (Hp : ModelFetcher.get_model "__proto__" (List.fold_left add_model dataArray [])
               = None)
    by (rewrite get_fold_add_model_proto; reflexivity).
  split; [exact (H id)|]. split; [|split; [exact Hp|]].
  - rewrite (H EmptyString) by discriminate.
    destruct (ModelFetcher.last_named EmptyString dataArray) as [m|] eqn:E;
      [|reflexivity].
    destruct (last_named_names _ _ _ E) as [_ Hid].
    exfalso. exact (model_id_not_empty m Hid).
  - intros info.
    destruct (String.eqb_spec id "__proto__") as [Ep|Ep];
      [subst id; rewrite Hp; discriminate|].
    rewrite (H id Ep).
    destruct (ModelFetcher.last_named id dataArray) as [m|] eqn:E; [|discriminate].
    simpl. intros Hi. inversion Hi; subst info.
    destruct (last_named_names _ _ _ E) as [Hin Hid].
    split; [apply contextWindow_nonneg|]. exists m. auto.
Qed.

(** X24. [getOCAModels] sends at most one request. It sends none, and
    returns the empty record, when the base URL is blank; it sends none
    when the base URL cannot be parsed. A request it sends goes to the
    base URL with its path stripped of trailing slashes and extended by
    /v1/model/info (to the base URL as it is, if its path is opaque), and
    carries an Authorization header exactly when the access token is a
    non-empty string. *)
Theorem getOCAModels_requests (baseUrl : string) (accessToken : option string) :
  let r := getOCAModels baseUrl accessToken in
  (List.length (snd r) <= 1)%nat /\
  (ModelFetcher.is_blank baseUrl = true -> r = (inr [], [])) /\
  forall url hs,
    List.In (url, hs) (snd r) ->
    (exists u,
       new_URL baseUrl = inr u /\
       url = if ModelFetcher.opaque_path u then ModelFetcher.url_toString u
             else (ModelFetcher.before_path u
                   ++ (strip_trailing_slashes (ModelFetcher.pathname u)
                       ++ "/v1/model/info")
                   ++ ModelFetcher.after_path u)%string) /\
    OcaHandler.get_header "Authorization" hs =
      match accessToken with
      | Some a => if String.eqb a EmptyString then None
                  else Some ("Bearer " ++ a)%string
      | None => None
      end.
Proof.
  intros r. unfold r, ModelFetcher.getOCAModels.
  assert (Hauth : OcaHandler.get_header "Authorization"
                    (ModelFetcher.buildOcaHeaders host accessToken) =
                  match accessToken with
                  | Some a => if String.eqb a EmptyString then None
                              else Some ("Bearer " ++ a)%string
                  | None => None
                  end).
  { unfold ModelFetcher.buildOcaHeaders.
    destruct accessToken as [a|]; [|reflexivity].
    destruct (String.eqb a EmptyString); [reflexivity|].
    apply get_set_header_same. }
  assert (Hurl : forall u,
            ModelFetcher.url_toString (ModelFetcher.with_model_info_path u)
            = if ModelFetcher.opaque_path u then ModelFetcher.url_toString u
              else (ModelFetcher.before_path u
                    ++ (strip_trailing_slashes (ModelFetcher.pathname u)
                        ++ "/v1/model/info")
                    ++ ModelFetcher.after_path u)%string).
  { intros u. unfold ModelFetcher.with_model_info_path.
    destruct (ModelFetcher.opaque_path u); reflexivity. }
  destruct (ModelFetcher.is_blank baseUrl).
  - simpl. split; [lia|]. split; [reflexivity|]. intros url hs [].
  - destruct (new_URL baseUrl) as [e|u].
    + simpl. split; [lia|]. split; [discriminate|]. intros url hs [].
    + destruct (http_get _ _); simpl; (split; [lia|]); (split; [discriminate|]);
        intros url hs [H|[]]; inversion H; subst; (split; [|exact Hauth]);
        exists u; (split; [reflexivity | apply Hurl]).
Qed.

End ModelList.

(* ================================================================== *)
(** * A login whose discovery fails *)
(* ================================================================== *)

(** X25. If discovery fails on all four attempts, the interactive login
    rejects with the retrier's own error, the proxy-settings message
    unchanged, after exactly four discovery calls; it starts no listener
    and leaves the cache and the stored record untouched. *)
Theorem runInteractiveLogin_discovery_failure env (ports : list Z) (w : World)
  (elast : JsError) :
  (forall i, (i < 3)%nat ->
     exists e, discovery_outcome env (calls is_discovery (trace w) + i) = inl e) ->
  discovery_outcome env (calls is_discovery (trace w) + 3) = inl elast ->
  exists w',
    runInteractiveLogin env ports w = (Throw (new_Error msg_proxy), w') /\
    calls is_discovery (trace w') = (calls is_discovery (trace w) + 4)%nat /\
    listens (trace w') = listens (trace w) /\
    cached w' = cached w /\ secret w' = secret w.
Proof.
  intros Hfail Hlast.
  destruct (discovery_loop_all_fail env 500 2000 3 0%nat w elast Hfail Hlast)
    as [w0 [Hrun [_ [Hn [Hc Hs]]]]].
  exists (after_last_failure env elast w0).
  assert (Hd : discoveryWithRetry env w
               = (Throw (new_Error msg_proxy), after_last_failure env elast w0))
    by exact Hrun.
  split; [|split; [|split; [|split]]].
  - unfold runInteractiveLogin. rewrite bind_run, try_catch_run, Hd. reflexivity.
  - unfold after_last_failure. rewrite !calls_push, Hn. simpl. lia.
  - pose proof (discoveryWithRetry_listens env w) as Hl. rewrite Hd in Hl. exact Hl.
  - unfold after_last_failure. simpl. exact Hc.
  - unfold after_last_failure. simpl. exact Hs.
Qed.

Lemma runInteractiveLogin_discovery_failure_witness :
  exists w',
    runInteractiveLogin (env_failing_first 4) [8669; 8668] (world_at None None 0)
      = (Throw (new_Error msg_proxy), w') /\
    listens (trace w') = [].
Proof.
  destruct (runInteractiveLogin_discovery_failure (env_failing_first 4) [8669; 8668]
              (world_at None None 0) sample_error)
    as [w' [Hrun [_ [Hl _]]]].
  - intros i Hi. exists sample_error.
    destruct i as [|[|[|i]]]; [reflexivity | reflexivity | reflexivity | lia].
  - reflexivity.
  - exists w'. split; [exact Hrun | exact Hl].
Defined.

(* ================================================================== *)
(** * A refresh in flight across a logout *)
(* ================================================================== *)



